(** * Number guessing game with a CSV leaderboard: model and properties

    A shallow embedding of [numberGuessing.cpp].

    - [int] values are integers of [Z]; the places where the source relies on
      the 32-bit range ([prompt_int]'s default bounds, [stoi]) state it.  The
      attempt counter is not bounded: it would take 2^31 guesses to overflow.
    - [double] arithmetic is real arithmetic followed by a rounding operator
      [rnd] ([FloatArith]); the stored values of type [double] also carry the
      infinities and NaN that [stod] can read.  The exponent range of binary64
      is not modelled: no operation overflows, and [stod] throws only when no
      conversion can be performed.
    - Console and file effects are threaded through a [World]; [exit(0)] and
      an uncaught exception are results of a run.
    - What the session takes from its environment, the random secret and the
      two clocks, is given to [play_game] as a [Session].
    - Loops take fuel; each wrapper gives its loop more fuel than it has
      input left, and is proved never to run out. *)

From Stdlib Require Import ZArith List String Ascii Bool Lia.
From Stdlib Require Import Reals Lra.
Import ListNotations.

Local Open Scope string_scope.
Local Open Scope Z_scope.

(** ** Characters and strings *)

Definition ch_tab : ascii := "009"%char.
Definition ch_nl : ascii := "010"%char.
Definition ch_vt : ascii := "011"%char.
Definition ch_ff : ascii := "012"%char.
Definition ch_cr : ascii := "013"%char.
Definition ch_quote : ascii := "034"%char.
Definition ch_comma : ascii := ","%char.

Definition nl : string := String ch_nl EmptyString.
Definition quote : string := String ch_quote EmptyString.

(** [isspace] in the C locale. *)
Definition isspace (c : ascii) : bool :=
  Ascii.eqb c " " || Ascii.eqb c ch_tab || Ascii.eqb c ch_nl
  || Ascii.eqb c ch_vt || Ascii.eqb c ch_ff || Ascii.eqb c ch_cr.

(** Membership in the set [" \t\r\n"] used by [find_first_not_of] and
    [find_last_not_of]. *)
Definition is_blank (c : ascii) : bool :=
  Ascii.eqb c " " || Ascii.eqb c ch_tab || Ascii.eqb c ch_cr || Ascii.eqb c ch_nl.

Fixpoint skip_while (p : ascii -> bool) (s : string) : string :=
  match s with
  | String c t => if p c then skip_while p t else s
  | EmptyString => EmptyString
  end.

Fixpoint rev_string (s : string) (acc : string) : string :=
  match s with
  | EmptyString => acc
  | String c t => rev_string t (String c acc)
  end.

(** [line.substr(start, end - start + 1)] with [start] the first and [end] the
    last character outside [" \t\r\n"]; [None] when [find_first_not_of]
    answers [npos]. *)
Definition trim_blank (line : string) : option string :=
  match skip_while is_blank line with
  | EmptyString => None
  | s => Some (rev_string (skip_while is_blank (rev_string s EmptyString)) EmptyString)
  end.

Definition tolower (c : ascii) : ascii :=
  let n := nat_of_ascii c in
  if (65 <=? n)%nat && (n <=? 90)%nat then ascii_of_nat (n + 32) else c.

Fixpoint string_forall (p : ascii -> bool) (s : string) : bool :=
  match s with
  | EmptyString => true
  | String c t => p c && string_forall p t
  end.

(** ** Decimal text of integers *)

Definition digit_char (d : Z) : ascii := ascii_of_nat (48 + Z.to_nat d).

Definition digit_val (c : ascii) : option Z :=
  let n := nat_of_ascii c in
  if (48 <=? n)%nat && (n <=? 57)%nat then Some (Z.of_nat (n - 48)) else None.

Definition hex_digit_val (c : ascii) : option Z :=
  let n := nat_of_ascii c in
  if (48 <=? n)%nat && (n <=? 57)%nat then Some (Z.of_nat (n - 48))
  else if (97 <=? n)%nat && (n <=? 102)%nat then Some (Z.of_nat (n - 87))
  else if (65 <=? n)%nat && (n <=? 70)%nat then Some (Z.of_nat (n - 55))
  else None.

(** The decimal digits of [n >= 0], most significant first, in front of [acc]. *)
Fixpoint digits_of (fuel : nat) (n : Z) (acc : string) : string :=
  let acc' := String (digit_char (n mod 10)) acc in
  match fuel with
  | O => acc'
  | S f => if n <? 10 then acc' else digits_of f (n / 10) acc'
  end.

Definition to_digits (n : Z) : string :=
  digits_of (Z.to_nat (Z.log2 n)) n EmptyString.

(** [std::to_string(int)] and [ostream << int]. *)
Definition to_string (z : Z) : string :=
  if z <? 0 then String "-" (to_digits (- z)) else to_digits z.

(** The longest run of digits at the front of [s]: the value accumulated from
    [acc] in the given base, how many digits were read, and the text left. *)
Fixpoint scan_digits (dv : ascii -> option Z) (base : Z) (acc : Z) (cnt : nat)
    (s : string) : Z * nat * string :=
  match s with
  | EmptyString => (acc, cnt, s)
  | String c t =>
      match dv c with
      | Some d => scan_digits dv base (base * acc + d) (S cnt) t
      | None => (acc, cnt, s)
      end
  end.

(** An optional sign. *)
Definition scan_sign (s : string) : bool * string :=
  match s with
  | String "-" t => (true, t)
  | String "+" t => (false, t)
  | _ => (false, s)
  end.

(** [strtol]/[strtoll] in base 10 before any range check: leading white space,
    an optional sign, at least one digit.  Returns the value and the
    unconverted rest; [None] when no conversion can be performed. *)
Definition strtol (s : string) : option (Z * string) :=
  let '(neg, s1) := scan_sign (skip_while isspace s) in
  match scan_digits digit_val 10 0 0 s1 with
  | (_, O, _) => None
  | (v, _, rest) => Some (if neg then - v else v, rest)
  end.

Definition INT_MIN : Z := - 2147483648.
Definition INT_MAX : Z := 2147483647.
Definition LLONG_MIN : Z := - 9223372036854775808.
Definition LLONG_MAX : Z := 9223372036854775807.

(** [std::stoi(item)]: [None] stands for a thrown [invalid_argument] (no
    conversion) or [out_of_range] (the value does not fit an [int]). *)
Definition stoi (s : string) : option Z :=
  match strtol s with
  | None => None
  | Some (v, _) => if (INT_MIN <=? v) && (v <=? INT_MAX) then Some v else None
  end.

(** [std::stoll(trimmed, &idx)] followed by the test [idx != trimmed.size()]:
    [Some v] when the whole text converts to a [long long], [None] when either
    throws. *)
Definition stoll_whole (s : string) : option Z :=
  match strtol s with
  | Some (v, EmptyString) =>
      if (LLONG_MIN <=? v) && (v <=? LLONG_MAX) then Some v else None
  | _ => None
  end.

(** ** Floating point

    A [double] operation is the exact operation on real numbers followed by
    rounding to the nearest representable value.  The properties below are
    the ones binary64 rounding has away from overflow; [flog2] is the [log2]
    of the C library. *)

Class FloatArith : Type := {
  rnd : R -> R;
  flog2 : R -> R;
  rnd_monotone : forall x y : R, (x <= y)%R -> (rnd x <= rnd y)%R;
  rnd_idempotent : forall x : R, rnd (rnd x) = rnd x;
  rnd_integer : forall n : Z, Z.abs n <= 2 ^ 53 -> rnd (IZR n) = IZR n
}.

(** Arithmetic without rounding error. *)
#[refine] Instance exact_arith : FloatArith := {
  rnd := fun x => x;
  flog2 := fun x => (ln x / ln 2)%R
}.
Proof.
  - intros x y H; exact H.
  - reflexivity.
  - reflexivity.
Defined.

Section FloatOps.
Context {FA : FloatArith}.

Definition fadd (x y : R) : R := rnd (x + y).
Definition fsub (x y : R) : R := rnd (x - y).
Definition fmul (x y : R) : R := rnd (x * y).
Definition fdiv (x y : R) : R := rnd (x / y).
End FloatOps.

(** The values a [double] variable can hold.  A zero and a NaN are held
    without their sign: what is stated below about the text printed for a
    value that was read back is stated for values that are not negative. *)
Inductive double : Type :=
| Fin (x : R)
| Inf (negative : bool)
| NaN.

(** *** [operator<<] with [fixed << setprecision(2)] *)

(** The integer nearest to [x], ties to even (the rounding of the C library
    when it prints the exact value of a [double]). *)
Definition round_half_even (x : R) : Z :=
  let f := Int_part x in
  let d := (x - IZR f)%R in
  if Rlt_dec d (1 / 2) then f
  else if Rlt_dec (1 / 2) d then f + 1
  else if Z.even f then f else f + 1.

(** The hundredths of [|x|]. *)
Definition hundredths (x : R) : Z := round_half_even (Rabs x * 100).

Definition two_digits (n : Z) : string :=
  String (digit_char (n / 10)) (String (digit_char (n mod 10)) EmptyString).

Definition fmt_fixed2 (d : double) : string :=
  match d with
  | Fin x =>
      let n := hundredths x in
      (if Rlt_dec x 0 then "-" else EmptyString)
        ++ to_digits (n / 100) ++ "." ++ two_digits (n mod 100)
  | Inf true => "-inf"
  | Inf false => "inf"
  | NaN => "nan"
  end.

(** *** [std::stod] *)

Fixpoint prefix_nocase (p s : string) : bool :=
  match p, s with
  | EmptyString, _ => true
  | String a p', String b s' => Ascii.eqb a (tolower b) && prefix_nocase p' s'
  | String _ _, EmptyString => false
  end.

(** [m * base ^ e] for an integer mantissa and exponent. *)
Definition scale (base m e : Z) : R :=
  if 0 <=? e then IZR (m * base ^ e) else (IZR m / IZR (base ^ (- e)))%R.

(** An exponent part introduced by [mark] ([e] or [p], either case): a sign
    and at least one decimal digit, otherwise nothing is read. *)
Definition scan_exponent (mark : ascii) (s : string) : Z :=
  match s with
  | String c t =>
      if Ascii.eqb (tolower c) mark then
        let '(neg, t') := scan_sign t in
        match scan_digits digit_val 10 0 0 t' with
        | (_, O, _) => 0
        | (v, _, _) => if neg then - v else v
        end
      else 0
  | EmptyString => 0
  end.

(** A significand in the given base: digits with an optional radix point.
    Returns the digits read as one integer, how many stood before and after
    the point, and the text left. *)
Definition scan_significand (dv : ascii -> option Z) (base : Z) (s : string)
    : Z * nat * nat * string :=
  let '(ip, ni, s2) := scan_digits dv base 0 0 s in
  match s2 with
  | String "." t =>
      let '(m, nf, s3) := scan_digits dv base ip 0 t in (m, ni, nf, s3)
  | _ => (ip, ni, O, s2)
  end.

Section Stod.
Context {FA : FloatArith}.

Definition signed (neg : bool) (m : Z) : Z := if neg then - m else m.

(** The decimal form of [strtod]'s subject sequence. *)
Definition strtod_decimal (neg : bool) (s : string) : option double :=
  let '(m, ni, nf, s3) := scan_significand digit_val 10 s in
  match (ni + nf)%nat with
  | O => None
  | _ => Some (Fin (rnd (scale 10 (signed neg m)
                               (scan_exponent "e" s3 - Z.of_nat nf))))
  end.

(** The hexadecimal form, after the [0x] prefix; [None] when no hexadecimal
    digit follows, in which case only the [0] of the prefix is converted. *)
Definition strtod_hex (neg : bool) (s : string) : option double :=
  let '(m, ni, nf, s3) := scan_significand hex_digit_val 16 s in
  match (ni + nf)%nat with
  | O => None
  | _ => Some (Fin (rnd (scale 2 (signed neg m)
                               (scan_exponent "p" s3 - 4 * Z.of_nat nf))))
  end.

(** [std::stod(item)]: [None] stands for a thrown [invalid_argument].  The
    [out_of_range] that [std::stod] throws for a text beyond the range of a
    [double], such as 1e999, is not represented: [fixed << setprecision(2)]
    writes no such text. *)
Definition stod (s : string) : option double :=
  let '(neg, s1) := scan_sign (skip_while isspace s) in
  if prefix_nocase "inf" s1 then Some (Inf neg)
  else if prefix_nocase "nan" s1 then Some NaN
  else if prefix_nocase "0x" s1 then
    match strtod_hex neg (substring 2 (length s1 - 2) s1) with
    | Some d => Some d
    | None => Some (Fin (rnd (IZR (signed neg 0))))
    end
  else strtod_decimal neg s1.
End Stod.


(** ** Console, file and process effects *)

Record World : Type := mkWorld {
  w_stdin : list string;    (* the lines [getline(cin, _)] has still to deliver *)
  w_stdout : string;        (* what was written to [cout] *)
  w_stderr : string;        (* what was written to [cerr] *)
  w_file : option string;   (* the content of leaderboard.csv, [None] when missing *)
  w_writable : bool         (* whether opening it for appending succeeds *)
}.

(** How a computation ends: [Done] with a value, [Exit] through [exit(0)],
    [Terminate] through an exception nobody catches; [OutOfFuel] is the
    model's own, a loop bound that ran out. *)
Inductive Run (A : Type) : Type :=
| Done (a : A) (w : World)
| Exit (w : World)
| Terminate (w : World)
| OutOfFuel.

Arguments Done {A} a w.
Arguments Exit {A} w.
Arguments Terminate {A} w.
Arguments OutOfFuel {A}.

Definition IO (A : Type) : Type := World -> Run A.

Definition ret {A} (a : A) : IO A := fun w => Done a w.

Definition bind {A B} (m : IO A) (k : A -> IO B) : IO B :=
  fun w =>
    match m w with
    | Done a w' => k a w'
    | Exit w' => Exit w'
    | Terminate w' => Terminate w'
    | OutOfFuel => OutOfFuel
    end.

Notation "x <- m ;; k" := (bind m (fun x => k))
  (at level 61, m at next level, right associativity).
Notation "m ;; k" := (bind m (fun _ => k))
  (at level 61, right associativity).

(** The world after [s] was written to [cout]. *)
Definition say (w : World) (s : string) : World :=
  mkWorld (w_stdin w) (w_stdout w ++ s) (w_stderr w) (w_file w) (w_writable w).

Definition cout (s : string) : IO unit := fun w => Done tt (say w s).

Definition cerr (s : string) : IO unit :=
  fun w => Done tt (mkWorld (w_stdin w) (w_stdout w) (w_stderr w ++ s)
                            (w_file w) (w_writable w)).

(** [getline(cin, line)]: [None] when the stream fails (end of input). *)
Definition getline_cin : IO (option string) :=
  fun w =>
    match w_stdin w with
    | [] => Done None w
    | line :: rest =>
        Done (Some line) (mkWorld rest (w_stdout w) (w_stderr w)
                                  (w_file w) (w_writable w))
    end.

Definition exit {A} : IO A := fun w => Exit w.
Definition throw {A} : IO A := fun w => Terminate w.
Definition out_of_fuel {A} : IO A := fun _ => OutOfFuel.

(** ** Utility helpers *)

Definition safe_getline : IO string :=
  l <- getline_cin ;;
  ret (match l with Some s => s | None => EmptyString end).

(** One turn of [prompt_int]'s [while (true)] per unit of fuel. *)
Fixpoint prompt_int_loop (fuel : nat) (prompt : string)
    (minAllowed maxAllowed : Z) : IO Z :=
  match fuel with
  | O => out_of_fuel
  | S fuel' =>
      cout prompt ;;
      l <- getline_cin ;;
      match l with
      | None => cout (nl ++ "Input error. Exiting." ++ nl) ;; exit
      | Some line =>
          match trim_blank line with
          | None =>
              cout ("Please enter a value." ++ nl) ;;
              prompt_int_loop fuel' prompt minAllowed maxAllowed
          | Some trimmed =>
              match stoll_whole trimmed with
              | Some val =>
                  if (val <? minAllowed) || (val >? maxAllowed) then
                    cout ("Enter a number between " ++ to_string minAllowed
                            ++ " and " ++ to_string maxAllowed ++ "." ++ nl) ;;
                    prompt_int_loop fuel' prompt minAllowed maxAllowed
                  else ret val
              | None =>
                  cout ("Invalid input. Please enter an integer." ++ nl) ;;
                  prompt_int_loop fuel' prompt minAllowed maxAllowed
              end
          end
      end
  end.

(** Every turn reads a line, so one turn more than there are lines is
    enough. *)
Definition prompt_int (prompt : string) (minAllowed maxAllowed : Z) : IO Z :=
  fun w => prompt_int_loop (S (List.length (w_stdin w))) prompt
                           minAllowed maxAllowed w.

Fixpoint prompt_yesno_loop (fuel : nat) (prompt : string) : IO bool :=
  match fuel with
  | O => out_of_fuel
  | S fuel' =>
      cout (prompt ++ " (y/n): ") ;;
      l <- getline_cin ;;
      match l with
      | None => exit
      | Some line =>
          match skip_while is_blank line with
          | EmptyString => prompt_yesno_loop fuel' prompt
          | String c0 _ =>
              let c := tolower c0 in
              if Ascii.eqb c "y" then ret true
              else if Ascii.eqb c "n" then ret false
              else cout ("Please reply with 'y' or 'n'." ++ nl) ;;
                   prompt_yesno_loop fuel' prompt
          end
      end
  end.

Definition prompt_yesno (prompt : string) : IO bool :=
  fun w => prompt_yesno_loop (S (List.length (w_stdin w))) prompt w.

(** ** Data *)

Record GameConfig : Type := mkGameConfig {
  difficultyName : string;
  minValue : Z;
  maxValue : Z;
  maxAttempts : Z      (* 0 means unlimited *)
}.

Record Result : Type := mkResult {
  playerName : string;
  difficulty : string;
  attempts : Z;
  elapsedSeconds : double;
  secretNumber : Z;
  score : double;
  timestamp : string
}.

(** ** Leaderboard persistence *)

(** The text [operator<<] writes for one record. *)
Definition csv_line (r : Result) : string :=
  quote ++ timestamp r ++ quote ++ ","
    ++ quote ++ playerName r ++ quote ++ ","
    ++ quote ++ difficulty r ++ quote ++ ","
    ++ to_string (attempts r) ++ ","
    ++ fmt_fixed2 (elapsedSeconds r) ++ ","
    ++ to_string (secretNumber r) ++ ","
    ++ fmt_fixed2 (score r) ++ nl.

(** [ofstream ofs(LEADERBOARD_FILE, ios::app)] creates a missing file. *)
Definition append_to_leaderboard (r : Result) : IO unit :=
  fun w =>
    if w_writable w then
      let old := match w_file w with Some c => c | None => EmptyString end in
      Done tt (mkWorld (w_stdin w) (w_stdout w) (w_stderr w)
                       (Some (old ++ csv_line r)) (w_writable w))
    else cerr ("Warning: could not write leaderboard file." ++ nl) w.

(** The characters of a stream up to the delimiter, which is read and
    dropped, and the characters after it. *)
Fixpoint take_until (delim : ascii) (s : string) : string * string :=
  match s with
  | EmptyString => (EmptyString, EmptyString)
  | String c t =>
      if Ascii.eqb c delim then (EmptyString, t)
      else let '(item, rest) := take_until delim t in (String c item, rest)
  end.

(** [getline(stream, item, delim)] on a stream holding [s]: it fails ([None])
    when nothing, not even a delimiter, can be read. *)
Definition getline (delim : ascii) (s : string) : option (string * string) :=
  match s with
  | EmptyString => None
  | _ => Some (take_until delim s)
  end.

(** An item of at least two characters that starts with a double quote
    loses its first and its last character:
    [item = item.substr(1, item.size()-2)]. *)
Definition strip_quotes (item : string) : string :=
  match item with
  | String c _ =>
      if (2 <=? length item)%nat && Ascii.eqb c ch_quote
      then substring 1 (length item - 2) item
      else item
  | EmptyString => item
  end.

(** What the body of the read loop does with one line: a record is pushed,
    the line is given up ([continue]), or [stoi]/[stod] throws. *)
Inductive Parse (A : Type) : Type :=
| Parsed (a : A)
| Skipped
| Thrown.

Arguments Parsed {A} a.
Arguments Skipped {A}.
Arguments Thrown {A}.

Definition parse_bind {A B} (p : Parse A) (k : A -> Parse B) : Parse B :=
  match p with
  | Parsed a => k a
  | Skipped => Skipped
  | Thrown => Thrown
  end.

(** [if (!getline(ss, item, ',')) continue;] *)
Definition next_item (ss : string) : Parse (string * string) :=
  match getline ch_comma ss with
  | Some p => Parsed p
  | None => Skipped
  end.

Definition or_throw {A} (o : option A) : Parse A :=
  match o with
  | Some a => Parsed a
  | None => Thrown
  end.

Notation "' p <~ m ;; k" := (parse_bind m (fun x => let 'p := x in k))
  (at level 61, p pattern, m at next level, right associativity).

Section Program.
Context {FA : FloatArith}.

Definition parse_line (line : string) : Parse Result :=
  '(item, ss) <~ next_item line ;;
  let r_timestamp := strip_quotes item in
  '(item, ss) <~ next_item ss ;;
  let r_playerName := strip_quotes item in
  '(item, ss) <~ next_item ss ;;
  let r_difficulty := strip_quotes item in
  '(item, ss) <~ next_item ss ;;
  'r_attempts <~ or_throw (stoi item) ;;
  '(item, ss) <~ next_item ss ;;
  'r_elapsedSeconds <~ or_throw (stod item) ;;
  '(item, ss) <~ next_item ss ;;
  'r_secretNumber <~ or_throw (stoi item) ;;
  '(item, ss) <~ next_item ss ;;
  'r_score <~ or_throw (stod item) ;;
  Parsed (mkResult r_playerName r_difficulty r_attempts r_elapsedSeconds
                   r_secretNumber r_score r_timestamp).

(** The [while (getline(ifs, line))] loop, one line per unit of fuel. *)
Fixpoint read_leaderboard_loop (fuel : nat) (limit : Z) (ifs : string)
    (out : list Result) : IO (list Result) :=
  match fuel with
  | O => out_of_fuel
  | S fuel' =>
      match getline ch_nl ifs with
      | None => ret out
      | Some (line, ifs') =>
          match line with
          | EmptyString => read_leaderboard_loop fuel' limit ifs' out
          | _ =>
              match parse_line line with
              | Skipped => read_leaderboard_loop fuel' limit ifs' out
              | Thrown => throw
              | Parsed r =>
                  let out' := (out ++ [r])%list in
                  if Z.of_nat (List.length out') >=? limit then ret out'
                  else read_leaderboard_loop fuel' limit ifs' out'
              end
          end
      end
  end.

(** Every line read takes at least one character off the stream. *)
Definition read_leaderboard (limit : Z) : IO (list Result) :=
  fun w =>
    match w_file w with
    | None => ret [] w
    | Some content =>
        read_leaderboard_loop (S (length content)) limit content [] w
    end.

(** ** Game logic *)

(** Score formula. *)
Definition compute_score (attempts : Z) (secondsElapsed : R)
    (cfg : GameConfig) : R :=
  let rangeSize := IZR (maxValue cfg - minValue cfg + 1) in
  let base := fdiv 1000 (flog2 (fadd rangeSize 1)) in
  let attemptPenalty := fmul 20 (IZR (attempts - 1)) in
  let timePenalty := fdiv secondsElapsed 2 in
  let score := fsub (fsub base attemptPenalty) timePenalty in
  let score :=
    if maxAttempts cfg >? 0 then
      let frac := fdiv (IZR attempts) (IZR (maxAttempts cfg)) in
      fmul score (fadd 1 (Rmax 0 (fsub (1 / 2) frac)))
    else score in
  if Rlt_dec score 0 then 0%R else score.

Definition cfg_easy : GameConfig := mkGameConfig "Easy" 1 20 0.
Definition cfg_medium : GameConfig := mkGameConfig "Medium" 1 100 10.
Definition cfg_hard : GameConfig := mkGameConfig "Hard" 1 1000 12.

Definition choose_difficulty : IO GameConfig :=
  cout ("Choose difficulty:" ++ nl) ;;
  cout ("  1) Easy   (1 - 20, unlimited attempts)" ++ nl) ;;
  cout ("  2) Medium (1 - 100, 10 attempts)" ++ nl) ;;
  cout ("  3) Hard   (1 - 1000, 12 attempts)" ++ nl) ;;
  cout ("  4) Custom" ++ nl) ;;
  choice <- prompt_int "Enter choice [1-4]: " 1 4 ;;
  cfg <- match choice with
         | 1 => ret cfg_easy
         | 2 => ret cfg_medium
         | 3 => ret cfg_hard
         | _ =>
             cout "Enter minimum value: " ;;
             lo <- prompt_int EmptyString (-1000000) 1000000 ;;
             cout "Enter maximum value: " ;;
             hi <- prompt_int EmptyString (lo + 1) 1000000 ;;
             limited <- prompt_yesno
                          "Would you like to set a maximum attempts limit?" ;;
             if limited : bool then
               n <- prompt_int "Enter maximum attempts (>=1): " 1 1000000 ;;
               ret (mkGameConfig "Custom" lo hi n)
             else ret (mkGameConfig "Custom" lo hi 0)
         end ;;
  cout ("You selected: " ++ difficultyName cfg ++ " ("
          ++ to_string (minValue cfg) ++ " - " ++ to_string (maxValue cfg)
          ++ ")") ;;
  (if maxAttempts cfg >? 0
   then cout (", max attempts = " ++ to_string (maxAttempts cfg))
   else ret tt) ;;
  cout nl ;;
  ret cfg.

(** The local variables of the guess loop. *)
Record Locals : Type := mkLocals {
  tried : Z;        (* [attempts] *)
  lowHint : Z;
  highHint : Z
}.

(** The [break] that leaves the guess loop. *)
Inductive Ending : Type := Correct | GaveUp | AttemptsExhausted.

(** What the session takes from outside: the number [random_int] draws, the
    time the steady clock measures over the loop, and the wall-clock time
    [now_iso8601] formats. *)
Record Session : Type := mkSession {
  drawn : Z;
  elapsed : R;
  now_iso8601 : string
}.

Definition msg_gave_up (secret : Z) : string :=
  "You gave up. The number was " ++ to_string secret ++ "." ++ nl.

Definition msg_correct (attempts : Z) : string :=
  "Congratulations! You guessed correctly in " ++ to_string attempts
    ++ " attempts." ++ nl.

Definition msg_exhausted (cfg : GameConfig) (secret : Z) : string :=
  "Reached maximum attempts (" ++ to_string (maxAttempts cfg)
    ++ "). You lose. The number was " ++ to_string secret ++ "." ++ nl.

(** The body of the guess loop once [guess] is read: the locals afterwards
    and the [break] taken, if any. *)
Definition guess_turn (cfg : GameConfig) (secret : Z) (st : Locals)
    (guess : Z) : IO (Locals * option Ending) :=
  if guess =? 0 then
    cout (msg_gave_up secret) ;;
    ret (st, Some GaveUp)
  else
    let attempts := tried st + 1 in
    if guess =? secret then
      cout (msg_correct attempts) ;;
      ret (mkLocals attempts (lowHint st) (highHint st), Some Correct)
    else
      st' <- (if guess >? secret then
                cout ("Too high." ++ nl) ;;
                ret (mkLocals attempts (lowHint st)
                       (if guess - 1 <? highHint st then guess - 1
                        else highHint st))
              else
                cout ("Too low." ++ nl) ;;
                ret (mkLocals attempts
                       (if guess + 1 >? lowHint st then guess + 1
                        else lowHint st)
                       (highHint st))) ;;
      if (maxAttempts cfg >? 0) && (attempts >=? maxAttempts cfg) then
        cout (msg_exhausted cfg secret) ;;
        ret (st', Some AttemptsExhausted)
      else ret (st', None).

(** The head of the guess loop: the range is shown and a guess is read. *)
Definition ask_guess (st : Locals) : IO Z :=
  cout ("Allowed range: [" ++ to_string (lowHint st) ++ " - "
          ++ to_string (highHint st) ++ "] ") ;;
  prompt_int "Enter guess (or 0 to give up): " INT_MIN INT_MAX.

(** The guess loop, one turn per unit of fuel. *)
Fixpoint guess_loop (fuel : nat) (cfg : GameConfig) (secret : Z)
    (st : Locals) : IO (Ending * Locals) :=
  match fuel with
  | O => out_of_fuel
  | S fuel' =>
      guess <- ask_guess st ;;
      r <- guess_turn cfg secret st guess ;;
      match r with
      | (st', Some e) => ret (e, st')
      | (st', None) => guess_loop fuel' cfg secret st'
      end
  end.

(** Every turn reads at least one line. *)
Definition guesses (cfg : GameConfig) (secret : Z) (st : Locals)
    : IO (Ending * Locals) :=
  fun w => guess_loop (S (List.length (w_stdin w))) cfg secret st w.

Definition initial (cfg : GameConfig) : Locals :=
  mkLocals 0 (minValue cfg) (maxValue cfg).

(** [play_game] up to the end of the guess loop. *)
Definition guess_phase (cfg : GameConfig) (secret : Z)
    : IO (Ending * Locals) :=
  cout (nl ++ "I have selected a number between " ++ to_string (minValue cfg)
          ++ " and " ++ to_string (maxValue cfg) ++ "." ++ nl) ;;
  (if maxAttempts cfg >? 0
   then cout ("You have up to " ++ to_string (maxAttempts cfg)
                ++ " attempts." ++ nl)
   else ret tt) ;;
  cout ("Type your guess and press Enter." ++ nl) ;;
  guesses cfg secret (initial cfg).

(** The [Result] assembled from the name line read after the loop. *)
Definition make_result (cfg : GameConfig) (env : Session) (attempts : Z)
    (line : string) : Result :=
  let name := match line with
              | EmptyString => "Anonymous"
              | _ => line
              end in
  mkResult name
    (difficultyName cfg ++ " (" ++ to_string (minValue cfg) ++ "-"
       ++ to_string (maxValue cfg) ++ ")")
    attempts (Fin (elapsed env)) (drawn env)
    (Fin (compute_score (Z.max 1 attempts) (elapsed env) cfg))
    (now_iso8601 env).

Definition play_game (cfg : GameConfig) (env : Session) : IO Result :=
  r <- guess_phase cfg (drawn env) ;;
  cout (nl ++ "Enter your name for the leaderboard (leave blank to skip): ") ;;
  line <- safe_getline ;;
  let res := make_result cfg env (tried (snd r)) line in
  (if String.eqb (playerName res) "Anonymous" then ret tt
   else append_to_leaderboard res) ;;
  ret res.

(** ** Notions used by the properties *)

(** [later cfg secret st w st' w']: the guess loop, at its head with locals
    [st] in world [w], is at its head again after some turns (none, one or
    more), with locals [st'] in world [w']. *)
Inductive later (cfg : GameConfig) (secret : Z)
    : Locals -> World -> Locals -> World -> Prop :=
| later_now st w : later cfg secret st w st w
| later_turn st w guess w1 st1 w2 st' w' :
    ask_guess st w = Done guess w1 ->
    guess_turn cfg secret st guess w1 = Done (st1, None) w2 ->
    later cfg secret st1 w2 st' w' ->
    later cfg secret st w st' w'.

(** The formula of the specification:
    [base = 1000 / log2(maxValue - minValue + 2)],
    [score = base - 20*(attempts-1) - elapsedSeconds/2], multiplied by
    [1 + max(0, 0.5 - attempts/maxAttempts)] when [maxAttempts > 0], then
    [max(0, score)]. *)
Definition score_formula (attempts : Z) (elapsedSeconds : R)
    (cfg : GameConfig) : R :=
  let base := fdiv 1000 (flog2 (IZR (maxValue cfg - minValue cfg + 2))) in
  let score :=
    fsub (fsub base (fmul 20 (IZR (attempts - 1)))) (fdiv elapsedSeconds 2) in
  let score :=
    if maxAttempts cfg >? 0 then
      fmul score
        (fadd 1 (Rmax 0 (fsub (1 / 2)
                           (fdiv (IZR attempts) (IZR (maxAttempts cfg))))))
    else score in
  Rmax 0 score.

(** What a [double] becomes when it is written with two decimals and read
    back. *)
Definition to_2dp (d : double) : double :=
  match d with
  | Fin x =>
      Fin (rnd (IZR (signed (if Rlt_dec x 0 then true else false)
                            (hundredths x)) / 100))
  | _ => d
  end.

(** A record as it is read back after having been written. *)
Definition reread (r : Result) : Result :=
  mkResult (playerName r) (difficulty r) (attempts r)
           (to_2dp (elapsedSeconds r)) (secretNumber r) (to_2dp (score r))
           (timestamp r).

(** [if (score < 0) score = 0]. *)
Definition clamp (x : R) : R := if Rlt_dec x 0 then 0%R else x.

(** The score before the bonus and the clamp. *)
Definition raw_score (base : R) (attempts : Z) (t : R) : R :=
  fsub (fsub base (fmul 20 (IZR (attempts - 1)))) (fdiv t 2).

(** The factor applied when the attempts are limited. *)
Definition bonus (attempts maxAtt : Z) : R :=
  fadd 1 (Rmax 0 (fsub (1 / 2) (fdiv (IZR attempts) (IZR maxAtt)))).

End Program.

(** [s] has neither a comma nor a line feed. *)
Definition plain (s : string) : bool :=
  string_forall (fun c => negb (Ascii.eqb c ch_comma)
                            && negb (Ascii.eqb c ch_nl)) s.

Definition is_int (z : Z) : Prop := INT_MIN <= z <= INT_MAX.

Definition console (inp : list string) (file : option string) : World :=
  mkWorld inp EmptyString EmptyString file true.

(** What a prompt leaves untouched, and that it reads at least one line. *)
Definition consumes (w w' : World) : Prop :=
  (List.length (w_stdin w') < List.length (w_stdin w))%nat
  /\ w_file w' = w_file w /\ w_writable w' = w_writable w.


(** The world in which the name line has been read. *)
Definition name_read (w1 : World) : World :=
  mkWorld (tl (w_stdin w1))
    (w_stdout w1 ++ nl
       ++ "Enter your name for the leaderboard (leave blank to skip): ")
    (w_stderr w1) (w_file w1) (w_writable w1).

(** A line in which the attempts are not a number. *)
Definition line_with_bad_attempts : string :=
  quote ++ "2024-01-01 10:00:00" ++ quote ++ ","
    ++ quote ++ "bob" ++ quote ++ ","
    ++ quote ++ "Easy (1-20)" ++ quote ++ ",abc,1.00,5,10.00" ++ nl.

Definition is_digit (c : ascii) : bool :=
  match digit_val c with Some _ => true | None => false end.

(** [s] does not contain the character [d]. *)
Definition lacks (d : ascii) (s : string) : bool :=
  string_forall (fun c => negb (Ascii.eqb c d)) s.

(** A quoted text. *)
Definition quoted (s : string) : string := quote ++ s ++ quote.

(** The digits [fixed << setprecision(2)] writes for [n] hundredths. *)
Definition fixed_text (n : Z) : string :=
  to_digits (n / 100) ++ "." ++ two_digits (n mod 100).

Definition sign_text (neg : bool) : string :=
  if neg then "-" else EmptyString.

(** The line of a record without its line feed. *)
Definition csv_body (r : Result) : string :=
  quoted (timestamp r) ++ ","
    ++ quoted (playerName r) ++ ","
    ++ quoted (difficulty r) ++ ","
    ++ to_string (attempts r) ++ ","
    ++ fmt_fixed2 (elapsedSeconds r) ++ ","
    ++ to_string (secretNumber r) ++ ","
    ++ fmt_fixed2 (score r).

(** The text fields of a record have neither a comma nor a line feed, and
    its numbers are [int] values. *)
Definition storable (r : Result) : Prop :=
  plain (timestamp r) = true /\ plain (playerName r) = true
  /\ plain (difficulty r) = true
  /\ is_int (attempts r) /\ is_int (secretNumber r).

(** The world in which the leaderboard file holds [content]. *)
Definition with_file (w : World) (content : string) : World :=
  mkWorld (w_stdin w) (w_stdout w) (w_stderr w) (Some content) (w_writable w).

(** A leaderboard that already holds a game of alice, and a game of bob. *)
Definition alice_line : string :=
  quoted "2024-01-01 10:00:00" ++ "," ++ quoted "alice" ++ ","
    ++ quoted "Easy (1-20)" ++ ",3,1.50,7,109.50" ++ nl.

Definition bob_game : Result :=
  mkResult "bob" "Easy (1-20)" 2 (Fin 4) 9 (Fin 120) "2024-01-02 11:00:00".

(** A game whose player typed a name with a comma in it. *)
Definition comma_name_game (e sc : double) : Result :=
  mkResult "Smith, John" "Easy (1-20)" 3 e 7 sc "2024-01-01 10:00:00".

(** ** The leaderboard table and the session loop *)

(** The tenths of [|x|]. *)
Definition tenths (x : R) : Z := round_half_even (Rabs x * 10).

(** [operator<<] with [fixed << setprecision(1)]. *)
Definition fmt_fixed1 (d : double) : string :=
  match d with
  | Fin x =>
      let n := tenths x in
      (if Rlt_dec x 0 then "-" else EmptyString)
        ++ to_digits (n / 10) ++ "."
        ++ String (digit_char (n mod 10)) EmptyString
  | Inf true => "-inf"
  | Inf false => "inf"
  | NaN => "nan"
  end.

(** [string(n, c)]. *)
Fixpoint repeat_char (n : nat) (c : ascii) : string :=
  match n with
  | O => EmptyString
  | S n' => String c (repeat_char n' c)
  end.

(** [left << setw(n) << s]: [s], then blanks up to the width [n]; a longer
    text is written whole. *)
Definition setw_left (n : nat) (s : string) : string :=
  s ++ repeat_char (n - length s) " ".

Definition table_header : string :=
  setw_left 20 "Time" ++ setw_left 15 "Player" ++ setw_left 12 "Diff"
    ++ setw_left 10 "Att" ++ setw_left 10 "Sec" ++ setw_left 10 "Score" ++ nl.

Definition table_row (e : Result) : string :=
  setw_left 20 (timestamp e) ++ setw_left 15 (playerName e)
    ++ setw_left 12 (difficulty e) ++ setw_left 10 (to_string (attempts e))
    ++ setw_left 10 (fmt_fixed1 (elapsedSeconds e))
    ++ setw_left 10 (fmt_fixed2 (score e)) ++ nl.

(** The [for (auto &e : entries)] loop. *)
Fixpoint show_rows (entries : list Result) : IO unit :=
  match entries with
  | [] => ret tt
  | e :: rest => cout (table_row e) ;; show_rows rest
  end.

Section SessionLoop.
Context {FA : FloatArith}.

Definition show_leaderboard (n : Z) : IO unit :=
  entries <- read_leaderboard n ;;
  match entries with
  | [] => cout ("No leaderboard entries yet." ++ nl)
  | _ =>
      cout (nl ++ "Top " ++ to_string (Z.of_nat (List.length entries))
              ++ " recent games:" ++ nl) ;;
      cout table_header ;;
      cout (repeat_char 80 "-" ++ nl) ;;
      show_rows entries ;;
      cout nl
  end.

(** The summary [main] prints after a game. *)
Definition game_summary (r : Result) : IO unit :=
  cout (nl ++ "Game summary:" ++ nl) ;;
  cout (" Player: " ++ playerName r ++ nl) ;;
  cout (" Difficulty: " ++ difficulty r ++ nl) ;;
  cout (" Attempts: " ++ to_string (attempts r) ++ nl) ;;
  cout (" Time: " ++ fmt_fixed1 (elapsedSeconds r) ++ " seconds" ++ nl) ;;
  cout (" Score: " ++ fmt_fixed2 (score r) ++ nl).

(** The [while (true)] of [main], one game per unit of fuel; [envs] gives
    what the environment delivers to the game of each round. *)
Fixpoint session_loop (fuel : nat) (envs : nat -> GameConfig -> Session)
    (round : nat) : IO unit :=
  match fuel with
  | O => out_of_fuel
  | S fuel' =>
      cfg <- choose_difficulty ;;
      r <- play_game cfg (envs round cfg) ;;
      game_summary r ;;
      view <- prompt_yesno "Would you like to view the recent leaderboard?" ;;
      (if view : bool then show_leaderboard 10 else ret tt) ;;
      again <- prompt_yesno "Play again?" ;;
      if again : bool then cout nl ;; session_loop fuel' envs (S round)
      else ret tt
  end.

(** Every game reads at least one line. *)
Definition sessions (envs : nat -> GameConfig -> Session) : IO unit :=
  fun w => session_loop (S (List.length (w_stdin w))) envs O w.

Definition main (envs : nat -> GameConfig -> Session) : IO Z :=
  cout ("=== Advanced Number Guessing Game ===" ++ nl) ;;
  cout ("(Type CTRL+D or CTRL+Z to exit any time)" ++ nl ++ nl) ;;
  sessions envs ;;
  cout ("Thanks for playing! Goodbye." ++ nl) ;;
  ret 0.
End SessionLoop.

(** [w'] comes after [w]: input was only read and output only written, the
    leaderboard file only grew, and it is as it was when it cannot be
    written. *)
Definition follows (w w' : World) : Prop :=
  (exists read, w_stdin w = (read ++ w_stdin w')%list)
  /\ (exists out, w_stdout w' = w_stdout w ++ out)
  /\ (exists err, w_stderr w' = w_stderr w ++ err)
  /\ w_writable w' = w_writable w
  /\ (w_writable w = false -> w_file w' = w_file w)
  /\ (forall c, w_file w = Some c -> exists t, w_file w' = Some (c ++ t)).

(** A run from [w] that ends in a world after [w]: with a value, by
    [exit(0)] once the input is at its end, or by an exception while a
    leaderboard file is there; the fuel was enough. *)
Definition proper {A} (r : Run A) (w : World) : Prop :=
  match r with
  | Done _ w' => follows w w'
  | Exit w' => follows w w' /\ w_stdin w' = []
  | Terminate w' => follows w w' /\ w_file w' <> None
  | OutOfFuel => False
  end.

(** The world once the first line of the input was read and [out] was
    written to [cout]. *)
Definition after_line (w : World) (out : string) : World :=
  mkWorld (tl (w_stdin w)) (w_stdout w ++ out) (w_stderr w) (w_file w)
          (w_writable w).

(** [s] holds none of the blanks [" \t\r\n"]. *)
Definition solid (s : string) : bool :=
  string_forall (fun c => negb (is_blank c)) s.

(** [w'] differs from [w] on the console only: the leaderboard file and
    [cerr] are as they were. *)
Definition quiet (w w' : World) : Prop :=
  w_file w' = w_file w /\ w_writable w' = w_writable w
  /\ w_stderr w' = w_stderr w.

(** A run that touched the console only, however it ended. *)
Definition console_only {A} (r : Run A) (w : World) : Prop :=
  match r with
  | Done _ w' | Exit w' | Terminate w' => quiet w w'
  | OutOfFuel => True
  end.

(** The body of [case 4: default:] in [choose_difficulty]. *)
Definition custom_config : IO GameConfig :=
  cout "Enter minimum value: " ;;
  lo <- prompt_int EmptyString (-1000000) 1000000 ;;
  cout "Enter maximum value: " ;;
  hi <- prompt_int EmptyString (lo + 1) 1000000 ;;
  limited <- prompt_yesno "Would you like to set a maximum attempts limit?" ;;
  if limited : bool then
    n <- prompt_int "Enter maximum attempts (>=1): " 1 1000000 ;;
    ret (mkGameConfig "Custom" lo hi n)
  else ret (mkGameConfig "Custom" lo hi 0).

(** The configurations [choose_difficulty] can build. *)
Definition selectable (cfg : GameConfig) : Prop :=
  (cfg = cfg_easy \/ cfg = cfg_medium \/ cfg = cfg_hard
   \/ difficultyName cfg = "Custom")
  /\ -1000000 <= minValue cfg /\ minValue cfg < maxValue cfg
  /\ maxValue cfg <= 1000000 /\ 0 <= maxAttempts cfg <= 1000000.

(** The content of a leaderboard file to which the records [rs] were
    appended, the oldest first. *)
Fixpoint csv_file (rs : list Result) : string :=
  match rs with
  | [] => EmptyString
  | r :: rs' => csv_line r ++ csv_file rs'
  end.

(** How often a character occurs in a text. *)
Fixpoint count_char (c : ascii) (s : string) : nat :=
  match s with
  | EmptyString => O
  | String x t => ((if Ascii.eqb x c then 1 else 0) + count_char c t)%nat
  end.

(** What [show_leaderboard] writes for the entries it has read. *)
Fixpoint table_rows (entries : list Result) : string :=
  match entries with
  | [] => EmptyString
  | e :: rest => table_row e ++ table_rows rest
  end.

Definition table (entries : list Result) : string :=
  match entries with
  | [] => "No leaderboard entries yet." ++ nl
  | _ =>
      nl ++ "Top " ++ to_string (Z.of_nat (List.length entries))
        ++ " recent games:" ++ nl
        ++ table_header ++ repeat_char 80 "-" ++ nl
        ++ table_rows entries ++ nl
  end.

(** The text of a file made of the lines [ls], each ended by a line
    feed. *)
Fixpoint lines_text (ls : list string) : string :=
  match ls with
  | [] => EmptyString
  | l :: ls' => l ++ nl ++ lines_text ls'
  end.

(** The leaderboard reads from the content [c1] as it does from the content
    [c2]: the same records are returned, or the read ends in an exception
    in both. *)
Definition reads_alike {FA : FloatArith} (limit : Z) (w : World)
    (c1 c2 : string) : Prop :=
  (forall l,
      read_leaderboard limit (with_file w c2) = Done l (with_file w c2) ->
      read_leaderboard limit (with_file w c1) = Done l (with_file w c1))
  /\ (read_leaderboard limit (with_file w c2) = Terminate (with_file w c2) ->
      read_leaderboard limit (with_file w c1) = Terminate (with_file w c1)).

(** A number that is not negative. *)
Definition not_negative (d : double) : Prop :=
  exists x, d = Fin x /\ (0 <= x)%R.

(** A record as a game writes it: text fields without a comma or a line
    feed, [int] numbers, and a time and a score that are not negative. *)
Definition game_record (r : Result) : Prop :=
  storable r /\ not_negative (elapsedSeconds r) /\ not_negative (score r).

(** * Properties *)

(** ** Input utilities *)

Lemma prompt_int_loop_spec (fuel : nat) (prompt : string) (lo hi : Z) :
  forall w, (List.length (w_stdin w) < fuel)%nat ->
  match prompt_int_loop fuel prompt lo hi w with
  | Done v w' => lo <= v <= hi /\ consumes w w'
  | Exit _ => True
  | Terminate _ => False
  | OutOfFuel => False
  end.
Proof.
  induction fuel as [|fuel IH]; intros w Hlen; [lia|].
  simpl. unfold bind, cout, getline_cin; simpl.
  destruct (w_stdin w) as [|line rest] eqn:Hin; simpl; [exact I|].
  simpl in Hlen.
  assert (Hrec : forall out,
    match prompt_int_loop fuel prompt lo hi
            (mkWorld rest out (w_stderr w) (w_file w) (w_writable w)) with
    | Done v w' => lo <= v <= hi /\ consumes w w'
    | Exit _ => True
    | Terminate _ => False
    | OutOfFuel => False
    end).
  { intro out.
    specialize (IH (mkWorld rest out (w_stderr w) (w_file w) (w_writable w))).
    simpl in IH. specialize (IH ltac:(lia)).
    destruct (prompt_int_loop fuel prompt lo hi _) as [v w'| | |]; auto.
    destruct IH as [Hv (Hl & Hf & Hw)]; simpl in *.
    split; [exact Hv|]. unfold consumes. rewrite Hin. simpl. repeat split; auto; lia. }
  destruct (trim_blank line) as [trimmed|]; [|apply Hrec].
  destruct (stoll_whole trimmed) as [val|]; [|apply Hrec].
  destruct ((val <? lo) || (val >? hi)) eqn:Hrange; [apply Hrec|].
  unfold ret. apply orb_false_elim in Hrange. destruct Hrange as [H1 H2].
  split; [lia|]. unfold consumes. rewrite Hin. simpl. repeat split; auto.
Qed.

(** [prompt_int] returns only values inside the allowed bounds, after having
    read at least one line; it never runs out of fuel and throws nothing. *)
Lemma prompt_int_spec (prompt : string) (lo hi : Z) (w : World) :
  match prompt_int prompt lo hi w with
  | Done v w' => lo <= v <= hi /\ consumes w w'
  | Exit _ => True
  | Terminate _ => False
  | OutOfFuel => False
  end.
Proof. unfold prompt_int. apply prompt_int_loop_spec. lia. Qed.

Lemma prompt_yesno_loop_spec (fuel : nat) (prompt : string) :
  forall w, (List.length (w_stdin w) < fuel)%nat ->
  match prompt_yesno_loop fuel prompt w with
  | Done _ w' => consumes w w'
  | Exit _ => True
  | Terminate _ => False
  | OutOfFuel => False
  end.
Proof.
  induction fuel as [|fuel IH]; intros w Hlen; [lia|].
  simpl. unfold bind, cout, getline_cin; simpl.
  destruct (w_stdin w) as [|line rest] eqn:Hin; simpl; [exact I|].
  simpl in Hlen.
  assert (Hrec : forall out,
    match prompt_yesno_loop fuel prompt
            (mkWorld rest out (w_stderr w) (w_file w) (w_writable w)) with
    | Done _ w' => consumes w w'
    | Exit _ => True
    | Terminate _ => False
    | OutOfFuel => False
    end).
  { intro out.
    specialize (IH (mkWorld rest out (w_stderr w) (w_file w) (w_writable w))).
    simpl in IH. specialize (IH ltac:(lia)).
    destruct (prompt_yesno_loop fuel prompt _) as [v w'| | |]; auto.
    destruct IH as (Hl & Hf & Hw); simpl in *.
    unfold consumes. rewrite Hin. simpl. repeat split; auto; lia. }
  destruct (skip_while is_blank line) as [|c0 tl]; [apply Hrec|].
  destruct (Ascii.eqb (tolower c0) "y");
    [unfold ret, consumes; rewrite Hin; simpl; repeat split; auto|].
  destruct (Ascii.eqb (tolower c0) "n");
    [unfold ret, consumes; rewrite Hin; simpl; repeat split; auto|].
  apply Hrec.
Qed.

Lemma prompt_yesno_spec (prompt : string) (w : World) :
  match prompt_yesno prompt w with
  | Done _ w' => consumes w w'
  | Exit _ => True
  | Terminate _ => False
  | OutOfFuel => False
  end.
Proof. unfold prompt_yesno. apply prompt_yesno_loop_spec. lia. Qed.

(** ** Difficulty selection *)

(** Running [m] and then [k]: a value comes out only if [m] gave one. *)
Lemma bind_Done {A B} (m : IO A) (k : A -> IO B) (w w' : World) (b : B) :
  bind m k w = Done b w' ->
  exists a w1, m w = Done a w1 /\ k a w1 = Done b w'.
Proof.
  unfold bind. destruct (m w) as [a w1| | |]; try discriminate.
  intro H. exists a, w1. auto.
Qed.

Lemma prompt_int_Done (prompt : string) (lo hi v : Z) (w w' : World) :
  prompt_int prompt lo hi w = Done v w' -> lo <= v <= hi /\ consumes w w'.
Proof.
  intro H. pose proof (prompt_int_spec prompt lo hi w) as S.
  rewrite H in S. exact S.
Qed.

Tactic Notation "io_step" hyp(H) "as" ident(a) ident(w) ident(H1) :=
  apply bind_Done in H; destruct H as (a & w & H1 & H).

Ltac io_skip H :=
  let a := fresh "u" in
  let w := fresh "w" in
  let H1 := fresh "Hu" in
  apply bind_Done in H; destruct H as (a & w & H1 & H); clear H1; try clear a.

(** C9: every configuration that difficulty selection returns has
    [minValue < maxValue]; for Custom this is what the bounds of the second
    prompt, [minValue + 1] to 1000000, enforce. *)
Theorem choose_difficulty_min_lt_max (w w' : World) (cfg : GameConfig) :
  choose_difficulty w = Done cfg w' -> minValue cfg < maxValue cfg.
Proof.
  unfold choose_difficulty. intro H.
  do 5 io_skip H.
  io_step H as choice wa Hchoice. clear Hchoice.
  io_step H as cfg0 wb Hcfg0.
  assert (Hcfg : minValue cfg0 < maxValue cfg0).
  { clear H.
    assert (Hcase : (choice = 1 \/ choice = 2 \/ choice = 3) \/
              (cout "Enter minimum value: " ;;
               lo <- prompt_int EmptyString (-1000000) 1000000 ;;
               cout "Enter maximum value: " ;;
               hi <- prompt_int EmptyString (lo + 1) 1000000 ;;
               limited <- prompt_yesno
                            "Would you like to set a maximum attempts limit?" ;;
               if limited : bool then
                 n <- prompt_int "Enter maximum attempts (>=1): " 1 1000000 ;;
                 ret (mkGameConfig "Custom" lo hi n)
               else ret (mkGameConfig "Custom" lo hi 0)) wa = Done cfg0 wb).
    { destruct choice as [|p|p]; auto.
      destruct p as [[p|p|]|[p|p|]|]; auto. }
    destruct Hcase as [Hpreset | Hc].
    - destruct Hpreset as [-> | [-> | ->]];
        simpl in Hcfg0; inversion Hcfg0; subst; simpl; lia.
    - clear Hcfg0.
      io_skip Hc.
      io_step Hc as lo wc Hlo. clear Hlo.
      io_skip Hc.
      io_step Hc as hi wd Hhi.
      apply prompt_int_Done in Hhi. destruct Hhi as [Hhi _].
      io_step Hc as limited we Hyn. clear Hyn.
      destruct limited.
      + io_step Hc as n wf Hn. inversion Hc; subst. simpl. lia.
      + inversion Hc; subst. simpl. lia. }
  do 3 io_skip H.
  inversion H; subst. exact Hcfg.
Qed.

(** An instance: the Custom answers 4, -5, 9 and n. *)
Lemma choose_difficulty_min_lt_max_witness :
  let w := console ["4"; "-5"; "9"; "n"] None in
  let cfg := mkGameConfig "Custom" (-5) 9 0 in
  exists w',
    choose_difficulty w = Done cfg w' /\ minValue cfg < maxValue cfg.
Proof.
  intros w cfg.
  assert (H : exists w', choose_difficulty w = Done cfg w')
    by (eexists; vm_compute; reflexivity).
  destruct H as (w' & H). exists w'.
  split; [exact H | exact (choose_difficulty_min_lt_max _ _ _ H)].
Defined.

(** ** Strings *)

Lemma append_assoc (a b c : string) : (a ++ b) ++ c = a ++ (b ++ c).
Proof. induction a as [|x a IH]; simpl; [reflexivity | now rewrite IH]. Qed.

Lemma append_nil_r (a : string) : a ++ EmptyString = a.
Proof. induction a as [|x a IH]; simpl; [reflexivity | now rewrite IH]. Qed.

Lemma length_append (a b : string) :
  length (a ++ b) = (length a + length b)%nat.
Proof. induction a as [|x a IH]; simpl; [reflexivity | now rewrite IH]. Qed.

Lemma say_say (w : World) (a b : string) : say (say w a) b = say w (a ++ b).
Proof. unfold say; simpl. now rewrite append_assoc. Qed.

(** ** The guess loop *)

Section GuessLoop.
Variable cfg : GameConfig.
Variable secret : Z.

Ltac turn_cases st g :=
  unfold guess_turn, bind, cout, ret;
  rewrite ?Z.gtb_ltb, ?Z.geb_leb;
  destruct (Z.eqb_spec g 0);
  [| destruct (Z.eqb_spec g secret);
     [| destruct (Z.ltb_spec secret g);
        destruct (Z.ltb_spec 0 (maxAttempts cfg));
        destruct (Z.leb_spec (maxAttempts cfg) (tried st + 1)) ] ];
  simpl.

(** A turn always comes to its end, and only writes to [cout]. *)
Lemma guess_turn_says (st : Locals) (g : Z) (w : World) :
  exists st' e out, guess_turn cfg secret st g w = Done (st', e) (say w out).
Proof.
  turn_cases st g; rewrite ?say_say; eauto.
Qed.

Lemma guess_turn_stdin (st st' : Locals) (g : Z) (e : option Ending)
    (w w' : World) :
  guess_turn cfg secret st g w = Done (st', e) w' ->
  w_stdin w' = w_stdin w /\ w_file w' = w_file w
  /\ w_writable w' = w_writable w.
Proof.
  destruct (guess_turn_says st g w) as (st1 & e1 & out & H). rewrite H.
  intro E; inversion E; subst. simpl. auto.
Qed.

Lemma ask_guess_Done (st : Locals) (w w1 : World) (g : Z) :
  ask_guess st w = Done g w1 -> is_int g /\ consumes w w1.
Proof.
  unfold ask_guess, bind, cout. intro H.
  apply prompt_int_Done in H. exact H.
Qed.

Lemma ask_guess_ends (st : Locals) (w : World) :
  match ask_guess st w with
  | Done _ _ | Exit _ => True
  | Terminate _ | OutOfFuel => False
  end.
Proof.
  unfold ask_guess, bind, cout.
  match goal with |- context [prompt_int ?p ?lo ?hi ?w0] =>
    pose proof (prompt_int_spec p lo hi w0) as S;
    destruct (prompt_int p lo hi w0) end; auto.
Qed.

(** Any fuel above the number of lines left gives the same run. *)
Lemma guess_loop_fuel (f1 : nat) :
  forall (f2 : nat) (st : Locals) (w : World),
  (List.length (w_stdin w) < f1)%nat -> (List.length (w_stdin w) < f2)%nat ->
  guess_loop f1 cfg secret st w = guess_loop f2 cfg secret st w.
Proof.
  induction f1 as [|f1 IH]; intros f2 st w H1 H2; [lia|].
  destruct f2 as [|f2]; [lia|].
  simpl. unfold bind.
  destruct (ask_guess st w) as [g w1| | |] eqn:Hask; try reflexivity.
  apply ask_guess_Done in Hask. destruct Hask as [_ (Hlen & _)].
  destruct (guess_turn_says st g w1) as (st' & e & out & Hturn).
  rewrite Hturn. destruct e as [e|]; [reflexivity|].
  apply IH; simpl; lia.
Qed.

(** The loop equation of [while (true)]. *)
Lemma guesses_unfold (st : Locals) (w : World) :
  guesses cfg secret st w =
  (guess <- ask_guess st ;;
   r <- guess_turn cfg secret st guess ;;
   match r with
   | (st', Some e) => ret (e, st')
   | (st', None) => guesses cfg secret st'
   end) w.
Proof.
  unfold guesses at 1. simpl. unfold bind.
  destruct (ask_guess st w) as [g w1| | |] eqn:Hask; try reflexivity.
  apply ask_guess_Done in Hask. destruct Hask as [_ (Hlen & _)].
  destruct (guess_turn_says st g w1) as (st' & e & out & Hturn).
  rewrite Hturn. destruct e as [e|]; [reflexivity|].
  unfold guesses. apply guess_loop_fuel; simpl; lia.
Qed.

(** The loop leaves through a [break] or through [exit(0)] at the end of
    the input: the fuel given by [guesses] is always enough. *)
Lemma guesses_ends (st : Locals) (w : World) :
  match guesses cfg secret st w with
  | Done _ _ | Exit _ => True
  | Terminate _ | OutOfFuel => False
  end.
Proof.
  remember (List.length (w_stdin w)) as n eqn:Hn.
  revert st w Hn. induction n as [n IH] using lt_wf_ind. intros st w Hn.
  rewrite guesses_unfold. unfold bind.
  pose proof (ask_guess_ends st w) as Hends.
  destruct (ask_guess st w) as [g w1| | |] eqn:Hask; auto.
  apply ask_guess_Done in Hask. destruct Hask as [_ (Hlen & _)].
  destruct (guess_turn_says st g w1) as (st' & e & out & Hturn).
  rewrite Hturn. destruct e as [e|]; [exact I|].
  apply (IH (List.length (w_stdin (say w1 out)))); simpl; [lia | reflexivity].
Qed.

(** Induction over the turns of a loop that ends in a [break]. *)
Lemma guesses_ind
    (P : Locals -> World -> Ending -> Locals -> World -> Prop) :
  (forall st w g w1 e st' w',
      ask_guess st w = Done g w1 ->
      guess_turn cfg secret st g w1 = Done (st', Some e) w' ->
      P st w e st' w') ->
  (forall st w g w1 st1 w2 e st' w',
      ask_guess st w = Done g w1 ->
      guess_turn cfg secret st g w1 = Done (st1, None) w2 ->
      guesses cfg secret st1 w2 = Done (e, st') w' ->
      P st1 w2 e st' w' ->
      P st w e st' w') ->
  forall st w e st' w',
    guesses cfg secret st w = Done (e, st') w' -> P st w e st' w'.
Proof.
  intros Hlast Hturn st w.
  remember (List.length (w_stdin w)) as n eqn:Hn.
  revert st w Hn. induction n as [n IH] using lt_wf_ind.
  intros st w Hn e st' w' Hrun.
  rewrite guesses_unfold in Hrun. unfold bind in Hrun.
  destruct (ask_guess st w) as [g w1| | |] eqn:Hask; try discriminate.
  destruct (guess_turn cfg secret st g w1) as [[st1 [e1|]] w2| | |] eqn:Ht;
    try discriminate.
  - inversion Hrun; subst. eapply Hlast; eauto.
  - eapply Hturn; eauto.
    apply ask_guess_Done in Hask. destruct Hask as [_ (Hlen & _)].
    apply guess_turn_stdin in Ht. destruct Ht as (Hs & _).
    eapply (IH (List.length (w_stdin w2)));
      [rewrite Hs; lia | reflexivity | exact Hrun].
Qed.

(** A loop that ends in a [break] came back to its head some number of
    times and then took the [break] in one last turn. *)
Lemma guesses_later (st : Locals) (w : World) (e : Ending) (st' : Locals)
    (w' : World) :
  guesses cfg secret st w = Done (e, st') w' ->
  exists stl wl g w1,
    later cfg secret st w stl wl /\ ask_guess stl wl = Done g w1
    /\ guess_turn cfg secret stl g w1 = Done (st', Some e) w'.
Proof.
  revert st w e st' w'.
  apply (guesses_ind (fun st w e st' w' =>
    exists stl wl g w1,
      later cfg secret st w stl wl /\ ask_guess stl wl = Done g w1
      /\ guess_turn cfg secret stl g w1 = Done (st', Some e) w')).
  - intros st w g w1 e st' w' Hask Ht.
    exists st, w, g, w1. split; [constructor | auto].
  - intros st w g w1 st1 w2 e st' w' Hask Ht _ (stl & wl & gl & wl1 & Hl & Ha & Hb).
    exists stl, wl, gl, wl1. split; [|auto].
    eapply later_turn; eauto.
Qed.

(** What one turn does, case by case. *)
Lemma guess_turn_inv (st st' : Locals) (g : Z) (e : option Ending)
    (w w' : World) :
  guess_turn cfg secret st g w = Done (st', e) w' ->
  (g = 0 /\ st' = st /\ e = Some GaveUp /\ w' = say w (msg_gave_up secret))
  \/
  (g <> 0 /\ tried st' = tried st + 1 /\
   ((g = secret /\ e = Some Correct /\ lowHint st' = lowHint st
     /\ highHint st' = highHint st
     /\ w' = say w (msg_correct (tried st + 1)))
    \/
    (g <> secret
     /\ (secret < g -> lowHint st' = lowHint st
                       /\ highHint st' = Z.min (highHint st) (g - 1))
     /\ (g < secret -> lowHint st' = Z.max (lowHint st) (g + 1)
                       /\ highHint st' = highHint st)
     /\ exists verdict,
         (e = Some AttemptsExhausted /\ 0 < maxAttempts cfg <= tried st + 1
          /\ w' = say w (verdict ++ msg_exhausted cfg secret))
         \/ (e = None /\ ~ 0 < maxAttempts cfg <= tried st + 1
             /\ w' = say w verdict)))).
Proof.
  turn_cases st g; rewrite ?say_say; intro Hrun; inversion Hrun; subst;
    clear Hrun; simpl.
  1: left; auto.
  1: right; split; [assumption|]; split; [reflexivity|]; left; auto.
  all: right; split; [assumption|]; split; [reflexivity|]; right;
    split; [assumption|].
  all: repeat match goal with
         | |- context [Z.ltb ?a ?b] => destruct (Z.ltb_spec a b)
         end.
  all: split; [intros; split; lia|]; split; [intros; split; lia|].
  all: first
    [ exists ("Too high." ++ nl); left; repeat split; (reflexivity || lia)
    | exists ("Too high." ++ nl); right; repeat split; (reflexivity || lia)
    | exists ("Too low." ++ nl); left; repeat split; (reflexivity || lia)
    | exists ("Too low." ++ nl); right; repeat split; (reflexivity || lia) ].
Qed.

(** Between two visits of the loop head the hints only narrow and the
    attempt counter only grows; a secret inside the hints stays inside. *)
Lemma later_narrows (st st' : Locals) (w w' : World) :
  later cfg secret st w st' w' ->
  lowHint st <= lowHint st' /\ highHint st' <= highHint st
  /\ tried st <= tried st'
  /\ (lowHint st <= secret <= highHint st ->
      lowHint st' <= secret <= highHint st').
Proof.
  induction 1 as [st w | st w g w1 st1 w2 st' w' Hask Hturn Hlater IH].
  - lia.
  - apply guess_turn_inv in Hturn.
    destruct Hturn as [(_ & _ & He & _) | (_ & Ht & [(_ & He & _) | Hwrong])];
      try discriminate.
    destruct Hwrong as (Hne & Hhigh & Hlow & _).
    destruct (Z.lt_total secret g) as [Hlt | [Heq | Hgt]];
      [destruct (Hhigh Hlt) as [E1 E2] | congruence
      | destruct (Hlow Hgt) as [E1 E2]]; lia.
Qed.

Lemma later_trans (st1 st2 st3 : Locals) (w1 w2 w3 : World) :
  later cfg secret st1 w1 st2 w2 -> later cfg secret st2 w2 st3 w3 ->
  later cfg secret st1 w1 st3 w3.
Proof.
  induction 1; intros; [assumption|].
  eapply later_turn; eauto.
Qed.


(** C3: with the secret inside the configured range, the range shown at
    every visit of the loop head contains the secret, so it never inverts;
    the locals a turn leaves behind contain it as well; and from a guess
    that was too high (too low) on, every range shown has its upper bound at
    most [guess - 1] (its lower bound at least [guess + 1]). *)
Theorem hint_range_invariant :
  minValue cfg <= secret <= maxValue cfg ->
  (forall w st w0,
      later cfg secret (initial cfg) w st w0 ->
      lowHint st <= secret <= highHint st)
  /\ (forall w st w0 guess w1 st1 e w2 st' w',
        later cfg secret (initial cfg) w st w0 ->
        ask_guess st w0 = Done guess w1 ->
        guess_turn cfg secret st guess w1 = Done (st1, e) w2 ->
        later cfg secret st1 w2 st' w' ->
        lowHint st' <= secret <= highHint st'
        /\ (guess <> 0 -> secret < guess -> highHint st' <= guess - 1)
        /\ (guess <> 0 -> guess < secret -> guess + 1 <= lowHint st'))
  /\ (forall w e st' w',
        guesses cfg secret (initial cfg) w = Done (e, st') w' ->
        lowHint st' <= secret <= highHint st').
Proof.
  intro Hsecret.
  assert (Hhead : forall w st w0,
             later cfg secret (initial cfg) w st w0 ->
             lowHint st <= secret <= highHint st).
  { intros w st w0 Hl. apply later_narrows in Hl.
    destruct Hl as (_ & _ & _ & Hin). apply Hin. exact Hsecret. }
  assert (Hturn : forall st g w1 st1 e w2,
             lowHint st <= secret <= highHint st ->
             guess_turn cfg secret st g w1 = Done (st1, e) w2 ->
             lowHint st1 <= secret <= highHint st1
             /\ (g <> 0 -> secret < g -> highHint st1 <= g - 1)
             /\ (g <> 0 -> g < secret -> g + 1 <= lowHint st1)).
  { intros st g w1 st1 e w2 Hin Ht. apply guess_turn_inv in Ht.
    destruct Ht as [(Hz & -> & _) | (Hnz & _ & [(Heq & _ & El & Eh & _) | Hwrong])].
    - split; [exact Hin | split; intro; contradiction].
    - subst g. rewrite El, Eh. split; [exact Hin | split; intros; lia].
    - destruct Hwrong as (Hne & Hhigh & Hlow & _).
      destruct (Z.lt_total secret g) as [Hlt | [Heq | Hgt]];
        [destruct (Hhigh Hlt) as [E1 E2] | congruence
        | destruct (Hlow Hgt) as [E1 E2]]; rewrite E1, E2;
        repeat split; intros; lia. }
  split; [exact Hhead | split].
  - intros w st w0 g w1 st1 e w2 st' w' Hl _ Ht Hl'.
    destruct (Hturn st g w1 st1 e w2 (Hhead _ _ _ Hl) Ht) as (Hin & Hhi & Hlo).
    apply later_narrows in Hl'. destruct Hl' as (Hl1 & Hl2 & _ & Hin').
    split; [apply Hin'; exact Hin|]. split; intros.
    + specialize (Hhi ltac:(assumption) ltac:(assumption)). lia.
    + specialize (Hlo ltac:(assumption) ltac:(assumption)). lia.
  - intros w e st' w' Hrun.
    apply guesses_later in Hrun.
    destruct Hrun as (stl & wl & g & w1 & Hl & _ & Ht).
    destruct (Hturn stl g w1 st' (Some e) w' (Hhead _ _ _ Hl) Ht) as (Hin & _).
    exact Hin.
Qed.

(** The loop when the guess read at its head ends the turn with a
    [break]. *)
Lemma guesses_last_turn (st st' : Locals) (g : Z) (e : Ending)
    (w w1 w' : World) :
  ask_guess st w = Done g w1 ->
  guess_turn cfg secret st g w1 = Done (st', Some e) w' ->
  guesses cfg secret st w = Done (e, st') w'.
Proof.
  intros Hask Hturn. rewrite guesses_unfold. unfold bind.
  rewrite Hask, Hturn. reflexivity.
Qed.


End GuessLoop.

(** C10: when the range contains 0 and the secret drawn is 0, no run of
    the guess loop ends in [Correct]: the guess 0 is taken as giving up, and
    the loop ends in [GaveUp] with the attempt counter as it was. *)
Theorem zero_secret_never_correct (cfg : GameConfig) (secret : Z) :
  minValue cfg <= 0 <= maxValue cfg -> secret = 0 ->
  (forall st w e st' w',
      guesses cfg secret st w = Done (e, st') w' -> e <> Correct)
  /\ (forall st w w1,
        ask_guess st w = Done secret w1 ->
        guesses cfg secret st w
        = Done (GaveUp, st) (say w1 (msg_gave_up secret))).
Proof.
  intros _ ->. split.
  - apply (guesses_ind cfg 0 (fun _ _ e _ _ => e <> Correct)).
    + intros st w g w1 e st' w' _ Hturn. apply guess_turn_inv in Hturn.
      destruct Hturn as [(_ & _ & He & _) | (Hnz & _ & [(Heq & _) | Hw])].
      * inversion He. discriminate.
      * contradiction.
      * destruct Hw as (_ & _ & _ & verdict & [(He & _) | (He & _)]);
          inversion He; discriminate.
    + auto.
  - intros st w w1 Hask. eapply guesses_last_turn; eauto.
Qed.

(** An instance: the secret 42 of a Medium game, found at the third guess. *)
Lemma hint_range_invariant_witness :
  let w := console ["50"; "20"; "42"] None in
  let st := mkLocals 3 21 49 in
  minValue cfg_medium <= 42 <= maxValue cfg_medium
  /\ exists w',
      guesses cfg_medium 42 (initial cfg_medium) w = Done (Correct, st) w'
      /\ lowHint st <= 42 <= highHint st.
Proof.
  intros w st.
  assert (H : minValue cfg_medium <= 42 <= maxValue cfg_medium)
    by (simpl; lia).
  split; [exact H|].
  assert (Hrun : exists w',
             guesses cfg_medium 42 (initial cfg_medium) w
             = Done (Correct, st) w')
    by (eexists; vm_compute; reflexivity).
  destruct Hrun as (w' & Hrun). exists w'.
  split; [exact Hrun|].
  exact (proj2 (proj2 (hint_range_invariant cfg_medium 42 H)) _ _ _ _ Hrun).
Defined.

(** An instance: the secret 0 in the range -5..5; the guess 0 gives up. *)
Lemma zero_secret_never_correct_witness :
  let cfg := mkGameConfig "Custom" (-5) 5 0 in
  let w := console ["3"; "0"] None in
  minValue cfg <= 0 <= maxValue cfg
  /\ exists w',
      guesses cfg 0 (initial cfg) w = Done (GaveUp, mkLocals 1 (-5) 2) w'
      /\ GaveUp <> Correct.
Proof.
  intros cfg w.
  assert (H : minValue cfg <= 0 <= maxValue cfg) by (simpl; lia).
  split; [exact H|].
  assert (Hrun : exists w',
             guesses cfg 0 (initial cfg) w
             = Done (GaveUp, mkLocals 1 (-5) 2) w')
    by (eexists; vm_compute; reflexivity).
  destruct Hrun as (w' & Hrun). exists w'.
  split; [exact Hrun|].
  exact (proj1 (zero_secret_never_correct cfg 0 H eq_refl) _ _ _ _ _ Hrun).
Defined.

(** ** The end of a session *)

Section SessionEnd.
Context {FA : FloatArith}.

Lemma play_game_after_phase (cfg : GameConfig) (env : Session)
    (w w1 : World) (r : Ending * Locals) :
  guess_phase cfg (drawn env) w = Done r w1 ->
  let res := make_result cfg env (tried (snd r))
                         (hd EmptyString (w_stdin w1)) in
  play_game cfg env w =
  if String.eqb (playerName res) "Anonymous" then Done res (name_read w1)
  else match append_to_leaderboard res (name_read w1) with
       | Done _ w' => Done res w'
       | Exit w' => Exit w'
       | Terminate w' => Terminate w'
       | OutOfFuel => OutOfFuel
       end.
Proof.
  intros Hphase res. subst res.
  unfold play_game, bind. rewrite Hphase.
  unfold name_read.
  lazy beta iota zeta delta [cout safe_getline getline_cin ret bind say].
  destruct (w_stdin w1) as [|typed rest];
    lazy beta iota zeta delta [hd tl w_stdin w_stdout w_stderr w_file w_writable];
    destruct (String.eqb _ _); reflexivity.
Qed.



End SessionEnd.



(** ** Reading the leaderboard *)

Lemma take_until_length (d : ascii) (s : string) :
  (length (snd (take_until d s)) <= Nat.pred (length s))%nat.
Proof.
  induction s as [|c s IH]; simpl; [lia|].
  destruct (Ascii.eqb c d); simpl; [lia|].
  destruct (take_until d s) as [item rest]. simpl in *. lia.
Qed.

Lemma getline_shorter (d : ascii) (s item rest : string) :
  getline d s = Some (item, rest) -> (length rest < length s)%nat.
Proof.
  destruct s as [|c s]; [discriminate|]. unfold getline. intro H.
  assert (E : take_until d (String c s) = (item, rest)) by congruence.
  pose proof (take_until_length d (String c s)) as L.
  rewrite E in L. simpl in L. simpl. lia.
Qed.

Section ReadLeaderboard.
Context {FA : FloatArith}.

(** The read loop comes to its end on every file content: it returns its
    records, at most [limit] of them when [limit >= 1], or it is cut short
    by an exception of [stoi] or [stod]; the world is left as it was. *)
Lemma read_leaderboard_loop_ends (fuel : nat) (limit : Z) :
  forall (ifs : string) (out : list Result) (w : World),
  (length ifs < fuel)%nat ->
  match read_leaderboard_loop fuel limit ifs out w with
  | Done l w' =>
      w' = w /\ (Z.of_nat (List.length out) < limit ->
                 Z.of_nat (List.length l) <= limit)
  | Terminate w' => w' = w
  | Exit _ | OutOfFuel => False
  end.
Proof.
  induction fuel as [|fuel IH]; intros ifs out w Hlen; [lia|].
  simpl.
  destruct (getline ch_nl ifs) as [[line ifs']|] eqn:Hget.
  - apply getline_shorter in Hget.
    assert (Hrec : forall out0,
      match read_leaderboard_loop fuel limit ifs' out0 w with
      | Done l w' =>
          w' = w /\ (Z.of_nat (List.length out0) < limit ->
                     Z.of_nat (List.length l) <= limit)
      | Terminate w' => w' = w
      | Exit _ | OutOfFuel => False
      end) by (intro out0; apply IH; lia).
    destruct line as [|c line]; [apply Hrec|].
    destruct (parse_line (String c line)) as [r| |];
      [|apply Hrec | reflexivity].
    destruct (Z.geb_spec (Z.of_nat (List.length (out ++ [r])))  limit)
      as [Hge | Hlt].
    + unfold ret. split; [reflexivity|]. intro Hout.
      rewrite length_app in *. simpl in *. lia.
    + specialize (Hrec (out ++ [r])%list).
      destruct (read_leaderboard_loop fuel limit ifs' (out ++ [r]) w);
        auto.
      destruct Hrec as [Hw Hl]. split; [exact Hw|]. intros _. apply Hl. lia.
  - unfold ret. split; [reflexivity | lia].
Qed.

(** A missing file reads as no record at all. *)
Lemma read_leaderboard_missing (limit : Z) (w : World) :
  w_file w = None -> read_leaderboard limit w = Done [] w.
Proof. unfold read_leaderboard. intros ->. reflexivity. Qed.

Lemma read_leaderboard_ends (limit : Z) (w : World) :
  match read_leaderboard limit w with
  | Done l w' => w' = w /\ (1 <= limit -> Z.of_nat (List.length l) <= limit)
  | Terminate w' => w' = w
  | Exit _ | OutOfFuel => False
  end.
Proof.
  unfold read_leaderboard. destruct (w_file w) as [content|].
  - pose proof (read_leaderboard_loop_ends (S (length content)) limit
                  content [] w ltac:(lia)) as H.
    destruct (read_leaderboard_loop _ _ _ _ _); auto.
    destruct H as [Hw Hl]. split; [exact Hw|]. intro. apply Hl. simpl. lia.
  - unfold ret. split; [reflexivity|]. simpl. lia.
Qed.

(** Lines with fewer than four fields are given up without harm. *)
Example read_leaderboard_short_lines :
  read_leaderboard 10 (console [] (Some ("a,b,c" ++ nl ++ nl ++ "x")))
  = Done [] (console [] (Some ("a,b,c" ++ nl ++ nl ++ "x"))).
Proof. vm_compute. reflexivity. Qed.
End ReadLeaderboard.

(** ** Scoring *)

Section Scoring.
Context {FA : FloatArith}.
Local Open Scope R_scope.

Lemma rnd_0 : rnd 0 = 0.
Proof. apply (rnd_integer 0%Z). simpl. lia. Qed.

Lemma rnd_nonneg (x : R) : 0 <= x -> 0 <= rnd x.
Proof. intro H. rewrite <- rnd_0. apply rnd_monotone. exact H. Qed.

Lemma rnd_nonpos (x : R) : x <= 0 -> rnd x <= 0.
Proof. intro H. rewrite <- rnd_0. apply rnd_monotone. exact H. Qed.

Lemma clamp_nonneg (x : R) : 0 <= clamp x.
Proof. unfold clamp. destruct (Rlt_dec x 0); lra. Qed.

Lemma clamp_monotone (x y : R) : x <= y -> clamp x <= clamp y.
Proof. unfold clamp. destruct (Rlt_dec x 0), (Rlt_dec y 0); lra. Qed.

Lemma clamp_Rmax (x : R) : clamp x = Rmax 0 x.
Proof.
  unfold clamp, Rmax. destruct (Rlt_dec x 0), (Rle_dec 0 x); lra.
Qed.

Lemma compute_score_eq (attempts : Z) (t : R) (cfg : GameConfig) :
  compute_score attempts t cfg =
  let base :=
    fdiv 1000 (flog2 (fadd (IZR (maxValue cfg - minValue cfg + 1)) 1)) in
  clamp (if (maxAttempts cfg >? 0)%Z
         then fmul (raw_score base attempts t)
                   (bonus attempts (maxAttempts cfg))
         else raw_score base attempts t).
Proof. reflexivity. Qed.

Lemma raw_score_attempts (base : R) (a a' : Z) (t : R) :
  (a <= a')%Z -> raw_score base a' t <= raw_score base a t.
Proof.
  intro H. unfold raw_score, fsub, fmul.
  apply rnd_monotone. apply Rplus_le_compat_r.
  apply rnd_monotone.
  assert (rnd (20 * IZR (a - 1)) <= rnd (20 * IZR (a' - 1))).
  { apply rnd_monotone. apply Rmult_le_compat_l; [lra|].
    apply IZR_le. lia. }
  lra.
Qed.

Lemma raw_score_time (base : R) (a : Z) (t t' : R) :
  t <= t' -> raw_score base a t' <= raw_score base a t.
Proof.
  intro H. unfold raw_score, fsub, fdiv.
  apply rnd_monotone.
  assert (rnd (t / 2) <= rnd (t' / 2)) by (apply rnd_monotone; lra).
  lra.
Qed.

Lemma bonus_nonneg (a m : Z) : 0 <= bonus a m.
Proof.
  unfold bonus, fadd. apply rnd_nonneg.
  pose proof (Rmax_l 0 (fsub (1 / 2) (fdiv (IZR a) (IZR m)))). lra.
Qed.

Lemma bonus_attempts (a a' m : Z) :
  (0 < m)%Z -> (a <= a')%Z -> bonus a' m <= bonus a m.
Proof.
  intros Hm H. unfold bonus, fadd, fsub, fdiv.
  apply rnd_monotone. apply Rplus_le_compat_l.
  apply Rle_max_compat_l.
  apply rnd_monotone.
  assert (rnd (IZR a / IZR m) <= rnd (IZR a' / IZR m)).
  { apply rnd_monotone. unfold Rdiv. apply Rmult_le_compat_r.
    - left. apply Rinv_0_lt_compat. apply IZR_lt. exact Hm.
    - apply IZR_le. exact H. }
  lra.
Qed.

(** A product of a score and a factor that both went down, clamped. *)
Lemma clamp_product (s s' g g' : R) :
  s' <= s -> 0 <= g' <= g ->
  clamp (fmul s' g') <= clamp (fmul s g).
Proof.
  intros Hs [Hg0 Hg]. unfold fmul.
  destruct (Rle_or_lt 0 s') as [Hpos | Hneg].
  - apply clamp_monotone. apply rnd_monotone.
    apply Rle_trans with (s * g').
    + apply Rmult_le_compat_r; assumption.
    + apply Rmult_le_compat_l; lra.
  - assert (Hle : rnd (s' * g') <= 0).
    { apply rnd_nonpos.
      replace 0 with (0 * g') by ring.
      apply Rmult_le_compat_r; lra. }
    pose proof (clamp_nonneg (rnd (s * g))).
    unfold clamp at 1. destruct (Rlt_dec (rnd (s' * g')) 0); lra.
Qed.

(** C2: for every configuration the score does not go up when the
    attempts go up, nor when the elapsed seconds go up, and it is never
    negative. *)
Theorem compute_score_monotone (cfg : GameConfig) :
  (forall (a a' : Z) (t : R),
      (a <= a')%Z -> compute_score a' t cfg <= compute_score a t cfg)
  /\ (forall (a : Z) (t t' : R),
        t <= t' -> compute_score a t' cfg <= compute_score a t cfg)
  /\ (forall (a : Z) (t : R), 0 <= compute_score a t cfg).
Proof.
  split; [|split].
  - intros a a' t H. rewrite !compute_score_eq. cbv zeta.
    destruct (Z.gtb_spec (maxAttempts cfg) 0) as [Hm | Hm].
    + apply clamp_product.
      * apply raw_score_attempts. exact H.
      * split; [apply bonus_nonneg | apply bonus_attempts; assumption].
    + apply clamp_monotone. apply raw_score_attempts. exact H.
  - intros a t t' H. rewrite !compute_score_eq. cbv zeta.
    destruct (maxAttempts cfg >? 0)%Z.
    + apply clamp_product.
      * apply raw_score_time. exact H.
      * split; [apply bonus_nonneg | lra].
    + apply clamp_monotone. apply raw_score_time. exact H.
  - intros a t. rewrite compute_score_eq. apply clamp_nonneg.
Qed.
End Scoring.

Section ScoreFormula.
Local Open Scope R_scope.

Lemma fadd_integers {FA : FloatArith} (n m : Z) :
  (Z.abs (n + m) <= 2 ^ 53)%Z -> fadd (IZR n) (IZR m) = IZR (n + m).
Proof.
  intro H. unfold fadd. rewrite <- plus_IZR. apply rnd_integer. exact H.
Qed.

(** The first try of a game on 1..100 without a limit, won at once. *)
Lemma compute_score_first_try {FA : FloatArith} (name : string) :
  0 <= fdiv 1000 (flog2 101) ->
  compute_score 1 0 (mkGameConfig name 1 100 0) = fdiv 1000 (flog2 101).
Proof.
  intro Hpos. rewrite compute_score_eq. cbv zeta. simpl maxAttempts.
  change (0 >? 0)%Z with false. cbv iota.
  simpl maxValue. simpl minValue.
  change (100 - 1 + 1)%Z with 100%Z.
  rewrite (fadd_integers 100 1) by (simpl; lia).
  change (100 + 1)%Z with 101%Z.
  unfold raw_score. change (1 - 1)%Z with 0%Z.
  assert (E1 : fmul 20 0 = 0) by (unfold fmul; rewrite Rmult_0_r; apply rnd_0).
  assert (E2 : fdiv 0 2 = 0)
    by (unfold fdiv, Rdiv; rewrite Rmult_0_l; apply rnd_0).
  rewrite E1, E2.
  assert (E3 : forall x, fsub (fdiv 1000 x) 0 = fdiv 1000 x).
  { intro x. unfold fsub, fdiv. rewrite Rminus_0_r. apply rnd_idempotent. }
  rewrite !E3.
  unfold clamp. destruct (Rlt_dec (fdiv 1000 (flog2 101)) 0); lra.
Qed.

Lemma ln_2_pos : 0 < ln 2.
Proof. rewrite <- ln_1. apply ln_increasing; lra. Qed.

(** [3329/500 < log2 101 < 3331/500], from [2^3329 < 101^500 < 2^3331]. *)
Lemma log2_101_bounds : 3329 / 500 < ln 101 / ln 2 < 3331 / 500.
Proof.
  pose proof ln_2_pos as H2.
  assert (Hlo : INR 3329 * ln 2 < INR 500 * ln 101).
  { rewrite <- !ln_pow by lra. apply ln_increasing; [apply pow_lt; lra|].
    rewrite !pow_IZR. apply IZR_lt. vm_compute. reflexivity. }
  assert (Hhi : INR 500 * ln 101 < INR 3331 * ln 2).
  { rewrite <- !ln_pow by lra. apply ln_increasing; [apply pow_lt; lra|].
    rewrite !pow_IZR. apply IZR_lt. vm_compute. reflexivity. }
  rewrite !INR_IZR_INZ in Hlo, Hhi. simpl Z.of_nat in Hlo, Hhi.
  split.
  - apply Rmult_lt_reg_r with (ln 2); [exact H2|].
    unfold Rdiv at 2. rewrite Rmult_assoc, Rinv_l by lra. lra.
  - apply Rmult_lt_reg_r with (ln 2); [exact H2|].
    unfold Rdiv at 1. rewrite Rmult_assoc, Rinv_l by lra. lra.
Qed.

Lemma first_try_score_bounds :
  @compute_score exact_arith 1 0 (mkGameConfig "Custom" 1 100 0)
  = 1000 / (ln 101 / ln 2)
  /\ 1501 / 10 < 1000 / (ln 101 / ln 2) < 1502 / 10.
Proof.
  destruct log2_101_bounds as [Hlo Hhi].
  set (l := ln 101 / ln 2) in *.
  assert (Hl : 0 < l) by lra.
  assert (Hb : 1501 / 10 < 1000 / l < 1502 / 10).
  { split.
    - apply Rmult_lt_reg_r with l; [exact Hl|].
      unfold Rdiv at 2. rewrite Rmult_assoc, Rinv_l by lra. lra.
    - apply Rmult_lt_reg_r with l; [exact Hl|].
      unfold Rdiv at 1. rewrite Rmult_assoc, Rinv_l by lra. lra. }
  split; [|exact Hb].
  rewrite (@compute_score_first_try exact_arith).
  - reflexivity.
  - change (0 <= 1000 / l). lra.
Qed.

(** C4, amended: [compute_score] is the formula of the specification, for
    every configuration whose bounds are [int] values; and for
    [minValue = 1], [maxValue = 100], [maxAttempts = 0], [attempts = 1],
    [elapsedSeconds = 0] the score is [1000 / log2 101], a number between
    150.1 and 150.2. *)
Theorem compute_score_formula :
  (forall (FA : FloatArith) (cfg : GameConfig) (attempts : Z) (t : R),
      is_int (minValue cfg) -> is_int (maxValue cfg) ->
      compute_score attempts t cfg = score_formula attempts t cfg)
  /\ @compute_score exact_arith 1 0 (mkGameConfig "Custom" 1 100 0)
     = 1000 / (ln 101 / ln 2)
  /\ 1501 / 10
     < @compute_score exact_arith 1 0 (mkGameConfig "Custom" 1 100 0)
     < 1502 / 10.
Proof.
  split.
  - intros FA cfg a t Hmin Hmax.
    rewrite compute_score_eq. unfold score_formula. cbv zeta.
    rewrite clamp_Rmax.
    replace (fadd (IZR (maxValue cfg - minValue cfg + 1)) 1)
      with (IZR (maxValue cfg - minValue cfg + 2)).
    + reflexivity.
    + rewrite (fadd_integers (maxValue cfg - minValue cfg + 1) 1).
      * f_equal. lia.
      * unfold is_int, INT_MIN, INT_MAX in *. lia.
  - destruct first_try_score_bounds as [E B]. rewrite E. split; [reflexivity|].
    exact B.
Qed.

(** C4 as stated gives 150.3 for that score; rounded to one decimal the
    score is 150.2. *)
Lemma first_try_score_not_150_3 :
  ~ (15025 / 100
     <= @compute_score exact_arith 1 0 (mkGameConfig "Custom" 1 100 0)
     <= 15035 / 100).
Proof.
  destruct first_try_score_bounds as [E B]. rewrite E. lra.
Qed.

(** An instance: the formula on a Medium game. *)
Lemma compute_score_formula_witness :
  is_int (minValue cfg_medium) /\ is_int (maxValue cfg_medium)
  /\ @compute_score exact_arith 3 10 cfg_medium
     = @score_formula exact_arith 3 10 cfg_medium.
Proof.
  assert (H1 : is_int (minValue cfg_medium))
    by (unfold is_int, INT_MIN, INT_MAX; simpl; lia).
  assert (H2 : is_int (maxValue cfg_medium))
    by (unfold is_int, INT_MIN, INT_MAX; simpl; lia).
  split; [exact H1|]. split; [exact H2|].
  exact (proj1 compute_score_formula exact_arith cfg_medium 3%Z 10 H1 H2).
Defined.
End ScoreFormula.

(** ** Numbers as text *)

Lemma digit_val_inv (c : ascii) (d : Z) :
  digit_val c = Some d -> 0 <= d <= 9 /\ c = digit_char d.
Proof.
  unfold digit_val. intro E.
  destruct (Nat.leb_spec 48 (nat_of_ascii c)) as [H1 | H1];
    cbn [andb] in E; [|discriminate].
  destruct (Nat.leb_spec (nat_of_ascii c) 57) as [H2 | H2];
    [|discriminate].
  injection E as E. subst d. split; [lia|].
  unfold digit_char. rewrite Nat2Z.id.
  replace (48 + (nat_of_ascii c - 48))%nat with (nat_of_ascii c) by lia.
  symmetry. apply ascii_nat_embedding.
Qed.

Lemma digit_ten_cases (d : Z) :
  0 <= d <= 9 ->
  d = 0 \/ d = 1 \/ d = 2 \/ d = 3 \/ d = 4 \/ d = 5 \/ d = 6 \/ d = 7
  \/ d = 8 \/ d = 9.
Proof. lia. Qed.

(** Splits a goal about a digit character into its ten cases. *)
Ltac digit_cases c :=
  match goal with
  | H : digit_val c = Some ?d |- _ =>
      let Hr := fresh in let He := fresh in
      destruct (digit_val_inv c d H) as [Hr He];
      apply digit_ten_cases in Hr;
      repeat (destruct Hr as [Hr | Hr]); subst d; subst c
  end.

Lemma digit_val_digit_char (d : Z) :
  0 <= d <= 9 -> digit_val (digit_char d) = Some d.
Proof.
  intro H. apply digit_ten_cases in H.
  repeat (destruct H as [H | H]); subst d; reflexivity.
Qed.

Lemma is_digit_char (d : Z) : 0 <= d <= 9 -> is_digit (digit_char d) = true.
Proof. intro H. unfold is_digit. now rewrite digit_val_digit_char. Qed.

Lemma string_forall_append (p : ascii -> bool) (a b : string) :
  string_forall p (a ++ b) = string_forall p a && string_forall p b.
Proof.
  induction a as [|c a IH]; simpl; [reflexivity|].
  rewrite IH. now rewrite andb_assoc.
Qed.

Lemma string_forall_impl (p q : ascii -> bool) (s : string) :
  (forall c, p c = true -> q c = true) ->
  string_forall p s = true -> string_forall q s = true.
Proof.
  intro Himp. induction s as [|c s IH]; simpl; [reflexivity|].
  intro H. apply andb_prop in H. destruct H as [H1 H2].
  rewrite (Himp c H1), (IH H2). reflexivity.
Qed.

Lemma mod10_digit (n : Z) : 0 <= n mod 10 <= 9.
Proof. pose proof (Z.mod_pos_bound n 10). lia. Qed.

Lemma digits_of_digits (fuel : nat) :
  forall (n : Z) (acc : string),
  0 <= n -> string_forall is_digit acc = true ->
  string_forall is_digit (digits_of fuel n acc) = true.
Proof.
  induction fuel as [|fuel IH]; intros n acc Hn Hacc; cbn [digits_of].
  - cbn [string_forall].
    rewrite is_digit_char by apply mod10_digit. exact Hacc.
  - destruct (n <? 10).
    + cbn [string_forall].
      rewrite is_digit_char by apply mod10_digit. exact Hacc.
    + apply IH; [apply Z.div_pos; lia|]. cbn [string_forall].
      rewrite is_digit_char by apply mod10_digit. exact Hacc.
Qed.

Lemma digits_of_nonempty (fuel : nat) (n : Z) (acc : string) :
  exists c t, digits_of fuel n acc = String c (t ++ acc).
Proof.
  revert n acc. induction fuel as [|fuel IH]; intros n acc; cbn [digits_of].
  - exists (digit_char (n mod 10)), EmptyString. reflexivity.
  - destruct (n <? 10).
    + exists (digit_char (n mod 10)), EmptyString. reflexivity.
    + destruct (IH (n / 10) (String (digit_char (n mod 10)) acc))
        as (c & t & E).
      exists c, (t ++ String (digit_char (n mod 10)) EmptyString).
      rewrite E. rewrite append_assoc. reflexivity.
Qed.

Lemma scan_digits_digit (d acc : Z) (cnt : nat) (s : string) :
  0 <= d <= 9 ->
  scan_digits digit_val 10 acc cnt (String (digit_char d) s)
  = scan_digits digit_val 10 (10 * acc + d) (S cnt) s.
Proof.
  intro H. cbn [scan_digits]. rewrite digit_val_digit_char by exact H.
  reflexivity.
Qed.

(** Reading back the digits that [digits_of] wrote gives the number. *)
Lemma scan_digits_of (fuel : nat) :
  forall (n : Z) (acc : string),
  0 <= n < 10 ^ (Z.of_nat fuel + 1) ->
  exists k,
    scan_digits digit_val 10 0 0 (digits_of fuel n acc)
    = scan_digits digit_val 10 n (S k) acc.
Proof.
  induction fuel as [|fuel IH]; intros n acc Hn.
  - change (10 ^ (Z.of_nat 0 + 1)) with 10 in Hn. cbn [digits_of].
    rewrite Z.mod_small by lia. rewrite scan_digits_digit by lia.
    exists O. f_equal.
  - cbn [digits_of]. destruct (Z.ltb_spec n 10) as [Hsmall | Hbig].
    + rewrite Z.mod_small by lia. rewrite scan_digits_digit by lia.
      exists O. f_equal.
    + destruct (IH (n / 10) (String (digit_char (n mod 10)) acc))
        as (k & E).
      { split; [apply Z.div_pos; lia|].
        apply Z.div_lt_upper_bound; [lia|].
        replace (Z.of_nat (S fuel) + 1) with (Z.succ (Z.of_nat fuel + 1))
          in Hn by lia.
        rewrite Z.pow_succ_r in Hn by lia. lia. }
      exists (S k). rewrite E.
      rewrite scan_digits_digit by apply mod10_digit.
      f_equal. pose proof (Z.div_mod n 10). lia.
Qed.

Lemma to_digits_fuel (n : Z) :
  0 <= n -> 0 <= n < 10 ^ (Z.of_nat (Z.to_nat (Z.log2 n)) + 1).
Proof.
  intro Hn. split; [exact Hn|].
  rewrite Z2Nat.id by apply Z.log2_nonneg.
  destruct (Z.eq_dec n 0) as [-> | Hnz]; [reflexivity|].
  pose proof (Z.log2_spec n ltac:(lia)) as [_ Hlt].
  apply Z.lt_le_trans with (2 ^ Z.succ (Z.log2 n)); [exact Hlt|].
  replace (Z.log2 n + 1) with (Z.succ (Z.log2 n)) by lia.
  apply Z.pow_le_mono_l. lia.
Qed.

(** [digits_of] puts its digits in front of [acc]. *)
Lemma digits_of_append (fuel : nat) :
  forall (n : Z) (acc : string),
  digits_of fuel n acc = digits_of fuel n EmptyString ++ acc.
Proof.
  induction fuel as [|fuel IH]; intros n acc; cbn [digits_of].
  - reflexivity.
  - destruct (n <? 10); [reflexivity|].
    rewrite IH. rewrite (IH _ (String _ EmptyString)).
    rewrite append_assoc. reflexivity.
Qed.

Lemma scan_to_digits (n : Z) (acc : string) :
  0 <= n ->
  exists k,
    scan_digits digit_val 10 0 0 (to_digits n ++ acc)
    = scan_digits digit_val 10 n (S k) acc.
Proof.
  intro Hn. unfold to_digits. rewrite <- digits_of_append.
  apply scan_digits_of. apply to_digits_fuel. exact Hn.
Qed.

Lemma to_digits_digits (n : Z) :
  0 <= n -> string_forall is_digit (to_digits n) = true.
Proof. intro Hn. apply digits_of_digits; [exact Hn | reflexivity]. Qed.

Lemma to_digits_nonempty (n : Z) : exists c t, to_digits n = String c t.
Proof.
  destruct (digits_of_nonempty (Z.to_nat (Z.log2 n)) n EmptyString)
    as (c & t & E).
  exists c, (t ++ EmptyString). exact E.
Qed.

Lemma digit_not_space (c : ascii) (d : Z) :
  digit_val c = Some d -> isspace c = false.
Proof. intro H. digit_cases c; reflexivity. Qed.

Lemma digit_no_sign (c : ascii) (d : Z) (t : string) :
  digit_val c = Some d -> scan_sign (String c t) = (false, String c t).
Proof. intro H. digit_cases c; reflexivity. Qed.

Lemma is_digit_val (c : ascii) :
  is_digit c = true -> exists d, digit_val c = Some d.
Proof.
  unfold is_digit. destruct (digit_val c) as [d|]; [eauto | discriminate].
Qed.

(** The digits of a number, as they start: a digit, then digits. *)
Lemma to_digits_shape (n : Z) :
  0 <= n ->
  exists c d t,
    to_digits n = String c t /\ digit_val c = Some d
    /\ string_forall is_digit t = true.
Proof.
  intro Hn. destruct (to_digits_nonempty n) as (c & t & E).
  pose proof (to_digits_digits n Hn) as Hd. rewrite E in Hd.
  cbn [string_forall] in Hd. apply andb_prop in Hd. destruct Hd as [Hc Ht].
  destruct (is_digit_val c Hc) as (d & Hv).
  exists c, d, t. auto.
Qed.

Lemma strtol_to_digits (n : Z) :
  0 <= n -> strtol (to_digits n) = Some (n, EmptyString).
Proof.
  intro Hn. unfold strtol.
  destruct (to_digits_shape n Hn) as (c & d & t & E & Hv & _).
  rewrite E. cbn [skip_while]. rewrite (digit_not_space c d Hv).
  rewrite (digit_no_sign c d t Hv). rewrite <- E.
  destruct (scan_to_digits n EmptyString Hn) as (k & Hk).
  rewrite append_nil_r in Hk. rewrite Hk. reflexivity.
Qed.

Lemma strtol_to_string (z : Z) : strtol (to_string z) = Some (z, EmptyString).
Proof.
  unfold to_string. destruct (Z.ltb_spec z 0) as [Hneg | Hpos].
  - unfold strtol. cbn [skip_while]. change (isspace "-") with false.
    cbv iota. cbn [scan_sign].
    destruct (scan_to_digits (- z) EmptyString ltac:(lia)) as (k & Hk).
    rewrite append_nil_r in Hk. rewrite Hk. cbn [scan_digits].
    f_equal. f_equal. lia.
  - apply strtol_to_digits. exact Hpos.
Qed.

(** [stoi] reads back what [operator<<] wrote for an [int]. *)
Lemma stoi_to_string (z : Z) : is_int z -> stoi (to_string z) = Some z.
Proof.
  intros [Hlo Hhi]. unfold stoi. rewrite strtol_to_string.
  destruct (Z.leb_spec INT_MIN z); [|lia].
  destruct (Z.leb_spec z INT_MAX); [|lia]. reflexivity.
Qed.

(** ** Fields and lines *)

Lemma plain_lacks (s : string) :
  plain s = true -> lacks ch_comma s = true /\ lacks ch_nl s = true.
Proof.
  intro H. split; revert H; apply string_forall_impl; intros c Hc;
    apply andb_prop in Hc; tauto.
Qed.

Lemma plain_append (a b : string) :
  plain a = true -> plain b = true -> plain (a ++ b) = true.
Proof.
  intros Ha Hb. unfold plain. rewrite string_forall_append.
  unfold plain in Ha, Hb. rewrite Ha, Hb. reflexivity.
Qed.

Lemma lacks_append (d : ascii) (a b : string) :
  lacks d a = true -> lacks d b = true -> lacks d (a ++ b) = true.
Proof.
  intros Ha Hb. unfold lacks. rewrite string_forall_append.
  unfold lacks in Ha, Hb. rewrite Ha, Hb. reflexivity.
Qed.

Lemma take_until_found (d : ascii) (a b : string) :
  lacks d a = true -> take_until d (a ++ String d b) = (a, b).
Proof.
  induction a as [|c a IH]; cbn [append take_until lacks string_forall].
  - intros _. rewrite Ascii.eqb_refl. reflexivity.
  - intro H. apply andb_prop in H. destruct H as [Hc Ha].
    apply negb_true_iff in Hc. rewrite Hc. rewrite (IH Ha). reflexivity.
Qed.

Lemma take_until_end (d : ascii) (a : string) :
  lacks d a = true -> take_until d a = (a, EmptyString).
Proof.
  induction a as [|c a IH]; cbn [take_until lacks string_forall].
  - reflexivity.
  - intro H. apply andb_prop in H. destruct H as [Hc Ha].
    apply negb_true_iff in Hc. rewrite Hc. rewrite (IH Ha). reflexivity.
Qed.

Lemma getline_found (d : ascii) (a b : string) :
  lacks d a = true -> getline d (a ++ String d b) = Some (a, b).
Proof.
  intro H. unfold getline. rewrite (take_until_found d a b H).
  destruct a; reflexivity.
Qed.

Lemma next_item_field (f rest : string) :
  lacks ch_comma f = true ->
  next_item (f ++ "," ++ rest) = Parsed (f, rest).
Proof.
  intro H. unfold next_item.
  change ("," ++ rest) with (String ch_comma rest).
  rewrite (getline_found ch_comma f rest H). reflexivity.
Qed.

Lemma next_item_last (c : ascii) (f : string) :
  lacks ch_comma (String c f) = true ->
  next_item (String c f) = Parsed (String c f, EmptyString).
Proof.
  intro H. unfold next_item, getline. rewrite (take_until_end _ _ H).
  reflexivity.
Qed.

Lemma substring_prefix (s t : string) :
  substring 0 (length s) (s ++ t) = s.
Proof.
  induction s as [|c s IH]; cbn [length append substring].
  - destruct t; reflexivity.
  - rewrite IH. reflexivity.
Qed.

Lemma strip_quotes_quoted (s : string) : strip_quotes (quoted s) = s.
Proof.
  unfold quoted, quote. cbn [append]. unfold strip_quotes.
  rewrite Ascii.eqb_refl.
  cbn [length]. rewrite length_append. cbn [length].
  replace (2 <=? S (length s + 1))%nat with true
    by (symmetry; apply Nat.leb_le; lia).
  cbn [andb].
  replace (S (length s + 1) - 2)%nat with (length s) by lia.
  cbn [substring]. apply substring_prefix.
Qed.

Lemma quoted_plain (s : string) : plain s = true -> plain (quoted s) = true.
Proof.
  intro H. unfold quoted. apply plain_append; [reflexivity|].
  apply plain_append; [exact H | reflexivity].
Qed.

Lemma digit_plain (c : ascii) :
  is_digit c = true ->
  negb (Ascii.eqb c ch_comma) && negb (Ascii.eqb c ch_nl) = true.
Proof.
  intro H. destruct (is_digit_val c H) as (d & Hv).
  digit_cases c; reflexivity.
Qed.

Lemma to_digits_plain (n : Z) : 0 <= n -> plain (to_digits n) = true.
Proof.
  intro Hn. unfold plain.
  apply string_forall_impl with (p := is_digit); [exact digit_plain|].
  apply to_digits_digits. exact Hn.
Qed.

Lemma to_string_plain (z : Z) : plain (to_string z) = true.
Proof.
  unfold to_string. destruct (Z.ltb_spec z 0).
  - change (String "-" (to_digits (- z))) with ("-" ++ to_digits (- z)).
    apply plain_append; [reflexivity | apply to_digits_plain; lia].
  - apply to_digits_plain. assumption.
Qed.

(** ** Doubles as text *)

Lemma Int_part_nonneg (x : R) : (0 <= x)%R -> 0 <= Int_part x.
Proof.
  intro Hx. destruct (base_Int_part x) as [_ Hgt].
  assert (H : (-1 < IZR (Int_part x))%R) by lra.
  apply lt_IZR in H. lia.
Qed.

Lemma round_half_even_nonneg (x : R) : (0 <= x)%R -> 0 <= round_half_even x.
Proof.
  intro Hx. pose proof (Int_part_nonneg x Hx) as Hf.
  unfold round_half_even.
  destruct (Rlt_dec _ _); [exact Hf|].
  destruct (Rlt_dec _ _); [lia|].
  destruct (Z.even _); lia.
Qed.

Lemma hundredths_nonneg (x : R) : 0 <= hundredths x.
Proof.
  unfold hundredths. apply round_half_even_nonneg.
  pose proof (Rabs_pos x). lra.
Qed.

Lemma fmt_fixed2_Fin (x : R) :
  fmt_fixed2 (Fin x)
  = sign_text (if Rlt_dec x 0 then true else false)
      ++ fixed_text (hundredths x).
Proof. unfold fmt_fixed2, sign_text. destruct (Rlt_dec x 0); reflexivity. Qed.

Lemma two_digits_bounds (n : Z) :
  0 <= (n mod 100) / 10 <= 9 /\ 0 <= (n mod 100) mod 10 <= 9.
Proof.
  pose proof (Z.mod_pos_bound n 100 ltac:(lia)) as Hr.
  split; [|apply mod10_digit].
  split; [apply Z.div_pos; lia|].
  assert ((n mod 100) / 10 < 10) by (apply Z.div_lt_upper_bound; lia). lia.
Qed.

Lemma fixed_text_plain (n : Z) : 0 <= n -> plain (fixed_text n) = true.
Proof.
  intro Hn. unfold fixed_text.
  apply plain_append; [apply to_digits_plain; apply Z.div_pos; lia|].
  apply plain_append; [reflexivity|].
  destruct (two_digits_bounds n) as [H1 H2].
  unfold two_digits, plain. cbn [string_forall].
  rewrite !digit_plain by (apply is_digit_char; assumption). reflexivity.
Qed.

Lemma fmt_fixed2_plain (d : double) : plain (fmt_fixed2 d) = true.
Proof.
  destruct d as [x | [|] |]; try reflexivity.
  rewrite fmt_fixed2_Fin. apply plain_append.
  - destruct (Rlt_dec x 0); reflexivity.
  - apply fixed_text_plain. apply hundredths_nonneg.
Qed.

Lemma fixed_text_shape (n : Z) :
  0 <= n ->
  exists c d t rest,
    fixed_text n = String c (t ++ String "." rest)
    /\ digit_val c = Some d /\ string_forall is_digit t = true.
Proof.
  intro Hn. unfold fixed_text.
  destruct (to_digits_shape (n / 100) ltac:(apply Z.div_pos; lia))
    as (c & d & t & E & Hv & Ht).
  exists c, d, t, (two_digits (n mod 100)). rewrite E. auto.
Qed.

Lemma fmt_fixed2_nonempty (d : double) :
  exists c t, fmt_fixed2 d = String c t.
Proof.
  destruct d as [x | [|] |]; try (eexists; eexists; reflexivity).
  rewrite fmt_fixed2_Fin.
  destruct (fixed_text_shape (hundredths x) (hundredths_nonneg x))
    as (c & d & t & rest & E & _).
  rewrite E. destruct (Rlt_dec x 0); eexists; eexists; reflexivity.
Qed.

Lemma digit_not_inf_nan (c : ascii) (d : Z) (s : string) :
  digit_val c = Some d ->
  prefix_nocase "inf" (String c s) = false
  /\ prefix_nocase "nan" (String c s) = false.
Proof. intro H. digit_cases c; split; reflexivity. Qed.

Lemma digits_not_hex_prefix (c : ascii) (d : Z) (t rest : string) :
  digit_val c = Some d -> string_forall is_digit t = true ->
  prefix_nocase "0x" (String c (t ++ String "." rest)) = false.
Proof.
  intros Hc Ht. cbn [prefix_nocase].
  destruct (Ascii.eqb "0" (tolower c)); [|reflexivity]. cbn [andb].
  destruct t as [|c2 t].
  - reflexivity.
  - cbn [string_forall] in Ht. apply andb_prop in Ht. destruct Ht as [H2 _].
    destruct (is_digit_val c2 H2) as (d2 & Hv2).
    cbn [append]. clear Hc. digit_cases c2; reflexivity.
Qed.

Section StodFixed.
Context {FA : FloatArith}.

Lemma strtod_decimal_fixed (neg : bool) (n : Z) :
  0 <= n ->
  strtod_decimal neg (fixed_text n)
  = Some (Fin (rnd (IZR (signed neg n) / 100))).
Proof.
  intro Hn. unfold strtod_decimal, scan_significand, fixed_text.
  destruct (scan_to_digits (n / 100) ("." ++ two_digits (n mod 100))
              ltac:(apply Z.div_pos; lia)) as (k & Hk).
  rewrite Hk. clear Hk.
  change ("." ++ two_digits (n mod 100))
    with (String "." (two_digits (n mod 100))).
  cbn [scan_digits]. change (digit_val ".") with (@None Z). cbv iota.
  destruct (two_digits_bounds n) as [H1 H2].
  unfold two_digits. rewrite !scan_digits_digit by assumption.
  cbn [scan_digits]. cbv iota beta.
  change (scan_exponent "e" EmptyString) with 0.
  replace (10 * (10 * (n / 100) + n mod 100 / 10) + (n mod 100) mod 10)
    with n.
  - reflexivity.
  - pose proof (Z.div_mod n 100 ltac:(lia)).
    pose proof (Z.div_mod (n mod 100) 10 ltac:(lia)). lia.
Qed.

Lemma stod_fixed (neg : bool) (n : Z) :
  0 <= n ->
  stod (sign_text neg ++ fixed_text n)
  = Some (Fin (rnd (IZR (signed neg n) / 100))).
Proof.
  intro Hn. rewrite <- (strtod_decimal_fixed neg n Hn).
  destruct (fixed_text_shape n Hn) as (c & d & t & rest & E & Hc & Ht).
  destruct (digit_not_inf_nan c d (t ++ String "." rest) Hc) as [Hinf Hnan].
  pose proof (digits_not_hex_prefix c d t rest Hc Ht) as Hhex.
  unfold stod. rewrite E in *.
  destruct neg; cbn [sign_text append skip_while].
  - change (isspace "-") with false. cbv iota. cbn [scan_sign].
    rewrite Hinf, Hnan, Hhex. reflexivity.
  - rewrite (digit_not_space c d Hc). rewrite (digit_no_sign c d _ Hc).
    rewrite Hinf, Hnan, Hhex. reflexivity.
Qed.

(** [stod] reads back what [fixed << setprecision(2)] wrote: the value with
    two decimals. *)
Lemma stod_fmt_fixed2 (d : double) : stod (fmt_fixed2 d) = Some (to_2dp d).
Proof.
  destruct d as [x | [|] |]; try reflexivity.
  rewrite fmt_fixed2_Fin. rewrite stod_fixed by apply hundredths_nonneg.
  reflexivity.
Qed.
End StodFixed.

(** ** Writing a record and reading it back *)

Lemma csv_line_body (r : Result) : csv_line r = csv_body r ++ nl.
Proof.
  unfold csv_line, csv_body, quoted. rewrite !append_assoc. reflexivity.
Qed.

Lemma csv_body_starts (r : Result) :
  exists t, csv_body r = String ch_quote t.
Proof. unfold csv_body, quoted, quote. cbn [append]. eauto. Qed.

Lemma plain_lacks_nl (s : string) : plain s = true -> lacks ch_nl s = true.
Proof. intro H. apply plain_lacks. exact H. Qed.

Lemma quoted_lacks_nl (s : string) :
  lacks ch_nl s = true -> lacks ch_nl (quoted s) = true.
Proof.
  intro H. unfold quoted. apply lacks_append; [reflexivity|].
  apply lacks_append; [exact H | reflexivity].
Qed.

Lemma csv_body_lacks_nl (r : Result) :
  lacks ch_nl (timestamp r) = true -> lacks ch_nl (playerName r) = true ->
  lacks ch_nl (difficulty r) = true ->
  lacks ch_nl (csv_body r) = true.
Proof.
  intros Ht Hp Hd. unfold csv_body.
  repeat (apply lacks_append;
          [first [ reflexivity
                 | apply quoted_lacks_nl; assumption
                 | apply plain_lacks_nl, to_string_plain
                 | apply plain_lacks_nl, fmt_fixed2_plain ] |]).
  apply plain_lacks_nl, fmt_fixed2_plain.
Qed.

Lemma csv_body_one_line (r : Result) :
  storable r -> lacks ch_nl (csv_body r) = true.
Proof.
  intros (Ht & Hp & Hd & _ & _).
  apply csv_body_lacks_nl; apply plain_lacks_nl; assumption.
Qed.

Section RoundTrip.
Context {FA : FloatArith}.

Lemma parse_line_csv_body (r : Result) :
  storable r -> parse_line (csv_body r) = Parsed (reread r).
Proof.
  intros (Ht & Hp & Hd & Ha & Hs). unfold parse_line, csv_body.
  rewrite next_item_field by (apply plain_lacks, quoted_plain; exact Ht).
  cbn [parse_bind]. cbv beta iota.
  rewrite next_item_field by (apply plain_lacks, quoted_plain; exact Hp).
  cbn [parse_bind]. cbv beta iota.
  rewrite next_item_field by (apply plain_lacks, quoted_plain; exact Hd).
  cbn [parse_bind]. cbv beta iota.
  rewrite next_item_field by apply plain_lacks, to_string_plain.
  cbn [parse_bind]. cbv beta iota.
  rewrite (stoi_to_string _ Ha). cbn [or_throw parse_bind]. cbv beta iota.
  rewrite next_item_field by apply plain_lacks, fmt_fixed2_plain.
  cbn [parse_bind]. cbv beta iota.
  rewrite stod_fmt_fixed2. cbn [or_throw parse_bind]. cbv beta iota.
  rewrite next_item_field by apply plain_lacks, to_string_plain.
  cbn [parse_bind]. cbv beta iota.
  rewrite (stoi_to_string _ Hs). cbn [or_throw parse_bind]. cbv beta iota.
  destruct (fmt_fixed2_nonempty (score r)) as (c & t & E).
  pose proof (proj1 (plain_lacks _ (fmt_fixed2_plain (score r)))) as Hlast.
  pose proof (stod_fmt_fixed2 (score r)) as Hscore.
  rewrite E in Hlast, Hscore |- *.
  rewrite (next_item_last c t Hlast).
  cbn [parse_bind]. cbv beta iota.
  rewrite Hscore. cbn [or_throw parse_bind]. cbv beta iota.
  rewrite !strip_quotes_quoted. reflexivity.
Qed.

(** C8, amended: on a leaderboard file that can be written and is missing
    or empty, appending a record and then reading one record returns exactly
    that record, its seconds and its score with two decimals, provided its
    text fields hold no comma and no line feed. *)
Theorem append_then_read_first (r : Result) (w : World) :
  w_writable w = true ->
  w_file w = None \/ w_file w = Some EmptyString ->
  storable r ->
  (append_to_leaderboard r ;; read_leaderboard 1) w
  = Done [reread r] (with_file w (csv_line r)).
Proof.
  intros Hwr Hfile Hr.
  assert (Happ : append_to_leaderboard r w
                 = Done tt (with_file w (csv_line r))).
  { unfold append_to_leaderboard, with_file. rewrite Hwr.
    destruct Hfile as [-> | ->]; reflexivity. }
  unfold bind. rewrite Happ.
  unfold read_leaderboard. cbn [with_file w_file read_leaderboard_loop].
  rewrite csv_line_body. unfold nl at 1.
  rewrite (getline_found ch_nl (csv_body r) EmptyString
             (csv_body_one_line r Hr)).
  rewrite (parse_line_csv_body r Hr).
  destruct (csv_body_starts r) as (t & E). rewrite E.
  reflexivity.
Qed.
End RoundTrip.

Lemma read_alice_first {FA : FloatArith} (rest : string) (fuel : nat)
    (w : World) :
  exists e sc,
    read_leaderboard_loop (S fuel) 1 (alice_line ++ rest) [] w
    = Done [mkResult "alice" "Easy (1-20)" 3 e 7 sc "2024-01-01 10:00:00"] w.
Proof.
  eexists. eexists. lazy -[IZR Rdiv rnd]. reflexivity.
Qed.

(** C8 as stated fails on a file that already holds a record: reading one
    record after appending bob's game returns the game of alice, the first
    in the file. *)
Lemma append_then_read_returns_oldest :
  storable bob_game
  /\ exists out w',
      (append_to_leaderboard bob_game ;; @read_leaderboard exact_arith 1)
        (console [] (Some alice_line))
      = Done out w'
      /\ map playerName out = ["alice"]
      /\ playerName bob_game = "bob".
Proof.
  split.
  - unfold storable, is_int, INT_MIN, INT_MAX. simpl.
    repeat split; (reflexivity || lia).
  - unfold bind, append_to_leaderboard, read_leaderboard.
    cbn [console w_writable w_file w_stdin w_stdout w_stderr].
    match goal with
    | |- context [read_leaderboard_loop (S ?f) 1 (alice_line ++ ?rest) [] ?w] =>
        destruct (@read_alice_first exact_arith rest f w) as (e & sc & E);
        rewrite E
    end.
    eexists. eexists. split; [reflexivity|]. split; reflexivity.
Qed.

(** An instance: bob's game appended to a missing file. *)
Lemma append_then_read_first_witness :
  storable bob_game
  /\ (append_to_leaderboard bob_game ;; @read_leaderboard exact_arith 1)
       (console [] None)
     = Done [@reread exact_arith bob_game]
            (with_file (console [] None) (csv_line bob_game)).
Proof.
  assert (H : storable bob_game).
  { unfold storable, is_int, INT_MIN, INT_MAX. simpl.
    repeat split; (reflexivity || lia). }
  split; [exact H|].
  apply (@append_then_read_first exact_arith bob_game (console [] None));
    [reflexivity | left; reflexivity | exact H].
Defined.

(** An instance: three attempts score no more than two. *)
Lemma compute_score_monotone_witness :
  2 <= 3
  /\ (@compute_score exact_arith 3 10 cfg_medium
      <= @compute_score exact_arith 2 10 cfg_medium)%R.
Proof.
  assert (H : 2 <= 3) by lia.
  split; [exact H|].
  exact (proj1 (@compute_score_monotone exact_arith cfg_medium) 2 3 10%R H).
Defined.



(** ** A line that ends the read *)

Section BadLine.
Context {FA : FloatArith}.

Lemma parse_line_comma_name (e sc : double) :
  parse_line (csv_body (comma_name_game e sc)) = Thrown.
Proof.
  unfold csv_body, comma_name_game.
  cbn [timestamp playerName difficulty attempts elapsedSeconds
       secretNumber score].
  generalize (fmt_fixed2 e) as fe. generalize (fmt_fixed2 sc) as fs.
  intros fs fe. vm_compute. reflexivity.
Qed.

(** C1, on the code: a line whose attempts field is not a number is not
    skipped: [stoi] throws, nothing catches the exception, and the read ends
    the program instead of returning the records.  The program writes such
    a line itself when the player's name holds a comma: the quoted
    difficulty is then read as the attempts. *)
Theorem read_leaderboard_bad_number_terminates :
  read_leaderboard 10 (console [] (Some line_with_bad_attempts))
  = Terminate (console [] (Some line_with_bad_attempts))
  /\ (forall (e sc : double) (w : World),
        w_writable w = true -> w_file w = None ->
        (append_to_leaderboard (comma_name_game e sc) ;; read_leaderboard 10) w
        = Terminate (with_file w (csv_line (comma_name_game e sc)))).
Proof.
  split; [vm_compute; reflexivity|].
  intros e sc w Hwr Hfile.
  unfold bind, append_to_leaderboard. rewrite Hwr, Hfile. cbn [append].
  unfold read_leaderboard. cbn [w_file read_leaderboard_loop].
  rewrite csv_line_body. unfold nl at 1.
  rewrite getline_found by (apply csv_body_lacks_nl; reflexivity).
  rewrite parse_line_comma_name.
  destruct (csv_body_starts (comma_name_game e sc)) as (t & E). rewrite E.
  unfold with_file. rewrite Hwr. reflexivity.
Qed.
End BadLine.

(** * Further properties *)

(** ** Runs and what they leave behind *)

Lemma follows_refl (w : World) : follows w w.
Proof.
  unfold follows. split; [exists []; reflexivity|].
  split; [exists EmptyString; now rewrite append_nil_r|].
  split; [exists EmptyString; now rewrite append_nil_r|].
  split; [reflexivity|]. split; [reflexivity|].
  intros c Hc. exists EmptyString. now rewrite append_nil_r.
Qed.

Lemma follows_trans (w1 w2 w3 : World) :
  follows w1 w2 -> follows w2 w3 -> follows w1 w3.
Proof.
  intros (I1 & O1 & E1 & W1 & U1 & F1) (I2 & O2 & E2 & W2 & U2 & F2).
  unfold follows.
  split.
  { destruct I1 as [r1 H1], I2 as [r2 H2]. exists (r1 ++ r2)%list.
    rewrite H1, H2. now rewrite app_assoc. }
  split.
  { destruct O1 as [o1 H1], O2 as [o2 H2]. exists (o1 ++ o2).
    rewrite H2, H1. now rewrite append_assoc. }
  split.
  { destruct E1 as [e1 H1], E2 as [e2 H2]. exists (e1 ++ e2).
    rewrite H2, H1. now rewrite append_assoc. }
  split; [congruence|].
  split.
  { intro H. rewrite U2 by congruence. apply U1. exact H. }
  intros c Hc. destruct (F1 c Hc) as [t1 H1].
  destruct (F2 _ H1) as [t2 H2]. exists (t1 ++ t2).
  rewrite H2. now rewrite append_assoc.
Qed.

Lemma follows_say (w : World) (s : string) : follows w (say w s).
Proof.
  unfold follows, say; simpl. split; [exists []; reflexivity|].
  split; [exists s; reflexivity|].
  split; [exists EmptyString; now rewrite append_nil_r|].
  split; [reflexivity|]. split; [reflexivity|].
  intros c Hc. exists EmptyString. now rewrite append_nil_r.
Qed.

Lemma proper_bind {A B} (m : IO A) (k : A -> IO B) (w : World) :
  proper (m w) w ->
  (forall a w1, m w = Done a w1 -> proper (k a w1) w1) ->
  proper (bind m k w) w.
Proof.
  unfold bind. intros Hm Hk.
  destruct (m w) as [a w1| w1 | w1 |] eqn:E; simpl in *; auto.
  specialize (Hk a w1 eq_refl).
  destruct (k a w1) as [b w2 | w2 | w2 |]; simpl in *; auto.
  - eapply follows_trans; eauto.
  - destruct Hk. split; [eapply follows_trans; eauto | assumption].
  - destruct Hk. split; [eapply follows_trans; eauto | assumption].
Qed.

Lemma proper_cout (s : string) (w : World) : proper (cout s w) w.
Proof. unfold cout. simpl. apply follows_say. Qed.

Lemma proper_ret {A} (a : A) (w : World) : proper (ret a w) w.
Proof. simpl. apply follows_refl. Qed.

(** A step of a run repeated from a later world. *)
Lemma proper_later {A} (r : Run A) (w w1 : World) :
  follows w w1 -> proper r w1 -> proper r w.
Proof.
  intros H. destruct r; simpl; auto.
  - intro. eapply follows_trans; eauto.
  - intros []. split; [eapply follows_trans; eauto | assumption].
  - intros []. split; [eapply follows_trans; eauto | assumption].
Qed.

Lemma follows_read_line (w : World) (line : string) (rest : list string)
    (out : string) :
  w_stdin w = line :: rest ->
  follows w (mkWorld rest (w_stdout w ++ out) (w_stderr w) (w_file w)
                     (w_writable w)).
Proof.
  intro H. unfold follows; simpl. split; [exists [line]; now rewrite H|].
  split; [exists out; reflexivity|].
  split; [exists EmptyString; now rewrite append_nil_r|].
  split; [reflexivity|]. split; [reflexivity|].
  intros c Hc. exists EmptyString. now rewrite append_nil_r.
Qed.

(** ** Prompts *)

(** One turn of [prompt_int] on the line it reads. *)
Lemma prompt_int_loop_line (fuel : nat) (p : string) (lo hi : Z) (w : World)
    (line : string) (rest : list string) :
  w_stdin w = line :: rest ->
  prompt_int_loop (S fuel) p lo hi w =
  match trim_blank line with
  | None =>
      prompt_int_loop fuel p lo hi
        (after_line w (p ++ "Please enter a value." ++ nl))
  | Some trimmed =>
      match stoll_whole trimmed with
      | Some val =>
          if (val <? lo) || (val >? hi) then
            prompt_int_loop fuel p lo hi
              (after_line w (p ++ "Enter a number between " ++ to_string lo
                               ++ " and " ++ to_string hi ++ "." ++ nl))
          else Done val (after_line w p)
      | None =>
          prompt_int_loop fuel p lo hi
            (after_line w (p ++ "Invalid input. Please enter an integer."
                             ++ nl))
      end
  end.
Proof.
  intro Hin. cbn [prompt_int_loop].
  unfold bind at 1. unfold cout at 1. unfold bind at 1.
  unfold getline_cin at 1. cbn [say w_stdin]. rewrite Hin.
  unfold after_line. rewrite Hin. cbn [tl].
  cbn [w_stdout w_stderr w_file w_writable say].
  destruct (trim_blank line) as [trimmed|].
  - destruct (stoll_whole trimmed) as [val|].
    + destruct ((val <? lo) || (val >? hi)).
      * unfold bind, cout, say. cbn [w_stdin w_stdout w_stderr w_file w_writable].
        rewrite !append_assoc. reflexivity.
      * reflexivity.
    + unfold bind, cout, say. cbn [w_stdin w_stdout w_stderr w_file w_writable].
      rewrite !append_assoc. reflexivity.
  - unfold bind, cout, say. cbn [w_stdin w_stdout w_stderr w_file w_writable].
    rewrite !append_assoc. reflexivity.
Qed.

Lemma prompt_int_line (p : string) (lo hi : Z) (w : World) (line : string)
    (rest : list string) :
  w_stdin w = line :: rest ->
  prompt_int p lo hi w =
  match trim_blank line with
  | None =>
      prompt_int p lo hi (after_line w (p ++ "Please enter a value." ++ nl))
  | Some trimmed =>
      match stoll_whole trimmed with
      | Some val =>
          if (val <? lo) || (val >? hi) then
            prompt_int p lo hi
              (after_line w (p ++ "Enter a number between " ++ to_string lo
                               ++ " and " ++ to_string hi ++ "." ++ nl))
          else Done val (after_line w p)
      | None =>
          prompt_int p lo hi
            (after_line w (p ++ "Invalid input. Please enter an integer."
                             ++ nl))
      end
  end.
Proof.
  intro Hin.
  assert (Hfuel : forall out,
             prompt_int p lo hi (after_line w out)
             = prompt_int_loop (S (List.length rest)) p lo hi
                               (after_line w out)).
  { intro out. unfold prompt_int, after_line. rewrite Hin. reflexivity. }
  rewrite !Hfuel. unfold prompt_int at 1. rewrite Hin.
  change (List.length (line :: rest)) with (S (List.length rest)).
  exact (prompt_int_loop_line _ p lo hi w line rest Hin).
Qed.

Lemma prompt_int_eof (p : string) (lo hi : Z) (w : World) :
  w_stdin w = [] ->
  prompt_int p lo hi w
  = Exit (say w (p ++ nl ++ "Input error. Exiting." ++ nl)).
Proof.
  intro Hin. unfold prompt_int. rewrite Hin.
  cbn [List.length prompt_int_loop].
  unfold bind, cout, getline_cin, exit. cbn [say w_stdin]. rewrite Hin.
  rewrite say_say. reflexivity.
Qed.

Lemma follows_after_line (w : World) (out : string) :
  follows w (after_line w out).
Proof.
  destruct (w_stdin w) as [|line rest] eqn:Hin.
  - unfold follows, after_line. rewrite Hin. simpl.
    split; [exists []; reflexivity|].
    split; [exists out; reflexivity|].
    split; [exists EmptyString; now rewrite append_nil_r|].
    split; [reflexivity|]. split; [reflexivity|].
    intros c Hc. exists EmptyString. now rewrite append_nil_r.
  - unfold after_line. rewrite Hin.
    exact (follows_read_line w line rest out Hin).
Qed.

Lemma prompt_int_proper (p : string) (lo hi : Z) :
  forall w, proper (prompt_int p lo hi w) w.
Proof.
  intro w. remember (List.length (w_stdin w)) as n eqn:Hn.
  revert w Hn. induction n as [|n IH]; intros w Hn.
  - destruct (w_stdin w) eqn:Hin; [|discriminate].
    rewrite (prompt_int_eof p lo hi w Hin). simpl.
    split; [apply follows_say | exact Hin].
  - destruct (w_stdin w) as [|line rest] eqn:Hin; [discriminate|].
    simpl in Hn.
    assert (Hrec : forall out,
               proper (prompt_int p lo hi (after_line w out)) w).
    { intro out. eapply proper_later; [apply follows_after_line|].
      apply IH. unfold after_line. rewrite Hin. simpl. lia. }
    rewrite (prompt_int_line p lo hi w line rest Hin).
    destruct (trim_blank line) as [trimmed|]; [|apply Hrec].
    destruct (stoll_whole trimmed) as [val|]; [|apply Hrec].
    destruct ((val <? lo) || (val >? hi)); [apply Hrec|].
    simpl. apply follows_after_line.
Qed.

Lemma quiet_refl (w : World) : quiet w w.
Proof. unfold quiet. auto. Qed.

Lemma quiet_trans (w1 w2 w3 : World) :
  quiet w1 w2 -> quiet w2 w3 -> quiet w1 w3.
Proof. unfold quiet. intros (A & B & C) (D & E & F). repeat split; congruence. Qed.

Lemma quiet_say (w : World) (s : string) : quiet w (say w s).
Proof. unfold quiet, say. simpl. auto. Qed.

Lemma quiet_after_line (w : World) (out : string) : quiet w (after_line w out).
Proof. unfold quiet, after_line. simpl. auto. Qed.

Lemma console_only_bind {A B} (m : IO A) (k : A -> IO B) (w : World) :
  console_only (m w) w ->
  (forall a w1, m w = Done a w1 -> console_only (k a w1) w1) ->
  console_only (bind m k w) w.
Proof.
  unfold bind. intros Hm Hk.
  destruct (m w) as [a w1| w1 | w1 |] eqn:E; simpl in *; auto.
  specialize (Hk a w1 eq_refl).
  destruct (k a w1) as [b w2 | w2 | w2 |]; simpl in *; auto;
    eapply quiet_trans; eauto.
Qed.

Lemma console_only_later {A} (r : Run A) (w w1 : World) :
  quiet w w1 -> console_only r w1 -> console_only r w.
Proof.
  intro H. destruct r; simpl; auto; intro; eapply quiet_trans; eauto.
Qed.

Lemma console_only_cout (s : string) (w : World) : console_only (cout s w) w.
Proof. unfold cout. simpl. apply quiet_say. Qed.

Lemma prompt_int_console_only (p : string) (lo hi : Z) :
  forall w, console_only (prompt_int p lo hi w) w.
Proof.
  intro w. remember (List.length (w_stdin w)) as n eqn:Hn.
  revert w Hn. induction n as [|n IH]; intros w Hn.
  - destruct (w_stdin w) eqn:Hin; [|discriminate].
    rewrite (prompt_int_eof p lo hi w Hin). simpl. apply quiet_say.
  - destruct (w_stdin w) as [|line rest] eqn:Hin; [discriminate|].
    simpl in Hn.
    assert (Hrec : forall out,
               console_only (prompt_int p lo hi (after_line w out)) w).
    { intro out. eapply console_only_later; [apply quiet_after_line|].
      apply IH. unfold after_line. rewrite Hin. simpl. lia. }
    rewrite (prompt_int_line p lo hi w line rest Hin).
    destruct (trim_blank line) as [trimmed|]; [|apply Hrec].
    destruct (stoll_whole trimmed) as [val|]; [|apply Hrec].
    destruct ((val <? lo) || (val >? hi)); [apply Hrec|].
    simpl. apply quiet_after_line.
Qed.

(** X1: [prompt_int] answers only with a value inside the allowed bounds,
    having read at least one line; it throws nothing; it ends the program
    only when the input is at its end; and it leaves the leaderboard file
    and [cerr] alone. *)
Theorem prompt_int_answers (p : string) (lo hi : Z) (w : World) :
  match prompt_int p lo hi w with
  | Done v w' =>
      lo <= v <= hi
      /\ (List.length (w_stdin w') < List.length (w_stdin w))%nat
      /\ follows w w' /\ quiet w w'
  | Exit w' => w_stdin w' = [] /\ follows w w' /\ quiet w w'
  | Terminate _ | OutOfFuel => False
  end.
Proof.
  pose proof (prompt_int_spec p lo hi w) as Hs.
  pose proof (prompt_int_proper p lo hi w) as Hp.
  pose proof (prompt_int_console_only p lo hi w) as Hq.
  destruct (prompt_int p lo hi w) as [v w' | w' | w' |]; simpl in *; auto.
  - destruct Hs as [Hv (Hl & _)]. auto.
  - destruct Hp as [Hf Hin]. auto.
Qed.

(** *** Trimming *)

Lemma skip_blank_prefix (l x : string) :
  string_forall is_blank l = true ->
  skip_while is_blank (l ++ x) = skip_while is_blank x.
Proof.
  induction l as [|c l IH]; cbn [append string_forall skip_while].
  - reflexivity.
  - intro H. apply andb_prop in H. destruct H as [Hc Hl].
    rewrite Hc. apply IH. exact Hl.
Qed.

Lemma rev_string_append (a b acc : string) :
  rev_string (a ++ b) acc = rev_string b (rev_string a acc).
Proof.
  revert acc. induction a as [|c a IH]; intro acc; cbn [append rev_string].
  - reflexivity.
  - apply IH.
Qed.

Lemma skip_rev_blank (r x : string) :
  string_forall is_blank r = true ->
  skip_while is_blank (rev_string r x) = skip_while is_blank x.
Proof.
  revert x. induction r as [|c r IH]; intro x;
    cbn [rev_string string_forall].
  - reflexivity.
  - intro H. apply andb_prop in H. destruct H as [Hc Hr].
    rewrite (IH _ Hr). cbn [skip_while]. rewrite Hc. reflexivity.
Qed.

Lemma rev_string_rev_string (a b c : string) :
  rev_string (rev_string a b) c = rev_string b (a ++ c).
Proof.
  revert b c. induction a as [|x a IH]; intros b c;
    cbn [rev_string append].
  - reflexivity.
  - rewrite IH. reflexivity.
Qed.

(** A text that is not empty ends with a last character. *)
Lemma string_last (p : ascii -> bool) (c : ascii) (t : string) :
  string_forall p (String c t) = true ->
  exists s0 d, String c t = s0 ++ String d EmptyString /\ p d = true.
Proof.
  revert c. induction t as [|c' t IH]; intros c H.
  - exists EmptyString, c. cbn [string_forall] in H.
    apply andb_prop in H. destruct H as [Hc _]. auto.
  - cbn [string_forall] in H. apply andb_prop in H. destruct H as [Hc Ht].
    destruct (IH c' Ht) as (s0 & d & E & Hd).
    exists (String c s0), d. rewrite E. auto.
Qed.

(** Trimming takes the blanks off both ends of a text without blanks. *)
Lemma trim_blank_solid (l r : string) (c : ascii) (t : string) :
  string_forall is_blank l = true -> string_forall is_blank r = true ->
  solid (String c t) = true ->
  trim_blank (l ++ String c t ++ r) = Some (String c t).
Proof.
  intros Hl Hr Hs. unfold trim_blank. rewrite (skip_blank_prefix _ _ Hl).
  assert (Hc : is_blank c = false).
  { unfold solid in Hs. cbn [string_forall] in Hs. apply andb_prop in Hs.
    destruct Hs as [Hc _]. apply negb_true_iff in Hc. exact Hc. }
  destruct (string_last _ c t Hs) as (s0 & d & E & Hd).
  apply negb_true_iff in Hd.
  cbn [append skip_while]. rewrite Hc.
  change (String c (t ++ r)) with (String c t ++ r).
  rewrite E. rewrite rev_string_append. rewrite (skip_rev_blank _ _ Hr).
  rewrite rev_string_append. cbn [rev_string skip_while]. rewrite Hd.
  cbn [rev_string]. rewrite rev_string_rev_string. reflexivity.
Qed.

Lemma digit_solid (c : ascii) : is_digit c = true -> negb (is_blank c) = true.
Proof.
  intro H. destruct (is_digit_val c H) as (d & Hv).
  digit_cases c; reflexivity.
Qed.

Lemma to_string_solid (z : Z) : solid (to_string z) = true.
Proof.
  assert (Hd : forall n, 0 <= n -> solid (to_digits n) = true).
  { intros n Hn. unfold solid.
    apply string_forall_impl with (p := is_digit); [exact digit_solid|].
    apply to_digits_digits. exact Hn. }
  unfold to_string. destruct (Z.ltb_spec z 0).
  - unfold solid. cbn [string_forall].
    change (negb (is_blank "-")) with true. cbn [andb]. apply Hd. lia.
  - apply Hd. assumption.
Qed.

Lemma to_string_starts (z : Z) : exists c t, to_string z = String c t.
Proof.
  unfold to_string. destruct (z <? 0); [eauto|]. apply to_digits_nonempty.
Qed.

(** [strtol] reads the decimal text of a number and stops at what follows
    it, when that is no digit. *)
Lemma strtol_to_string_then (z : Z) (rest : string) :
  match rest with
  | EmptyString => True
  | String c _ => digit_val c = None
  end ->
  strtol (to_string z ++ rest) = Some (z, rest).
Proof.
  intro Hrest.
  assert (Hstop : forall n k,
             scan_digits digit_val 10 n (S k) rest = (n, S k, rest)).
  { intros n k. destruct rest as [|c r]; [reflexivity|].
    cbn [scan_digits]. rewrite Hrest. reflexivity. }
  unfold to_string. destruct (Z.ltb_spec z 0) as [Hneg | Hpos].
  - unfold strtol. cbn [append skip_while]. change (isspace "-") with false.
    cbv iota. cbn [scan_sign].
    destruct (scan_to_digits (- z) rest ltac:(lia)) as (k & Hk).
    rewrite Hk, Hstop. f_equal. f_equal. lia.
  - unfold strtol.
    destruct (to_digits_shape z Hpos) as (c & d & t & E & Hv & _).
    rewrite E. cbn [append skip_while]. rewrite (digit_not_space c d Hv).
    rewrite (digit_no_sign c d _ Hv).
    change (String c (t ++ rest)) with (String c t ++ rest). rewrite <- E.
    destruct (scan_to_digits z rest Hpos) as (k & Hk).
    rewrite Hk, Hstop. reflexivity.
Qed.

Lemma stoll_whole_to_string (z : Z) :
  stoll_whole (to_string z)
  = if (LLONG_MIN <=? z) && (z <=? LLONG_MAX) then Some z else None.
Proof.
  unfold stoll_whole.
  pose proof (strtol_to_string_then z EmptyString I) as H.
  rewrite append_nil_r in H. rewrite H. reflexivity.
Qed.

Lemma trim_blank_to_string (l r : string) (z : Z) :
  string_forall is_blank l = true -> string_forall is_blank r = true ->
  trim_blank (l ++ to_string z ++ r) = Some (to_string z).
Proof.
  intros Hl Hr. destruct (to_string_starts z) as (c & t & E).
  pose proof (to_string_solid z) as Hs. rewrite E in *.
  apply trim_blank_solid; assumption.
Qed.

Lemma prompt_int_reads (p : string) (lo hi v : Z) (w : World)
    (l r : string) (rest : list string) :
  is_int lo -> is_int hi -> lo <= v <= hi ->
  string_forall is_blank l = true -> string_forall is_blank r = true ->
  w_stdin w = (l ++ to_string v ++ r) :: rest ->
  prompt_int p lo hi w = Done v (after_line w p).
Proof.
  intros Hlo Hhi Hv Hl Hr Hin.
  rewrite (prompt_int_line p lo hi w _ rest Hin).
  rewrite (trim_blank_to_string l r v Hl Hr).
  rewrite stoll_whole_to_string.
  unfold is_int, INT_MIN, INT_MAX in *.
  destruct (Z.leb_spec LLONG_MIN v); [|unfold LLONG_MIN in *; lia].
  destruct (Z.leb_spec v LLONG_MAX); [|unfold LLONG_MAX in *; lia].
  cbn [andb]. rewrite Z.gtb_ltb.
  destruct (Z.ltb_spec v lo); [lia|].
  destruct (Z.ltb_spec hi v); [lia|]. reflexivity.
Qed.

(** X2: an integer inside the bounds, written in decimal with any blanks
    before and after it, is accepted by [prompt_int] at once: the prompt is
    shown once, nothing else is written, and the line is the only one
    read. *)
Theorem prompt_int_accepts (p : string) (lo hi v : Z) (w : World)
    (l r : string) (rest : list string) :
  is_int lo -> is_int hi -> lo <= v <= hi ->
  string_forall is_blank l = true -> string_forall is_blank r = true ->
  w_stdin w = (l ++ to_string v ++ r) :: rest ->
  prompt_int p lo hi w = Done v (after_line w p)
  /\ w_stdin (after_line w p) = rest.
Proof.
  intros Hlo Hhi Hv Hl Hr Hin.
  split; [|unfold after_line; rewrite Hin; reflexivity].
  exact (prompt_int_reads p lo hi v w l r rest Hlo Hhi Hv Hl Hr Hin).
Qed.

(** An instance: the guess 42 typed with blanks around it. *)
Lemma prompt_int_accepts_witness :
  let w := console ["  42 "; "next"] None in
  prompt_int "Guess: " 1 100 w = Done 42 (after_line w "Guess: ")
  /\ w_stdin (after_line w "Guess: ") = ["next"].
Proof.
  intro w.
  apply (prompt_int_accepts "Guess: " 1 100 42 w "  " " " ["next"]);
    try reflexivity; unfold is_int, INT_MIN, INT_MAX; lia.
Defined.

(** X3: [prompt_int] takes no line for a number that is not one.  A blank
    line, a number outside the bounds, a number that does not fit a
    [long long], and a number followed by anything else (as in 12abc or 3.5)
    are each answered with their diagnostic, and the prompt starts again on
    the next line. *)
Theorem prompt_int_rejects (p : string) (lo hi : Z) (w : World)
    (rest : list string) :
  (forall line,
      string_forall is_blank line = true ->
      w_stdin w = line :: rest ->
      prompt_int p lo hi w
      = prompt_int p lo hi
          (after_line w (p ++ "Please enter a value." ++ nl)))
  /\ (forall v,
        LLONG_MIN <= v <= LLONG_MAX -> v < lo \/ hi < v ->
        w_stdin w = to_string v :: rest ->
        prompt_int p lo hi w
        = prompt_int p lo hi
            (after_line w (p ++ "Enter a number between " ++ to_string lo
                             ++ " and " ++ to_string hi ++ "." ++ nl)))
  /\ (forall v,
        v < LLONG_MIN \/ LLONG_MAX < v ->
        w_stdin w = to_string v :: rest ->
        prompt_int p lo hi w
        = prompt_int p lo hi
            (after_line w (p ++ "Invalid input. Please enter an integer."
                             ++ nl)))
  /\ (forall v c junk,
        digit_val c = None -> solid (String c junk) = true ->
        w_stdin w = (to_string v ++ String c junk) :: rest ->
        prompt_int p lo hi w
        = prompt_int p lo hi
            (after_line w (p ++ "Invalid input. Please enter an integer."
                             ++ nl))).
Proof.
  split; [|split; [|split]].
  - intros line Hblank Hin.
    rewrite (prompt_int_line p lo hi w _ rest Hin).
    unfold trim_blank.
    pose proof (skip_blank_prefix line EmptyString Hblank) as H.
    rewrite append_nil_r in H. rewrite H. reflexivity.
  - intros v Hll Hout Hin.
    rewrite (prompt_int_line p lo hi w _ rest Hin).
    pose proof (trim_blank_to_string EmptyString EmptyString v
                  eq_refl eq_refl) as Ht.
    cbn [append] in Ht. rewrite append_nil_r in Ht. rewrite Ht.
    rewrite stoll_whole_to_string.
    destruct (Z.leb_spec LLONG_MIN v); [|lia].
    destruct (Z.leb_spec v LLONG_MAX); [|lia].
    cbn [andb]. rewrite Z.gtb_ltb.
    destruct (Z.ltb_spec v lo); [reflexivity|].
    destruct (Z.ltb_spec hi v); [reflexivity | lia].
  - intros v Hout Hin.
    rewrite (prompt_int_line p lo hi w _ rest Hin).
    pose proof (trim_blank_to_string EmptyString EmptyString v
                  eq_refl eq_refl) as Ht.
    cbn [append] in Ht. rewrite append_nil_r in Ht. rewrite Ht.
    rewrite stoll_whole_to_string.
    destruct (Z.leb_spec LLONG_MIN v); destruct (Z.leb_spec v LLONG_MAX);
      cbn [andb]; try reflexivity; lia.
  - intros v c junk Hc Hjunk Hin.
    rewrite (prompt_int_line p lo hi w _ rest Hin).
    destruct (to_string_starts v) as (c0 & t0 & E).
    assert (Hsolid : solid (String c0 (t0 ++ String c junk)) = true).
    { change (String c0 (t0 ++ String c junk))
        with (String c0 t0 ++ String c junk).
      rewrite <- E. unfold solid. rewrite string_forall_append.
      pose proof (to_string_solid v) as Hs. unfold solid in Hs, Hjunk.
      rewrite Hs, Hjunk. reflexivity. }
    pose proof (trim_blank_solid EmptyString EmptyString c0
                  (t0 ++ String c junk) eq_refl eq_refl Hsolid) as Ht.
    cbn [append] in Ht. rewrite append_nil_r in Ht.
    change (String c0 (t0 ++ String c junk))
      with (String c0 t0 ++ String c junk) in Ht.
    rewrite <- E in Ht. rewrite Ht.
    unfold stoll_whole.
    rewrite (strtol_to_string_then v (String c junk) Hc). reflexivity.
Qed.

(** An instance: 3.5 is not taken for 3. *)
Lemma prompt_int_rejects_witness :
  let w := console ["3.5"; "7"] None in
  prompt_int "Guess: " 1 100 w
  = prompt_int "Guess: " 1 100
      (after_line w ("Guess: " ++ "Invalid input. Please enter an integer."
                       ++ nl)).
Proof.
  intro w.
  exact (proj2 (proj2 (proj2 (prompt_int_rejects "Guess: " 1 100 w ["7"])))
           3 "."%char "5" eq_refl eq_refl eq_refl).
Defined.

(** *** Yes or no *)

Lemma prompt_yesno_loop_line (fuel : nat) (p : string) (w : World)
    (line : string) (rest : list string) :
  w_stdin w = line :: rest ->
  prompt_yesno_loop (S fuel) p w =
  match skip_while is_blank line with
  | EmptyString => prompt_yesno_loop fuel p (after_line w (p ++ " (y/n): "))
  | String c0 _ =>
      if Ascii.eqb (tolower c0) "y" then
        Done true (after_line w (p ++ " (y/n): "))
      else if Ascii.eqb (tolower c0) "n" then
        Done false (after_line w (p ++ " (y/n): "))
      else
        prompt_yesno_loop fuel p
          (after_line w (p ++ " (y/n): " ++ "Please reply with 'y' or 'n'."
                           ++ nl))
  end.
Proof.
  intro Hin. cbn [prompt_yesno_loop].
  unfold bind at 1. unfold cout at 1. unfold bind at 1.
  unfold getline_cin at 1. cbn [say w_stdin]. rewrite Hin.
  unfold after_line. rewrite Hin. cbn [tl].
  cbn [w_stdout w_stderr w_file w_writable say].
  destruct (skip_while is_blank line) as [|c0 t]; [reflexivity|].
  destruct (Ascii.eqb (tolower c0) "y"); [reflexivity|].
  destruct (Ascii.eqb (tolower c0) "n"); [reflexivity|].
  unfold bind, cout, say. cbn [w_stdin w_stdout w_stderr w_file w_writable].
  rewrite !append_assoc. reflexivity.
Qed.

Lemma prompt_yesno_line (p : string) (w : World) (line : string)
    (rest : list string) :
  w_stdin w = line :: rest ->
  prompt_yesno p w =
  match skip_while is_blank line with
  | EmptyString => prompt_yesno p (after_line w (p ++ " (y/n): "))
  | String c0 _ =>
      if Ascii.eqb (tolower c0) "y" then
        Done true (after_line w (p ++ " (y/n): "))
      else if Ascii.eqb (tolower c0) "n" then
        Done false (after_line w (p ++ " (y/n): "))
      else
        prompt_yesno p
          (after_line w (p ++ " (y/n): " ++ "Please reply with 'y' or 'n'."
                           ++ nl))
  end.
Proof.
  intro Hin.
  assert (Hfuel : forall out,
             prompt_yesno p (after_line w out)
             = prompt_yesno_loop (S (List.length rest)) p (after_line w out)).
  { intro out. unfold prompt_yesno, after_line. rewrite Hin. reflexivity. }
  rewrite !Hfuel. unfold prompt_yesno at 1. rewrite Hin.
  change (List.length (line :: rest)) with (S (List.length rest)).
  exact (prompt_yesno_loop_line _ p w line rest Hin).
Qed.

Lemma prompt_yesno_eof (p : string) (w : World) :
  w_stdin w = [] -> prompt_yesno p w = Exit (say w (p ++ " (y/n): ")).
Proof.
  intro Hin. unfold prompt_yesno. rewrite Hin.
  cbn [List.length prompt_yesno_loop].
  unfold bind, cout, getline_cin, exit. cbn [say w_stdin]. rewrite Hin.
  reflexivity.
Qed.

Lemma prompt_yesno_proper (p : string) :
  forall w, proper (prompt_yesno p w) w /\ console_only (prompt_yesno p w) w.
Proof.
  intro w. remember (List.length (w_stdin w)) as n eqn:Hn.
  revert w Hn. induction n as [|n IH]; intros w Hn.
  - destruct (w_stdin w) eqn:Hin; [|discriminate].
    rewrite (prompt_yesno_eof p w Hin). simpl.
    split; [split; [apply follows_say | exact Hin] | apply quiet_say].
  - destruct (w_stdin w) as [|line rest] eqn:Hin; [discriminate|].
    simpl in Hn.
    assert (Hrec : forall out,
               proper (prompt_yesno p (after_line w out)) w
               /\ console_only (prompt_yesno p (after_line w out)) w).
    { intro out.
      destruct (IH (after_line w out)) as [H1 H2].
      { unfold after_line. rewrite Hin. simpl. lia. }
      split; [eapply proper_later; [apply follows_after_line | exact H1]
             | eapply console_only_later; [apply quiet_after_line | exact H2]]. }
    rewrite (prompt_yesno_line p w line rest Hin).
    destruct (skip_while is_blank line) as [|c0 t]; [apply Hrec|].
    destruct (Ascii.eqb (tolower c0) "y");
      [simpl; split; [apply follows_after_line | apply quiet_after_line]|].
    destruct (Ascii.eqb (tolower c0) "n");
      [simpl; split; [apply follows_after_line | apply quiet_after_line]|].
    apply Hrec.
Qed.

(** X5: [prompt_yesno] goes by the first character that is no blank, in
    either case, and by nothing after it: y or Y answers true, n or N
    false.  A blank line is passed over without a word; any other line gets
    the diagnostic; in both cases the question is asked again. *)
Theorem prompt_yesno_answers (p : string) (w : World) (rest : list string) :
  (forall pad c more,
      string_forall is_blank pad = true -> c = "y"%char \/ c = "Y"%char ->
      w_stdin w = (pad ++ String c more) :: rest ->
      prompt_yesno p w = Done true (after_line w (p ++ " (y/n): ")))
  /\ (forall pad c more,
        string_forall is_blank pad = true -> c = "n"%char \/ c = "N"%char ->
        w_stdin w = (pad ++ String c more) :: rest ->
        prompt_yesno p w = Done false (after_line w (p ++ " (y/n): ")))
  /\ (forall line,
        string_forall is_blank line = true ->
        w_stdin w = line :: rest ->
        prompt_yesno p w = prompt_yesno p (after_line w (p ++ " (y/n): ")))
  /\ (forall pad c more,
        string_forall is_blank pad = true -> is_blank c = false ->
        tolower c <> "y"%char -> tolower c <> "n"%char ->
        w_stdin w = (pad ++ String c more) :: rest ->
        prompt_yesno p w
        = prompt_yesno p
            (after_line w (p ++ " (y/n): " ++ "Please reply with 'y' or 'n'."
                             ++ nl))).
Proof.
  assert (Hskip : forall pad c more,
             string_forall is_blank pad = true -> is_blank c = false ->
             skip_while is_blank (pad ++ String c more) = String c more).
  { intros pad c more Hpad Hc. rewrite (skip_blank_prefix _ _ Hpad).
    cbn [skip_while]. rewrite Hc. reflexivity. }
  split; [|split; [|split]].
  - intros pad c more Hpad Hc Hin.
    rewrite (prompt_yesno_line p w _ rest Hin).
    rewrite Hskip; [|exact Hpad | destruct Hc; subst c; reflexivity].
    destruct Hc; subst c; reflexivity.
  - intros pad c more Hpad Hc Hin.
    rewrite (prompt_yesno_line p w _ rest Hin).
    rewrite Hskip; [|exact Hpad | destruct Hc; subst c; reflexivity].
    destruct Hc; subst c; reflexivity.
  - intros line Hblank Hin.
    rewrite (prompt_yesno_line p w _ rest Hin).
    pose proof (skip_blank_prefix line EmptyString Hblank) as H.
    rewrite append_nil_r in H. rewrite H. reflexivity.
  - intros pad c more Hpad Hc Hy Hn Hin.
    rewrite (prompt_yesno_line p w _ rest Hin).
    rewrite (Hskip pad c more Hpad Hc).
    destruct (Ascii.eqb_spec (tolower c) "y"); [contradiction|].
    destruct (Ascii.eqb_spec (tolower c) "n"); [contradiction|]. reflexivity.
Qed.

(** An instance: the answer Yes, please. *)
Lemma prompt_yesno_answers_witness :
  let w := console ["  Yes, please"] None in
  prompt_yesno "Play again?" w
  = Done true (after_line w ("Play again?" ++ " (y/n): ")).
Proof.
  intro w.
  exact (proj1 (prompt_yesno_answers "Play again?" w [])
           "  " "Y"%char "es, please" eq_refl (or_intror eq_refl) eq_refl).
Defined.

(** ** Difficulty selection, again *)

Lemma choose_difficulty_switch (choice : Z) :
  match choice with
  | 1 => ret cfg_easy
  | 2 => ret cfg_medium
  | 3 => ret cfg_hard
  | _ =>
      cout "Enter minimum value: " ;;
      lo <- prompt_int EmptyString (-1000000) 1000000 ;;
      cout "Enter maximum value: " ;;
      hi <- prompt_int EmptyString (lo + 1) 1000000 ;;
      limited <- prompt_yesno
                   "Would you like to set a maximum attempts limit?" ;;
      if limited : bool then
        n <- prompt_int "Enter maximum attempts (>=1): " 1 1000000 ;;
        ret (mkGameConfig "Custom" lo hi n)
      else ret (mkGameConfig "Custom" lo hi 0)
  end
  = if choice =? 1 then ret cfg_easy
    else if choice =? 2 then ret cfg_medium
    else if choice =? 3 then ret cfg_hard
    else custom_config.
Proof.
  destruct choice as [|p|p]; try reflexivity.
  destruct p as [[p|p|]|[p|p|]|]; reflexivity.
Qed.

Lemma console_only_ret {A} (a : A) (w : World) : console_only (ret a w) w.
Proof. simpl. apply quiet_refl. Qed.

Lemma prompt_yesno_proper1 (p : string) (w : World) :
  proper (prompt_yesno p w) w.
Proof. apply prompt_yesno_proper. Qed.

Lemma prompt_yesno_console_only (p : string) (w : World) :
  console_only (prompt_yesno p w) w.
Proof. apply prompt_yesno_proper. Qed.

(** Walks through a sequence of console steps. *)
Ltac proper_walk :=
  repeat first
    [ apply proper_cout | apply proper_ret | apply prompt_int_proper
    | apply prompt_yesno_proper1
    | apply proper_bind; [| intros ? ? _; cbv beta ]
    | match goal with
      | |- proper ((if ?b then _ else _) _) _ => destruct b
      end ].

Ltac console_walk :=
  repeat first
    [ apply console_only_cout | apply console_only_ret
    | apply prompt_int_console_only | apply prompt_yesno_console_only
    | apply console_only_bind; [| intros ? ? _; cbv beta ]
    | match goal with
      | |- console_only ((if ?b then _ else _) _) _ => destruct b
      end ].

Lemma custom_config_proper (w : World) :
  proper (custom_config w) w /\ console_only (custom_config w) w.
Proof. unfold custom_config. split; [proper_walk | console_walk]. Qed.

Lemma choose_difficulty_proper (w : World) :
  proper (choose_difficulty w) w /\ console_only (choose_difficulty w) w.
Proof.
  unfold choose_difficulty. split.
  - do 6 (apply proper_bind; [proper_walk | intros ? ? _; cbv beta]).
    apply proper_bind.
    + rewrite choose_difficulty_switch.
      repeat match goal with
             | |- proper ((if ?b then _ else _) _) _ => destruct b
             end; try apply proper_ret. apply custom_config_proper.
    + intros ? ? _; cbv beta. proper_walk.
  - do 6 (apply console_only_bind; [console_walk | intros ? ? _; cbv beta]).
    apply console_only_bind.
    + rewrite choose_difficulty_switch.
      repeat match goal with
             | |- console_only ((if ?b then _ else _) _) _ => destruct b
             end; try apply console_only_ret. apply custom_config_proper.
    + intros ? ? _; cbv beta. console_walk.
Qed.

Lemma follows_length (w w' : World) :
  follows w w' -> (List.length (w_stdin w') <= List.length (w_stdin w))%nat.
Proof.
  intros ((read & H) & _). rewrite H. rewrite length_app. lia.
Qed.

(** A step that ran to a value, with what it left behind. *)
Lemma bind_Done_follows {A B} (m : IO A) (k : A -> IO B) (w w' : World)
    (b : B) :
  proper (m w) w ->
  bind m k w = Done b w' ->
  exists a w1, m w = Done a w1 /\ follows w w1 /\ k a w1 = Done b w'.
Proof.
  intros Hp H. apply bind_Done in H. destruct H as (a & w1 & Hm & Hk).
  exists a, w1. rewrite Hm in Hp. simpl in Hp. auto.
Qed.

Tactic Notation "io_walk" hyp(H) "by" uconstr(lem) "as" ident(a) ident(w)
    ident(Hm) ident(Hf) :=
  apply (bind_Done_follows _ _ _ _ _ lem) in H;
  destruct H as (a & w & Hm & Hf & H).

Lemma custom_config_selectable (w w' : World) (cfg : GameConfig) :
  custom_config w = Done cfg w' ->
  selectable cfg
  /\ (List.length (w_stdin w') < List.length (w_stdin w))%nat.
Proof.
  unfold custom_config. intro H.
  io_walk H by (proper_cout _ w) as u1 w1 H1 F1.
  io_walk H by (prompt_int_proper _ _ _ w1) as lo w2 H2 F2.
  io_walk H by (proper_cout _ w2) as u3 w3 H3 F3.
  io_walk H by (prompt_int_proper _ _ _ w3) as hi w4 H4 F4.
  io_walk H by (prompt_yesno_proper1 _ w4) as limited w5 H5 F5.
  apply prompt_int_Done in H2. destruct H2 as [Hlo (Hl2 & _)].
  apply prompt_int_Done in H4. destruct H4 as [Hhi _].
  apply follows_length in F1, F3, F4, F5.
  destruct limited.
  - io_walk H by (prompt_int_proper _ _ _ w5) as n w6 H6 F6.
    apply prompt_int_Done in H6. destruct H6 as [Hn _].
    apply follows_length in F6.
    inversion H; subst. unfold selectable. simpl.
    split; [|lia]. repeat split; auto; lia.
  - inversion H; subst. unfold selectable. simpl.
    split; [|lia]. repeat split; auto; lia.
Qed.

Lemma choose_difficulty_Done (w w' : World) (cfg : GameConfig) :
  choose_difficulty w = Done cfg w' ->
  selectable cfg
  /\ (List.length (w_stdin w') < List.length (w_stdin w))%nat.
Proof.
  unfold choose_difficulty. intro H.
  io_walk H by (proper_cout _ w) as u1 w1 H1 F1.
  io_walk H by (proper_cout _ w1) as u2 w2 H2 F2.
  io_walk H by (proper_cout _ w2) as u3 w3 H3 F3.
  io_walk H by (proper_cout _ w3) as u4 w4 H4 F4.
  io_walk H by (proper_cout _ w4) as u5 w5 H5 F5.
  io_walk H by (prompt_int_proper _ _ _ w5) as choice w6 H6 F6.
  apply prompt_int_Done in H6. destruct H6 as [Hchoice (Hl6 & _)].
  apply follows_length in F1, F2, F3, F4, F5.
  io_step H as cfg0 w7 Hcfg.
  rewrite choose_difficulty_switch in Hcfg.
  assert (Hsel : selectable cfg0
                 /\ (List.length (w_stdin w7) <= List.length (w_stdin w6))%nat).
  { destruct (choice =? 1);
      [inversion Hcfg; subst; unfold selectable; simpl;
       split; [repeat split; auto; lia | lia]|].
    destruct (choice =? 2);
      [inversion Hcfg; subst; unfold selectable; simpl;
       split; [repeat split; auto; lia | lia]|].
    destruct (choice =? 3);
      [inversion Hcfg; subst; unfold selectable; simpl;
       split; [repeat split; auto; lia | lia]|].
    apply custom_config_selectable in Hcfg. destruct Hcfg. split; [auto|lia]. }
  destruct Hsel as [Hsel Hl7].
  io_walk H by (proper_cout _ w7) as u8 w8 H8 F8.
  apply follows_length in F8.
  assert (Hrest : w' = say (match maxAttempts cfg0 >? 0 with
                            | true => say w8 (", max attempts = "
                                                ++ to_string (maxAttempts cfg0))
                            | false => w8
                            end) nl /\ cfg = cfg0).
  { destruct (maxAttempts cfg0 >? 0); unfold bind, cout, ret in H;
      inversion H; auto. }
  destruct Hrest as [-> ->]. split; [exact Hsel|].
  destruct (maxAttempts cfg0 >? 0); simpl; lia.
Qed.

(** X6: a configuration that [choose_difficulty] returns is one of the
    three presets or a Custom one; its bounds lie within -1000000 and
    1000000 with [minValue < maxValue], and its attempt limit within 0 and
    1000000.  At least one line was read for it, and nothing but the
    console was touched. *)
Theorem choose_difficulty_selectable (w w' : World) (cfg : GameConfig) :
  choose_difficulty w = Done cfg w' ->
  selectable cfg
  /\ (List.length (w_stdin w') < List.length (w_stdin w))%nat
  /\ follows w w' /\ quiet w w'.
Proof.
  intro Hrun.
  destruct (choose_difficulty_proper w) as [Hp Hq].
  rewrite Hrun in Hp, Hq. simpl in Hp, Hq.
  destruct (choose_difficulty_Done w w' cfg Hrun). tauto.
Qed.

(** An instance: the preset Hard. *)
Lemma choose_difficulty_selectable_witness :
  exists w', choose_difficulty (console ["3"] None) = Done cfg_hard w'
             /\ selectable cfg_hard.
Proof.
  assert (H : exists w', choose_difficulty (console ["3"] None)
                         = Done cfg_hard w')
    by (eexists; vm_compute; reflexivity).
  destruct H as (w' & H). exists w'. split; [exact H|].
  exact (proj1 (choose_difficulty_selectable _ _ _ H)).
Defined.

(** *** Bounds that no number meets *)

Lemma bind_cout {B} (s : string) (k : unit -> IO B) (w : World) :
  bind (cout s) k w = k tt (say w s).
Proof. reflexivity. Qed.

Lemma bind_value {A B} (m : IO A) (k : A -> IO B) (w w1 : World) (a : A) :
  m w = Done a w1 -> bind m k w = k a w1.
Proof. intro H. unfold bind. rewrite H. reflexivity. Qed.

Lemma bind_Exit {A B} (m : IO A) (k : A -> IO B) (w w1 : World) :
  m w = Exit w1 -> bind m k w = Exit w1.
Proof. intro H. unfold bind. rewrite H. reflexivity. Qed.

(** A prompt that cannot return a value ends in [exit(0)]. *)
Lemma prompt_int_exits (p : string) (lo hi : Z) (w : World) :
  (forall v w', prompt_int p lo hi w <> Done v w') ->
  exists w', prompt_int p lo hi w = Exit w' /\ w_stdin w' = [].
Proof.
  intro Hno.
  pose proof (prompt_int_proper p lo hi w) as Hp.
  pose proof (prompt_int_spec p lo hi w) as S.
  destruct (prompt_int p lo hi w) as [v w'|w'|w'|] eqn:E; simpl in Hp.
  - exfalso. exact (Hno v w' eq_refl).
  - exists w'. tauto.
  - contradiction.
  - contradiction.
Qed.

(** X4: called with bounds that no number meets ([hi < lo]), [prompt_int]
    never returns a value: it reads every line that is left and the program
    exits on the end of input. *)
Theorem prompt_int_empty_range (p : string) (lo hi : Z) (w : World) :
  hi < lo ->
  exists w', prompt_int p lo hi w = Exit w' /\ w_stdin w' = []
             /\ follows w w' /\ quiet w w'.
Proof.
  intro Hempty.
  pose proof (prompt_int_proper p lo hi w) as Hp.
  pose proof (prompt_int_console_only p lo hi w) as Hq.
  destruct (prompt_int p lo hi w) as [v w'|w'|w'|] eqn:E; simpl in Hp, Hq.
  - apply prompt_int_Done in E. lia.
  - exists w'. tauto.
  - pose proof (prompt_int_spec p lo hi w) as S. rewrite E in S. contradiction.
  - contradiction.
Qed.

(** An instance: the bounds 5 and 4. *)
Lemma prompt_int_empty_range_witness :
  exists w', prompt_int "n: " 5 4 (console ["4"; "5"] None) = Exit w'
             /\ w_stdin w' = []
             /\ follows (console ["4"; "5"] None) w'
             /\ quiet (console ["4"; "5"] None) w'.
Proof. apply (prompt_int_empty_range "n: " 5 4); lia. Defined.

(** X7: a Custom difficulty whose minimum is 1000000 cannot be completed.
    The maximum is then asked for between 1000001 and 1000000, so every
    further line is refused and the program exits when the input ends. *)
Theorem choose_difficulty_minimum_at_cap (w : World) (l0 r0 l r : string)
    (rest : list string) :
  string_forall is_blank l0 = true -> string_forall is_blank r0 = true ->
  string_forall is_blank l = true -> string_forall is_blank r = true ->
  w_stdin w = (l0 ++ "4" ++ r0) :: (l ++ "1000000" ++ r) :: rest ->
  exists w', choose_difficulty w = Exit w' /\ w_stdin w' = [].
Proof.
  intros Hl0 Hr0 Hl Hr Hin.
  unfold choose_difficulty. rewrite !bind_cout.
  match goal with
  | |- context [bind (prompt_int _ 1 4) _ ?w0] =>
      assert (Hin0 : w_stdin w0 = (l0 ++ to_string 4 ++ r0)
                                    :: (l ++ "1000000" ++ r) :: rest)
        by exact Hin
  end.
  rewrite (bind_value _ _ _ _ _
             (prompt_int_reads _ 1 4 4 _ l0 r0 _
                ltac:(vm_compute; intuition discriminate)
                ltac:(vm_compute; intuition discriminate) ltac:(lia)
                Hl0 Hr0 Hin0)).
  cbv beta iota.
  set (w1 := after_line _ _).
  assert (Hin1 : w_stdin (say w1 "Enter minimum value: ")
                 = (l ++ to_string 1000000 ++ r) :: rest).
  { subst w1. unfold after_line. simpl. rewrite Hin. reflexivity. }
  clear Hin0.
  destruct (prompt_int_exits EmptyString (1000000 + 1) 1000000
              (say (after_line (say w1 "Enter minimum value: ") EmptyString)
                   "Enter maximum value: "))
    as (w' & Hexit & Hend).
  { intros v w' E. apply prompt_int_Done in E. lia. }
  exists w'. split; [|exact Hend].
  apply bind_Exit. rewrite bind_cout.
  rewrite (bind_value _ _ _ _ _
             (prompt_int_reads _ (-1000000) 1000000 1000000 _ l r _
                ltac:(vm_compute; intuition discriminate)
                ltac:(vm_compute; intuition discriminate) ltac:(lia) Hl Hr Hin1)).
  cbv beta. rewrite bind_cout. apply bind_Exit. exact Hexit.
Qed.

(** An instance: Custom, then 1000000, then two more lines. *)
Lemma choose_difficulty_minimum_at_cap_witness :
  exists w',
    choose_difficulty (console ["4"; "1000000"; "2000000"; "7"] None) = Exit w'
    /\ w_stdin w' = [].
Proof.
  apply (choose_difficulty_minimum_at_cap _ EmptyString EmptyString
           EmptyString EmptyString ["2000000"; "7"]); reflexivity.
Defined.

(** ** The leaderboard file, again *)

Lemma take_until_count (d : ascii) (s : string) :
  count_char d (snd (take_until d s)) = Nat.pred (count_char d s).
Proof.
  induction s as [|x s IH]; cbn [take_until count_char]; [reflexivity|].
  destruct (Ascii.eqb x d); [reflexivity|].
  destruct (take_until d s) as [item rest]. exact IH.
Qed.

Lemma take_until_no_delim (d : ascii) (s : string) :
  count_char d s = O -> snd (take_until d s) = EmptyString.
Proof.
  induction s as [|x s IH]; cbn [take_until count_char]; [reflexivity|].
  destruct (Ascii.eqb x d); [discriminate|].
  destruct (take_until d s) as [item rest]. exact IH.
Qed.

Lemma next_item_count (s item rest : string) :
  next_item s = Parsed (item, rest) ->
  count_char ch_comma rest = Nat.pred (count_char ch_comma s)
  /\ (count_char ch_comma s = O -> rest = EmptyString).
Proof.
  unfold next_item. destruct s as [|x s]; [discriminate|].
  change (getline ch_comma (String x s))
    with (Some (take_until ch_comma (String x s))).
  intro H.
  assert (E : take_until ch_comma (String x s) = (item, rest))
    by congruence.
  split.
  - rewrite <- (take_until_count ch_comma (String x s)). rewrite E.
    reflexivity.
  - intro H0. rewrite <- (take_until_no_delim ch_comma (String x s) H0).
    rewrite E. reflexivity.
Qed.

Lemma next_item_not_Thrown (s : string) : next_item s <> Thrown.
Proof. unfold next_item. destruct (getline ch_comma s); discriminate. Qed.

Lemma stoi_quote (t : string) : stoi (String ch_quote t) = None.
Proof. reflexivity. Qed.

Section LeaderboardFile.
Context {FA : FloatArith}.

(** A line with at most two commas has fewer than four fields. *)
Lemma parse_line_few_commas (line : string) :
  (count_char ch_comma line <= 2)%nat -> parse_line line = Skipped.
Proof.
  intro Hc. unfold parse_line.
  destruct (next_item line) as [[i1 s1]| |] eqn:E1;
    [| reflexivity | exfalso; exact (next_item_not_Thrown _ E1)].
  apply next_item_count in E1. destruct E1 as [C1 _].
  cbn [parse_bind]. cbv beta iota.
  destruct (next_item s1) as [[i2 s2]| |] eqn:E2;
    [| reflexivity | exfalso; exact (next_item_not_Thrown _ E2)].
  apply next_item_count in E2. destruct E2 as [C2 _].
  cbn [parse_bind]. cbv beta iota.
  destruct (next_item s2) as [[i3 s3]| |] eqn:E3;
    [| reflexivity | exfalso; exact (next_item_not_Thrown _ E3)].
  apply next_item_count in E3. destruct E3 as [_ C3].
  cbn [parse_bind]. cbv beta iota.
  rewrite C3 by lia. reflexivity.
Qed.

(** The loop does not depend on how much fuel is left over. *)
Lemma read_leaderboard_loop_fuel (limit : Z) (w : World) :
  forall (f1 f2 : nat) (ifs : string) (out : list Result),
  (length ifs < f1)%nat -> (length ifs < f2)%nat ->
  read_leaderboard_loop f1 limit ifs out w
  = read_leaderboard_loop f2 limit ifs out w.
Proof.
  induction f1 as [|f1 IH]; intros f2 ifs out H1 H2; [lia|].
  destruct f2 as [|f2]; [lia|].
  cbn [read_leaderboard_loop].
  destruct (getline ch_nl ifs) as [[line ifs']|] eqn:Hget; [|reflexivity].
  apply getline_shorter in Hget.
  destruct line as [|c line]; [apply IH; lia|].
  destruct (parse_line (String c line)) as [r| |];
    [| apply IH; lia | reflexivity].
  destruct (_ >=? _); [reflexivity | apply IH; lia].
Qed.

(** Nor does it look at the console. *)
Lemma read_leaderboard_loop_world (limit : Z) (w w0 : World) :
  forall (fuel : nat) (ifs : string) (out : list Result),
  (forall l w', read_leaderboard_loop fuel limit ifs out w = Done l w' ->
                read_leaderboard_loop fuel limit ifs out w0 = Done l w0)
  /\ (forall w', read_leaderboard_loop fuel limit ifs out w = Terminate w' ->
                 read_leaderboard_loop fuel limit ifs out w0 = Terminate w0).
Proof.
  induction fuel as [|fuel IH]; intros ifs out.
  - split; intros; discriminate.
  - cbn [read_leaderboard_loop].
    destruct (getline ch_nl ifs) as [[line ifs']|].
    + destruct line as [|c line]; [apply IH|].
      destruct (parse_line (String c line)) as [r| |]; [| apply IH |].
      * destruct (_ >=? _); [|apply IH].
        unfold ret. split; intros; [congruence | discriminate].
      * unfold throw. split; intros; [discriminate | reflexivity].
    + unfold ret. split; intros; [congruence | discriminate].
Qed.

(** One line of the file. *)
Lemma read_leaderboard_loop_line (fuel : nat) (limit : Z) (line rest : string)
    (out : list Result) (w : World) :
  lacks ch_nl line = true ->
  read_leaderboard_loop (S fuel) limit (line ++ nl ++ rest) out w
  = match line with
    | EmptyString => read_leaderboard_loop fuel limit rest out w
    | _ =>
        match parse_line line with
        | Skipped => read_leaderboard_loop fuel limit rest out w
        | Thrown => throw w
        | Parsed r =>
            if Z.of_nat (List.length (out ++ [r])) >=? limit
            then ret (out ++ [r])%list w
            else read_leaderboard_loop fuel limit rest (out ++ [r]) w
        end
    end.
Proof.
  intro H. cbn [read_leaderboard_loop].
  change (nl ++ rest) with (String ch_nl rest).
  rewrite (getline_found ch_nl line rest H).
  destruct line; [reflexivity|].
  destruct (parse_line _); try reflexivity.
  destruct (_ >=? _); reflexivity.
Qed.

Lemma csv_file_cons (r : Result) (rs : list Result) (tail : string) :
  csv_file (r :: rs) ++ tail = csv_body r ++ nl ++ csv_file rs ++ tail.
Proof.
  cbn [csv_file]. rewrite csv_line_body. rewrite !append_assoc. reflexivity.
Qed.

Lemma csv_file_app (rs qs : list Result) :
  csv_file (rs ++ qs) = csv_file rs ++ csv_file qs.
Proof.
  induction rs as [|r rs IH]; cbn [csv_file List.app]; [reflexivity|].
  rewrite IH. rewrite append_assoc. reflexivity.
Qed.

(** A record that the program wrote, read as the next line. *)
Lemma read_leaderboard_loop_record (fuel : nat) (limit : Z) (r : Result)
    (rest : string) (out : list Result) (w : World) :
  storable r ->
  read_leaderboard_loop (S fuel) limit (csv_body r ++ nl ++ rest) out w
  = if Z.of_nat (List.length (out ++ [reread r])) >=? limit
    then Done (out ++ [reread r])%list w
    else read_leaderboard_loop fuel limit rest (out ++ [reread r]) w.
Proof.
  intro Hr.
  rewrite (read_leaderboard_loop_line fuel limit _ rest out w
             (csv_body_one_line r Hr)).
  rewrite (parse_line_csv_body r Hr).
  destruct (csv_body_starts r) as (t & E). rewrite E. reflexivity.
Qed.

(** Records below the limit are passed one after the other. *)
Lemma read_leaderboard_loop_pass (limit : Z) (tail : string) (w : World) :
  forall (rs : list Result) (fuel : nat) (out : list Result),
  Forall storable rs ->
  Z.of_nat (List.length out) + Z.of_nat (List.length rs) < limit ->
  (length (csv_file rs ++ tail) < fuel)%nat ->
  read_leaderboard_loop fuel limit (csv_file rs ++ tail) out w
  = read_leaderboard_loop fuel limit tail (out ++ map reread rs) w.
Proof.
  induction rs as [|r rs IH]; intros fuel out Hall Hlim Hfuel.
  - cbn [csv_file map append]. rewrite app_nil_r. reflexivity.
  - inversion Hall as [|r0 rs0 Hr Hrs]; subst.
    destruct fuel as [|fuel]; [lia|].
    rewrite csv_file_cons in *.
    rewrite !length_append in Hfuel. cbn [length nl] in Hfuel.
    rewrite (read_leaderboard_loop_record fuel limit r _ out w Hr).
    cbn [List.length] in Hlim.
    destruct (Z.geb_spec (Z.of_nat (List.length (out ++ [reread r]))) limit)
      as [Hge | Hlt].
    + rewrite length_app in Hge. cbn [List.length] in Hge. lia.
    + rewrite (read_leaderboard_loop_fuel limit w fuel (S fuel)
                 (csv_file rs ++ tail)) by (rewrite ?length_append; lia).
      rewrite IH; [| assumption
                   | rewrite length_app; cbn [List.length]; lia
                   | rewrite ?length_append; lia ].
      cbn [map]. rewrite <- app_assoc. reflexivity.
Qed.

(** The loop stops at the limit, and after one record when the limit is
    zero or negative. *)
Lemma read_leaderboard_loop_stop (limit : Z) (tail : string) (w : World) :
  forall (rs : list Result) (fuel : nat) (out : list Result),
  Forall storable rs ->
  out = [] \/ Z.of_nat (List.length out) < limit ->
  Z.max 1 (limit - Z.of_nat (List.length out))
    <= Z.of_nat (List.length rs) ->
  (length (csv_file rs ++ tail) < fuel)%nat ->
  read_leaderboard_loop fuel limit (csv_file rs ++ tail) out w
  = Done (out ++ firstn (Z.to_nat (Z.max 1
                                     (limit - Z.of_nat (List.length out))))
                        (map reread rs))%list w.
Proof.
  induction rs as [|r rs IH]; intros fuel out Hall Hout Hk Hfuel.
  - cbn [List.length] in Hk. lia.
  - inversion Hall as [|r0 rs0 Hr Hrs]; subst.
    destruct fuel as [|fuel]; [lia|].
    rewrite csv_file_cons in *.
    rewrite !length_append in Hfuel. cbn [length nl] in Hfuel.
    rewrite (read_leaderboard_loop_record fuel limit r _ out w Hr).
    cbn [List.length] in Hk.
    destruct (Z.geb_spec (Z.of_nat (List.length (out ++ [reread r]))) limit)
      as [Hge | Hlt]; rewrite length_app in *; cbn [List.length] in *.
    + assert (E : Z.to_nat (Z.max 1 (limit - Z.of_nat (List.length out)))
                  = 1%nat).
      { destruct Hout as [-> | Hout]; cbn [List.length] in *; lia. }
      rewrite E. reflexivity.
    + rewrite (read_leaderboard_loop_fuel limit w fuel (S fuel)
                 (csv_file rs ++ tail)) by (rewrite ?length_append; lia).
      rewrite IH; [| assumption
                   | right; rewrite length_app; cbn [List.length]; lia
                   | rewrite length_app; cbn [List.length]; lia
                   | rewrite ?length_append; lia ].
      rewrite length_app. cbn [List.length].
      replace (Z.to_nat (Z.max 1 (limit - Z.of_nat (List.length out))))
        with (S (Z.to_nat (Z.max 1 (limit - Z.of_nat (List.length out + 1)))))
        by lia.
      cbn [map firstn]. rewrite <- app_assoc. reflexivity.
Qed.

Lemma read_leaderboard_loop_records (limit : Z) (w : World)
    (rs : list Result) (fuel : nat) :
  Forall storable rs ->
  (length (csv_file rs) < fuel)%nat ->
  read_leaderboard_loop fuel limit (csv_file rs) [] w
  = Done (firstn (Z.to_nat (Z.max 1 limit)) (map reread rs)) w.
Proof.
  intros Hall Hfuel.
  assert (E0 : csv_file rs = csv_file rs ++ EmptyString).
  { clear. induction (csv_file rs) as [|c s IH]; cbn [append];
      [reflexivity | rewrite <- IH; reflexivity]. }
  destruct (Z_le_gt_dec (Z.max 1 limit) (Z.of_nat (List.length rs)))
    as [Hle | Hgt].
  - rewrite E0 in *.
    rewrite (read_leaderboard_loop_stop limit EmptyString w rs fuel []
               Hall (or_introl eq_refl));
      cbn [List.length]; rewrite ?Z.sub_0_r; auto.
  - rewrite firstn_all2 by (rewrite length_map; lia).
    destruct rs as [|r rs].
    + destruct fuel; [cbn [csv_file length] in Hfuel; lia | reflexivity].
    + cbn [List.length] in Hgt. rewrite E0 in *.
      rewrite (read_leaderboard_loop_pass limit EmptyString w (r :: rs) fuel
                 [] Hall); [| cbn [List.length]; lia | exact Hfuel].
      destruct fuel; [lia | reflexivity].
Qed.

(** X8: a leaderboard file that holds the lines of the records [rs], each
    with text fields free of commas and line feeds, reads back as these
    records in the order they were written, the two decimals numbers as
    they were printed, and cut off after [limit] records.  A [limit] of zero
    or less still returns the first record. *)
Theorem read_leaderboard_csv_file (limit : Z) (w : World) (rs : list Result) :
  Forall storable rs ->
  w_file w = Some (csv_file rs) ->
  read_leaderboard limit w
  = Done (firstn (Z.to_nat (Z.max 1 limit)) (map reread rs)) w.
Proof.
  intros Hall Hfile. unfold read_leaderboard. rewrite Hfile.
  apply read_leaderboard_loop_records; [exact Hall | lia].
Qed.

(** X9: appending a record and then reading returns the first
    [max 1 limit] records of the file, the older records first.  The new
    record is the last one read when [max 1 limit] is above the number of
    records the file held, which is always so on an empty file, also for a
    [limit] of zero or less; otherwise it is cut off and only older records
    are read. *)
Theorem append_then_read_all (limit : Z) (w : World) (rs : list Result)
    (r : Result) :
  w_writable w = true ->
  w_file w = Some (csv_file rs) ->
  Forall storable rs -> storable r ->
  (append_to_leaderboard r ;; read_leaderboard limit) w
  = Done (firstn (Z.to_nat (Z.max 1 limit)) (map reread (rs ++ [r])))
         (with_file w (csv_file (rs ++ [r])))
  /\ (Z.of_nat (List.length rs) < Z.max 1 limit ->
      firstn (Z.to_nat (Z.max 1 limit)) (map reread (rs ++ [r]))
      = (map reread rs ++ [reread r])%list)
  /\ (Z.max 1 limit <= Z.of_nat (List.length rs) ->
      firstn (Z.to_nat (Z.max 1 limit)) (map reread (rs ++ [r]))
      = firstn (Z.to_nat (Z.max 1 limit)) (map reread rs)).
Proof.
  intros Hwr Hfile Hall Hr. split; [|split].
  - assert (Happ : append_to_leaderboard r w
                   = Done tt (with_file w (csv_file (rs ++ [r])))).
    { unfold append_to_leaderboard, with_file. rewrite Hwr, Hfile.
      rewrite csv_file_app. cbn [csv_file]. rewrite append_nil_r.
      reflexivity. }
    unfold bind. rewrite Happ.
    unfold read_leaderboard. cbn [with_file w_file].
    apply read_leaderboard_loop_records; [|lia].
    apply Forall_app.
    split; [exact Hall | constructor; [exact Hr | constructor]].
  - intro Habove. rewrite map_app. cbn [map].
    apply firstn_all2. rewrite length_app, length_map. cbn [List.length].
    lia.
  - intro Hbelow. rewrite map_app. rewrite firstn_app.
    rewrite length_map.
    replace (Z.to_nat (Z.max 1 limit) - List.length rs)%nat with O by lia.
    cbn [firstn]. apply app_nil_r.
Qed.

(** Two contents that the read loop cannot tell apart, whatever the
    records collected so far. *)
Lemma read_loop_alike_line (limit : Z) (l c1 c2 : string) :
  lacks ch_nl l = true ->
  (forall f1 f2 out w,
      (length c1 < f1)%nat -> (length c2 < f2)%nat ->
      read_leaderboard_loop f1 limit c1 out w
      = read_leaderboard_loop f2 limit c2 out w) ->
  forall f1 f2 out w,
    (length (l ++ nl ++ c1) < f1)%nat -> (length (l ++ nl ++ c2) < f2)%nat ->
    read_leaderboard_loop f1 limit (l ++ nl ++ c1) out w
    = read_leaderboard_loop f2 limit (l ++ nl ++ c2) out w.
Proof.
  intros Hl Hsame f1 f2 out w H1 H2.
  rewrite !length_append in H1, H2. cbn [length nl] in H1, H2.
  destruct f1 as [|f1]; [lia|]. destruct f2 as [|f2]; [lia|].
  rewrite !(read_leaderboard_loop_line _ limit l _ out w Hl).
  destruct l as [|c l]; [apply Hsame; lia|].
  destruct (parse_line (String c l)) as [r| |];
    [| apply Hsame; lia | reflexivity].
  destruct (_ >=? _); [reflexivity | apply Hsame; lia].
Qed.

Lemma read_loop_alike_lines (limit : Z) (before : list string)
    (c1 c2 : string) :
  Forall (fun l => lacks ch_nl l = true) before ->
  (forall f1 f2 out w,
      (length c1 < f1)%nat -> (length c2 < f2)%nat ->
      read_leaderboard_loop f1 limit c1 out w
      = read_leaderboard_loop f2 limit c2 out w) ->
  forall f1 f2 out w,
    (length (lines_text before ++ c1) < f1)%nat ->
    (length (lines_text before ++ c2) < f2)%nat ->
    read_leaderboard_loop f1 limit (lines_text before ++ c1) out w
    = read_leaderboard_loop f2 limit (lines_text before ++ c2) out w.
Proof.
  intros Hall Hsame.
  induction Hall as [|l ls Hl Hls IH]; [exact Hsame|].
  cbn [lines_text]. rewrite !append_assoc.
  apply read_loop_alike_line; assumption.
Qed.

(** A line with fewer than four fields at the head of the content. *)
Lemma read_loop_skips_line (limit : Z) (line rest : string) :
  lacks ch_nl line = true ->
  (count_char ch_comma line <= 2)%nat ->
  forall f1 f2 out w,
    (length (line ++ nl ++ rest) < f1)%nat -> (length rest < f2)%nat ->
    read_leaderboard_loop f1 limit (line ++ nl ++ rest) out w
    = read_leaderboard_loop f2 limit rest out w.
Proof.
  intros Hnl Hc f1 f2 out w H1 H2.
  rewrite !length_append in H1. cbn [length nl] in H1.
  destruct f1 as [|f1]; [lia|].
  rewrite (read_leaderboard_loop_line _ limit line rest out w Hnl).
  rewrite (parse_line_few_commas line Hc).
  destruct line; apply read_leaderboard_loop_fuel; lia.
Qed.

(** The same line as the last of the content, without a line feed. *)
Lemma read_loop_skips_last (limit : Z) (line : string) :
  lacks ch_nl line = true ->
  (count_char ch_comma line <= 2)%nat ->
  forall f1 f2 out w,
    (length (line ++ EmptyString) < f1)%nat ->
    (length EmptyString < f2)%nat ->
    read_leaderboard_loop f1 limit (line ++ EmptyString) out w
    = read_leaderboard_loop f2 limit EmptyString out w.
Proof.
  intros Hnl Hc f1 f2 out w H1 H2. rewrite append_nil_r in *.
  destruct f1 as [|f1]; [lia|]. destruct f2 as [|f2]; [cbn [length] in H2; lia|].
  cbn [read_leaderboard_loop]. destruct line as [|c line]; [reflexivity|].
  unfold getline at 1. rewrite (take_until_end ch_nl _ Hnl).
  rewrite (parse_line_few_commas _ Hc).
  cbn [length] in H1.
  destruct f1 as [|f1]; [lia | reflexivity].
Qed.

Lemma reads_alike_loop (limit : Z) (w : World) (c1 c2 : string) :
  (forall f1 f2 out w0,
      (length c1 < f1)%nat -> (length c2 < f2)%nat ->
      read_leaderboard_loop f1 limit c1 out w0
      = read_leaderboard_loop f2 limit c2 out w0) ->
  reads_alike limit w c1 c2.
Proof.
  intro Hsame. unfold reads_alike, read_leaderboard. cbn [with_file w_file].
  rewrite (Hsame (S (length c1)) (S (length c2)) []) by lia.
  split.
  - intros l H.
    exact (proj1 (read_leaderboard_loop_world limit _ _ _ _ _) _ _ H).
  - intro H.
    exact (proj2 (read_leaderboard_loop_world limit _ _ _ _ _) _ H).
Qed.

(** X10: an empty line, and a line with at most two commas, is passed over
    wherever it stands in the file: after any lines [before], which may hold
    records, and before any text [rest], or as the last line without a line
    feed, the file reads as it does without that line. *)
Theorem read_leaderboard_skips_line (limit : Z) (w : World)
    (before : list string) (line rest : string) :
  Forall (fun l => lacks ch_nl l = true) before ->
  lacks ch_nl line = true ->
  (count_char ch_comma line <= 2)%nat ->
  reads_alike limit w (lines_text before ++ line ++ nl ++ rest)
                      (lines_text before ++ rest)
  /\ reads_alike limit w (lines_text before ++ line) (lines_text before).
Proof.
  intros Hbefore Hnl Hc. split.
  - apply reads_alike_loop.
    apply read_loop_alike_lines; [exact Hbefore|].
    apply read_loop_skips_line; assumption.
  - rewrite <- (append_nil_r (lines_text before)) at 2.
    rewrite <- (append_nil_r line).
    apply reads_alike_loop.
    apply read_loop_alike_lines; [exact Hbefore|].
    apply read_loop_skips_last; assumption.
Qed.

(** The line of a record whose player name holds one comma. *)
Lemma parse_line_one_comma (r : Result) (a b : string) :
  plain (timestamp r) = true -> plain (difficulty r) = true ->
  plain a = true -> plain b = true ->
  playerName r = a ++ "," ++ b ->
  parse_line (csv_body r) = Thrown.
Proof.
  intros Ht Hd Ha Hb Hname. unfold parse_line, csv_body.
  rewrite Hname.
  rewrite next_item_field by (apply plain_lacks, quoted_plain; exact Ht).
  cbn [parse_bind]. cbv beta iota.
  unfold quoted at 1. rewrite !append_assoc.
  rewrite <- (append_assoc quote a).
  rewrite next_item_field
    by (apply lacks_append; [reflexivity | apply plain_lacks; exact Ha]).
  cbn [parse_bind]. cbv beta iota.
  rewrite <- (append_assoc b quote).
  rewrite next_item_field
    by (apply lacks_append; [apply plain_lacks; exact Hb | reflexivity]).
  cbn [parse_bind]. cbv beta iota.
  rewrite next_item_field by (apply plain_lacks, quoted_plain; exact Hd).
  cbn [parse_bind]. cbv beta iota.
  unfold quoted, quote. cbn [append]. rewrite stoi_quote. reflexivity.
Qed.

(** X11: a record whose player name holds a comma is written as it is, and
    the line cannot be read back: its fourth field is then the quoted
    difficulty, on which [stoi] throws.  Once such a record is appended, a
    read that reaches its line ends the program. *)
Theorem comma_name_ends_read (limit : Z) (w : World) (rs : list Result)
    (r : Result) (a b : string) :
  w_writable w = true ->
  w_file w = Some (csv_file rs) ->
  Forall storable rs -> Z.of_nat (List.length rs) < limit ->
  plain (timestamp r) = true -> plain (difficulty r) = true ->
  plain a = true -> plain b = true ->
  playerName r = a ++ "," ++ b ->
  (append_to_leaderboard r ;; read_leaderboard limit) w
  = Terminate (with_file w (csv_file rs ++ csv_line r)).
Proof.
  intros Hwr Hfile Hall Hlim Ht Hd Ha Hb Hname.
  assert (Happ : append_to_leaderboard r w
                 = Done tt (with_file w (csv_file rs ++ csv_line r))).
  { unfold append_to_leaderboard, with_file. rewrite Hwr, Hfile.
    reflexivity. }
  unfold bind. rewrite Happ.
  unfold read_leaderboard. cbn [with_file w_file].
  rewrite read_leaderboard_loop_pass;
    [| exact Hall | cbn [List.length]; lia | lia].
  cbn [List.app]. rewrite csv_line_body.
  assert (Hnl : lacks ch_nl (csv_body r) = true).
  { apply csv_body_lacks_nl; try (apply plain_lacks_nl; assumption).
    rewrite Hname. apply lacks_append; [apply plain_lacks_nl; exact Ha|].
    apply lacks_append; [reflexivity | apply plain_lacks_nl; exact Hb]. }
  replace (csv_body r ++ nl) with (csv_body r ++ nl ++ EmptyString)
    by reflexivity.
  rewrite (read_leaderboard_loop_line _ limit (csv_body r) EmptyString _ _
             Hnl).
  rewrite (parse_line_one_comma r a b Ht Hd Ha Hb Hname).
  destruct (csv_body_starts r) as (t & E). rewrite E. reflexivity.
Qed.
End LeaderboardFile.

Lemma bob_game_storable : storable bob_game.
Proof.
  unfold storable, is_int, INT_MIN, INT_MAX. simpl.
  repeat split; (reflexivity || lia).
Qed.

(** An instance: a file that holds bob's game twice, read with the limit 1
    and with the limit 0. *)
Lemma read_leaderboard_csv_file_witness :
  let w := console [] (Some (csv_file [bob_game; bob_game])) in
  @read_leaderboard exact_arith 1 w
  = Done (firstn 1 (map (@reread exact_arith) [bob_game; bob_game])) w
  /\ @read_leaderboard exact_arith 0 w
     = Done (firstn 1 (map (@reread exact_arith) [bob_game; bob_game])) w.
Proof.
  intro w.
  assert (Hall : Forall storable [bob_game; bob_game])
    by (repeat constructor; apply bob_game_storable).
  split.
  - exact (@read_leaderboard_csv_file exact_arith 1 w _ Hall eq_refl).
  - exact (@read_leaderboard_csv_file exact_arith 0 w _ Hall eq_refl).
Defined.

(** An instance: bob's game appended to a file that holds it already, read
    with the limit 1: the record read is the older one. *)
Lemma append_then_read_all_witness :
  let w := console [] (Some (csv_file [bob_game])) in
  (append_to_leaderboard bob_game ;; @read_leaderboard exact_arith 1) w
  = Done (firstn 1 (map (@reread exact_arith) [bob_game; bob_game]))
         (with_file w (csv_file [bob_game; bob_game]))
  /\ firstn 1 (map (@reread exact_arith) [bob_game; bob_game])
     = firstn 1 (map (@reread exact_arith) [bob_game]).
Proof.
  intro w.
  assert (Hall : Forall storable [bob_game])
    by (repeat constructor; apply bob_game_storable).
  destruct (@append_then_read_all exact_arith 1 w [bob_game] bob_game
              eq_refl eq_refl Hall bob_game_storable) as (Hread & _ & Hcut).
  split; [exact Hread|]. apply Hcut. cbn [List.length]. lia.
Defined.

(** An instance: a line of three fields after the line of bob's game. *)
Lemma read_leaderboard_skips_line_witness :
  let w := console [] None in
  @reads_alike exact_arith 10 w
    (lines_text [csv_body bob_game] ++ "a,b,c" ++ nl ++ EmptyString)
    (lines_text [csv_body bob_game] ++ EmptyString)
  /\ @reads_alike exact_arith 10 w
       (lines_text [csv_body bob_game] ++ "a,b,c")
       (lines_text [csv_body bob_game]).
Proof.
  intro w.
  apply (@read_leaderboard_skips_line exact_arith 10 w [csv_body bob_game]
           "a,b,c" EmptyString).
  - constructor; [|constructor].
    apply csv_body_one_line. apply bob_game_storable.
  - reflexivity.
  - vm_compute. lia.
Defined.

(** An instance: the name Smith, John on a leaderboard that is still
    empty. *)
Lemma comma_name_ends_read_witness :
  let w := console [] (Some EmptyString) in
  let r := comma_name_game (Fin 1) (Fin 1) in
  (append_to_leaderboard r ;; @read_leaderboard exact_arith 10) w
  = Terminate (with_file w (csv_file [] ++ csv_line r)).
Proof.
  intros w r.
  apply (@comma_name_ends_read exact_arith 10 w [] r "Smith" " John");
    try reflexivity.
  constructor.
Defined.

(** ** A whole game *)

Section GameRun.
Variable cfg : GameConfig.
Variable secret : Z.

Lemma ask_guess_proper (st : Locals) (w : World) :
  proper (ask_guess st w) w /\ console_only (ask_guess st w) w.
Proof. unfold ask_guess. split; [proper_walk | console_walk]. Qed.

Lemma guess_turn_proper (st : Locals) (g : Z) (w : World) :
  proper (guess_turn cfg secret st g w) w
  /\ console_only (guess_turn cfg secret st g w) w.
Proof.
  destruct (guess_turn_says cfg secret st g w) as (st' & e & out & H).
  rewrite H. simpl. split; [apply follows_say | apply quiet_say].
Qed.

Lemma guesses_proper :
  forall (st : Locals) (w : World),
  proper (guesses cfg secret st w) w
  /\ console_only (guesses cfg secret st w) w.
Proof.
  intros st w. remember (List.length (w_stdin w)) as n eqn:Hn.
  revert st w Hn. induction n as [n IH] using lt_wf_ind. intros st w Hn.
  assert (Hnext : forall g w1 st1 w2,
             ask_guess st w = Done g w1 ->
             guess_turn cfg secret st g w1 = Done (st1, None) w2 ->
             proper (guesses cfg secret st1 w2) w2
             /\ console_only (guesses cfg secret st1 w2) w2).
  { intros g w1 st1 w2 Hask Hturn.
    apply ask_guess_Done in Hask. destruct Hask as [_ (Hlen & _)].
    apply guess_turn_stdin in Hturn. destruct Hturn as (Hin & _).
    apply (IH (List.length (w_stdin w2))); [rewrite Hin; lia | reflexivity]. }
  rewrite guesses_unfold. split.
  - apply proper_bind; [apply ask_guess_proper|]. intros g w1 Hask.
    apply proper_bind; [apply guess_turn_proper|].
    intros [st1 [e|]] w2 Hturn; [apply proper_ret|].
    exact (proj1 (Hnext g w1 st1 w2 Hask Hturn)).
  - apply console_only_bind; [apply ask_guess_proper|]. intros g w1 Hask.
    apply console_only_bind; [apply guess_turn_proper|].
    intros [st1 [e|]] w2 Hturn; [apply console_only_ret|].
    exact (proj2 (Hnext g w1 st1 w2 Hask Hturn)).
Qed.

(** One turn counts at most one attempt and reads at least one line. *)
Lemma turn_counts (st st' : Locals) (g : Z) (e : option Ending)
    (w w1 w' : World) :
  ask_guess st w = Done g w1 ->
  guess_turn cfg secret st g w1 = Done (st', e) w' ->
  tried st <= tried st' <= tried st + 1
  /\ (List.length (w_stdin w') < List.length (w_stdin w))%nat.
Proof.
  intros Hask Hturn.
  apply ask_guess_Done in Hask. destruct Hask as [_ (Hlen & _)].
  pose proof (guess_turn_stdin cfg secret _ _ _ _ _ _ Hturn) as (Hin & _).
  rewrite Hin. split; [|exact Hlen].
  apply guess_turn_inv in Hturn.
  destruct Hturn as [(_ & -> & _) | (_ & Ht & _)]; lia.
Qed.

Lemma guesses_counts (st : Locals) (w : World) (e : Ending) (st' : Locals)
    (w' : World) :
  guesses cfg secret st w = Done (e, st') w' ->
  tried st <= tried st'
  /\ tried st' - tried st
     <= Z.of_nat (List.length (w_stdin w)) - Z.of_nat (List.length (w_stdin w'))
  /\ (List.length (w_stdin w') < List.length (w_stdin w))%nat.
Proof.
  revert st w e st' w'.
  apply (guesses_ind cfg secret (fun st w e st' w' =>
    tried st <= tried st'
    /\ tried st' - tried st
       <= Z.of_nat (List.length (w_stdin w))
          - Z.of_nat (List.length (w_stdin w'))
    /\ (List.length (w_stdin w') < List.length (w_stdin w))%nat)).
  - intros st w g w1 e st' w' Hask Hturn.
    pose proof (turn_counts _ _ _ _ _ _ _ Hask Hturn). lia.
  - intros st w g w1 st1 w2 e st' w' Hask Hturn _ IH.
    pose proof (turn_counts _ _ _ _ _ _ _ Hask Hturn). lia.
Qed.

Lemma guesses_limit (st : Locals) (w : World) (e : Ending) (st' : Locals)
    (w' : World) :
  0 < maxAttempts cfg ->
  guesses cfg secret st w = Done (e, st') w' ->
  tried st < maxAttempts cfg -> tried st' <= maxAttempts cfg.
Proof.
  intro Hmax. revert st w e st' w'.
  apply (guesses_ind cfg secret (fun st w e st' w' =>
    tried st < maxAttempts cfg -> tried st' <= maxAttempts cfg)).
  - intros st w g w1 e st' w' Hask Hturn Hlt.
    pose proof (turn_counts _ _ _ _ _ _ _ Hask Hturn). lia.
  - intros st w g w1 st1 w2 e st' w' Hask Hturn _ IH Hlt. apply IH.
    apply guess_turn_inv in Hturn.
    destruct Hturn as [(_ & _ & He & _) | (_ & Ht & [(_ & He & _) | Hwrong])];
      try discriminate.
    destruct Hwrong as (_ & _ & _ & verdict & [(He & _) | (_ & Hno & _)]);
      [discriminate | lia].
Qed.

Lemma guess_phase_proper (w : World) :
  proper (guess_phase cfg secret w) w
  /\ console_only (guess_phase cfg secret w) w.
Proof.
  unfold guess_phase. split.
  - apply proper_bind; [apply proper_cout | intros ? ? _; cbv beta].
    apply proper_bind; [destruct (_ >? _); [apply proper_cout | apply proper_ret]
                       | intros ? ? _; cbv beta].
    apply proper_bind; [apply proper_cout | intros ? ? _; cbv beta].
    apply guesses_proper.
  - apply console_only_bind;
      [apply console_only_cout | intros ? ? _; cbv beta].
    apply console_only_bind;
      [destruct (_ >? _); [apply console_only_cout | apply console_only_ret]
      | intros ? ? _; cbv beta].
    apply console_only_bind;
      [apply console_only_cout | intros ? ? _; cbv beta].
    apply guesses_proper.
Qed.

Lemma guess_phase_counts (w w' : World) (e : Ending) (st' : Locals) :
  guess_phase cfg secret w = Done (e, st') w' ->
  0 <= tried st'
  /\ (0 < maxAttempts cfg -> tried st' <= maxAttempts cfg)
  /\ Z.of_nat (List.length (w_stdin w')) + tried st'
     <= Z.of_nat (List.length (w_stdin w))
  /\ (List.length (w_stdin w') < List.length (w_stdin w))%nat.
Proof.
  unfold guess_phase. intro H.
  io_walk H by (proper_cout _ w) as u1 w1 H1 F1.
  assert (F2 : exists w2,
             follows w1 w2
             /\ (cout ("Type your guess and press Enter." ++ nl);;
                 guesses cfg secret (initial cfg)) w2 = Done (e, st') w').
  { destruct (maxAttempts cfg >? 0).
    - io_walk H by (proper_cout _ w1) as u2 w2 H2 F2. eauto.
    - io_walk H by (proper_ret _ w1) as u2 w2 H2 F2. eauto. }
  destruct F2 as (w2 & F2 & H').
  io_walk H' by (proper_cout _ w2) as u3 w3 H3 F3.
  apply follows_length in F1, F2, F3.
  pose proof (guesses_counts _ _ _ _ _ H') as (C1 & C2 & C3).
  change (tried (initial cfg)) with 0 in *.
  split; [lia|]. split; [|lia].
  intro Hmax. apply (guesses_limit _ _ _ _ _ Hmax H'). exact Hmax.
Qed.
End GameRun.

Lemma append_to_leaderboard_proper (r : Result) (w : World) :
  proper (append_to_leaderboard r w) w.
Proof.
  unfold append_to_leaderboard.
  destruct (w_writable w) eqn:Hwr; unfold cerr; simpl; unfold follows; simpl;
    rewrite ?Hwr.
  - split; [exists []; reflexivity|].
    split; [exists EmptyString; now rewrite append_nil_r|].
    split; [exists EmptyString; now rewrite append_nil_r|].
    split; [reflexivity|]. split; [discriminate|].
    intros c Hc. rewrite Hc. eauto.
  - split; [exists []; reflexivity|].
    split; [exists EmptyString; now rewrite append_nil_r|].
    split; [eauto|].
    split; [reflexivity|]. split; [reflexivity|].
    intros c Hc. exists EmptyString. now rewrite append_nil_r.
Qed.

Section PlayGame.
Context {FA : FloatArith}.

Lemma play_game_aborted (cfg : GameConfig) (env : Session) (w w1 : World) :
  guess_phase cfg (drawn env) w = Exit w1 -> play_game cfg env w = Exit w1.
Proof. intro H. unfold play_game, bind. rewrite H. reflexivity. Qed.

Lemma play_game_proper (cfg : GameConfig) (env : Session) (w : World) :
  proper (play_game cfg env w) w.
Proof.
  destruct (guess_phase_proper cfg (drawn env) w) as [Hp _].
  destruct (guess_phase cfg (drawn env) w) as [r w1|w1|w1|] eqn:Hphase;
    simpl in Hp; try contradiction.
  - rewrite (play_game_after_phase cfg env w w1 r Hphase). cbv zeta.
    assert (Hname : follows w (name_read w1)).
    { eapply follows_trans; [exact Hp|].
      exact (follows_after_line w1 _). }
    destruct (String.eqb _ _); [exact Hname|].
    pose proof (append_to_leaderboard_proper
                  (make_result cfg env (tried (snd r))
                     (hd EmptyString (w_stdin w1))) (name_read w1)) as Ha.
    destruct (append_to_leaderboard _ _) as [u w2|w2|w2|]; simpl in *.
    + eapply follows_trans; eauto.
    + destruct Ha. split; [eapply follows_trans; eauto | assumption].
    + destruct Ha. split; [eapply follows_trans; eauto | assumption].
    + contradiction.
  - rewrite (play_game_aborted cfg env w w1 Hphase). exact Hp.
  - unfold play_game, bind. rewrite Hphase. exact Hp.
Qed.

(** X12: what a game returns.  The attempts of the result are not negative,
    not above the limit when there is one, and not more than the lines the
    game read; the score is a number that is not negative; the name is not
    empty; the secret is the number drawn.  A game ends otherwise only by
    [exit(0)] at the end of the input, and then nothing is written to the
    leaderboard; it never ends by an exception. *)
Theorem play_game_result (cfg : GameConfig) (env : Session) (w : World) :
  match play_game cfg env w with
  | Done res w' =>
      0 <= attempts res
      /\ (0 < maxAttempts cfg -> attempts res <= maxAttempts cfg)
      /\ Z.of_nat (List.length (w_stdin w')) + attempts res
         <= Z.of_nat (List.length (w_stdin w))
      /\ (List.length (w_stdin w') < List.length (w_stdin w))%nat
      /\ (exists x, score res = Fin x /\ (0 <= x)%R)
      /\ playerName res <> EmptyString
      /\ secretNumber res = drawn env
      /\ follows w w'
  | Exit w' => w_stdin w' = [] /\ follows w w' /\ quiet w w'
  | Terminate _ | OutOfFuel => False
  end.
Proof.
  pose proof (play_game_proper cfg env w) as Hproper.
  destruct (guess_phase_proper cfg (drawn env) w) as [Hp Hq].
  destruct (guess_phase cfg (drawn env) w) as [[e st'] w1|w1|w1|] eqn:Hphase;
    simpl in Hp, Hq.
  - pose proof (guess_phase_counts _ _ _ _ _ _ Hphase) as (C0 & Cmax & Clines & Clt).
    rewrite (play_game_after_phase cfg env w w1 _ Hphase) in *.
    cbv zeta in *. cbn [snd] in *.
    set (res := make_result cfg env (tried st')
                  (hd EmptyString (w_stdin w1))) in *.
    assert (Hres : 0 <= attempts res
                   /\ (0 < maxAttempts cfg -> attempts res <= maxAttempts cfg)
                   /\ (exists x, score res = Fin x /\ (0 <= x)%R)
                   /\ playerName res <> EmptyString
                   /\ secretNumber res = drawn env).
    { subst res. unfold make_result. cbn [attempts score playerName secretNumber].
      split; [exact C0|]. split; [exact Cmax|].
      split; [eexists; split; [reflexivity|];
              rewrite compute_score_eq; apply clamp_nonneg|].
      split; [|reflexivity].
      destruct (hd EmptyString (w_stdin w1)); discriminate. }
    assert (Hlen : (List.length (w_stdin (name_read w1))
                    <= List.length (w_stdin w1))%nat).
    { unfold name_read. cbn [w_stdin]. destruct (w_stdin w1); simpl; lia. }
    assert (Happ : forall u w2,
               append_to_leaderboard res (name_read w1) = Done u w2 ->
               w_stdin w2 = w_stdin (name_read w1)).
    { unfold append_to_leaderboard, cerr. intros u w2.
      destruct (w_writable (name_read w1)); intro E; inversion E; reflexivity. }
    assert (Hatt : attempts res = tried st') by reflexivity.
    destruct Hres as (R1 & R2 & R3 & R4 & R5).
    destruct (String.eqb (playerName res) "Anonymous").
    + simpl in Hproper.
      split; [exact R1|]. split; [exact R2|]. split; [lia|]. split; [lia|].
      split; [exact R3|]. split; [exact R4|]. split; [exact R5|].
      exact Hproper.
    + destruct (append_to_leaderboard res (name_read w1)) as [u w2|w2|w2|] eqn:Ea.
      * simpl in Hproper. rewrite (Happ u w2 eq_refl).
        split; [exact R1|]. split; [exact R2|]. split; [lia|]. split; [lia|].
        split; [exact R3|]. split; [exact R4|]. split; [exact R5|].
        exact Hproper.
      * unfold append_to_leaderboard, cerr in Ea.
        destruct (w_writable (name_read w1)); discriminate.
      * unfold append_to_leaderboard, cerr in Ea.
        destruct (w_writable (name_read w1)); discriminate.
      * unfold append_to_leaderboard, cerr in Ea.
        destruct (w_writable (name_read w1)); discriminate.
  - rewrite (play_game_aborted cfg env w w1 Hphase). tauto.
  - destruct Hp as [_ Hp].
    pose proof (guesses_ends cfg (drawn env)) as Hends.
    unfold guess_phase, bind, cout in Hphase.
    destruct (maxAttempts cfg >? 0); unfold cout, ret in Hphase;
      match type of Hphase with
      | context [guesses ?c ?s ?st ?w0] =>
          specialize (Hends st w0); destruct (guesses c s st w0);
            try discriminate; contradiction
      end.
  - contradiction.
Qed.
End PlayGame.

(** ** The leaderboard table *)

Lemma say_nothing (w : World) : say w EmptyString = w.
Proof. destruct w. unfold say. simpl. rewrite append_nil_r. reflexivity. Qed.

Lemma show_rows_says (entries : list Result) :
  forall w, show_rows entries w = Done tt (say w (table_rows entries)).
Proof.
  induction entries as [|e rest IH]; intro w; cbn [show_rows table_rows].
  - unfold ret. rewrite say_nothing. reflexivity.
  - rewrite bind_cout. rewrite IH. rewrite say_say. reflexivity.
Qed.

Section Table.
Context {FA : FloatArith}.

Lemma read_leaderboard_Terminate (limit : Z) (w w' : World) :
  read_leaderboard limit w = Terminate w' -> w' = w /\ w_file w <> None.
Proof.
  intro H. pose proof (read_leaderboard_ends limit w) as E.
  rewrite H in E. split; [exact E|].
  intro Hnone. rewrite (read_leaderboard_missing limit w Hnone) in H.
  discriminate.
Qed.

Lemma show_leaderboard_eq (n : Z) (w : World) :
  show_leaderboard n w =
  match read_leaderboard n w with
  | Done entries w' => Done tt (say w' (table entries))
  | Exit w' => Exit w'
  | Terminate w' => Terminate w'
  | OutOfFuel => OutOfFuel
  end.
Proof.
  unfold show_leaderboard, bind at 1.
  destruct (read_leaderboard n w) as [entries w'| | |]; try reflexivity.
  destruct entries as [|e rest]; [reflexivity|].
  rewrite !bind_cout. unfold bind.
  rewrite show_rows_says. unfold cout. rewrite !say_say.
  unfold table. rewrite !append_assoc. reflexivity.
Qed.

Lemma show_leaderboard_proper (n : Z) (w : World) :
  proper (show_leaderboard n w) w /\ console_only (show_leaderboard n w) w.
Proof.
  rewrite show_leaderboard_eq.
  pose proof (read_leaderboard_ends n w) as E.
  destruct (read_leaderboard n w) as [entries w'|w'|w'|] eqn:Hread;
    try contradiction.
  - destruct E as [-> _]. simpl. split; [apply follows_say | apply quiet_say].
  - apply read_leaderboard_Terminate in Hread. destruct Hread as [-> Hfile].
    simpl. split; [split; [apply follows_refl | exact Hfile] | apply quiet_refl].
Qed.

Lemma Forall_first {A} (P : A -> Prop) (n : nat) :
  forall l, Forall P l -> Forall P (firstn n l).
Proof.
  induction n as [|n IH]; intros l H; cbn [firstn]; [constructor|].
  destruct H as [|x l Hx Hl]; constructor; [exact Hx | apply IH; exact Hl].
Qed.

Lemma to_2dp_not_negative (d : double) :
  not_negative d -> not_negative (to_2dp d).
Proof.
  intros (x & -> & Hx). unfold to_2dp.
  destruct (Rlt_dec x 0) as [Hneg | _]; [lra|].
  eexists. split; [reflexivity|].
  apply rnd_nonneg. cbn [signed].
  pose proof (hundredths_nonneg x) as Hn. apply IZR_le in Hn. lra.
Qed.

(** X13: the table of [show_leaderboard].  On a leaderboard file that holds
    the lines of records as the games write them, with a time and a score
    that are not negative, the rows are those of the first [max 1 n]
    records of the file, the oldest games and not the latest, one row also
    for an [n] of zero or less; each row shows the two decimals numbers as
    they were printed, none of them negative, and the heading counts the
    rows.  Without a record, or without a file, one line says that there
    are no entries.  Nothing but the console is touched. *)
Theorem show_leaderboard_table (n : Z) (w : World) (rs : list Result) :
  Forall game_record rs ->
  w_file w = Some (csv_file rs) \/ (w_file w = None /\ rs = []) ->
  let shown := firstn (Z.to_nat (Z.max 1 n)) (map reread rs) in
  show_leaderboard n w = Done tt (say w (table shown))
  /\ Forall (fun e => not_negative (elapsedSeconds e)
                      /\ not_negative (score e)) shown
  /\ Z.of_nat (List.length shown)
     = Z.min (Z.max 1 n) (Z.of_nat (List.length rs)).
Proof.
  intros Hgames Hfile shown.
  assert (Hall : Forall storable rs).
  { eapply Forall_impl; [|exact Hgames]. intros r (Hr & _). exact Hr. }
  split; [|split].
  - rewrite show_leaderboard_eq.
    destruct Hfile as [Hfile | [Hfile ->]].
    + unfold read_leaderboard. rewrite Hfile.
      rewrite read_leaderboard_loop_records; [reflexivity | exact Hall | lia].
    + rewrite (read_leaderboard_missing n w Hfile).
      subst shown. cbn [map]. rewrite firstn_nil. reflexivity.
  - subst shown. apply Forall_first. apply Forall_map.
    eapply Forall_impl; [|exact Hgames].
    intros r (_ & Ht & Hs). unfold reread. cbn [elapsedSeconds score].
    split; apply to_2dp_not_negative; assumption.
  - subst shown. rewrite length_firstn, length_map. lia.
Qed.

(** X15: whatever the leaderboard file holds, [read_leaderboard] comes to
    an end and leaves everything as it was.  It returns at most [limit]
    records, one when [limit] is zero or less, or it is cut short by an
    exception of [stoi] or [stod], which takes a file to read. *)
Theorem read_leaderboard_any_file (limit : Z) (w : World) :
  match read_leaderboard limit w with
  | Done l w' => w' = w /\ Z.of_nat (List.length l) <= Z.max 1 limit
  | Terminate w' => w' = w /\ w_file w <> None
  | Exit _ | OutOfFuel => False
  end.
Proof.
  assert (Hloop : forall fuel ifs out,
    (length ifs < fuel)%nat ->
    match read_leaderboard_loop fuel limit ifs out w with
    | Done l w' =>
        w' = w /\ Z.of_nat (List.length l)
                  <= Z.max (Z.of_nat (List.length out) + 1) limit
    | Terminate w' => w' = w
    | Exit _ | OutOfFuel => False
    end).
  { induction fuel as [|fuel IH]; intros ifs out Hlen; [lia|].
    cbn [read_leaderboard_loop].
    destruct (getline ch_nl ifs) as [[line ifs']|] eqn:Hget.
    - apply getline_shorter in Hget.
      destruct line as [|c line]; [apply IH; lia|].
      destruct (parse_line (String c line)) as [r| |];
        [| apply IH; lia | reflexivity].
      destruct (Z.geb_spec (Z.of_nat (List.length (out ++ [r]))) limit)
        as [Hge | Hlt].
      + unfold ret. split; [reflexivity|].
        rewrite length_app. cbn [List.length]. lia.
      + specialize (IH ifs' (out ++ [r])%list ltac:(lia)).
        destruct (read_leaderboard_loop fuel limit ifs' (out ++ [r]) w);
          auto.
        destruct IH as [Hw Hl]. split; [exact Hw|].
        rewrite length_app in *. cbn [List.length] in *. lia.
    - unfold ret. split; [reflexivity | lia]. }
  destruct (read_leaderboard limit w) as [l w'|w'|w'|] eqn:Hread.
  - unfold read_leaderboard in Hread. destruct (w_file w) as [content|].
    + specialize (Hloop (S (length content)) content [] ltac:(lia)).
      rewrite Hread in Hloop. exact Hloop.
    + inversion Hread. subst. split; [reflexivity | simpl; lia].
  - pose proof (read_leaderboard_ends limit w) as E. rewrite Hread in E.
    exact E.
  - exact (read_leaderboard_Terminate limit w w' Hread).
  - pose proof (read_leaderboard_ends limit w) as E. rewrite Hread in E.
    exact E.
Qed.
End Table.

(** An instance: the table of a file that holds bob's game twice, asked
    for one row. *)
Lemma show_leaderboard_table_witness :
  let w := console [] (Some (csv_file [bob_game; bob_game])) in
  let shown := firstn 1 (map (@reread exact_arith) [bob_game; bob_game]) in
  @show_leaderboard exact_arith 1 w = Done tt (say w (table shown))
  /\ Forall (fun e => not_negative (elapsedSeconds e)
                      /\ not_negative (score e)) shown
  /\ Z.of_nat (List.length shown) = 1.
Proof.
  intros w shown.
  assert (Hgame : game_record bob_game).
  { split; [apply bob_game_storable|].
    split; eexists; (split; [reflexivity | lra]). }
  apply (@show_leaderboard_table exact_arith 1 w [bob_game; bob_game]).
  - exact (Forall_cons _ Hgame (Forall_cons _ Hgame (Forall_nil _))).
  - left. reflexivity.
Defined.

(** ** The program *)

Lemma proper_bind_shorter {A B} (m : IO A) (k : A -> IO B) (w : World) :
  proper (m w) w ->
  (forall a w1,
      m w = Done a w1 ->
      (List.length (w_stdin w1) <= List.length (w_stdin w))%nat ->
      proper (k a w1) w1) ->
  proper (bind m k w) w.
Proof.
  intros Hm Hk. apply proper_bind; [exact Hm|].
  intros a w1 E. apply (Hk a w1 E).
  rewrite E in Hm. simpl in Hm. apply follows_length. exact Hm.
Qed.

Lemma game_summary_proper (r : Result) (w : World) :
  proper (game_summary r w) w.
Proof. unfold game_summary. proper_walk. Qed.

Section Program.
Context {FA : FloatArith}.

(** Every round of the session reads a line, so the rounds come to an end
    with the input. *)
Lemma session_loop_proper (envs : nat -> GameConfig -> Session) :
  forall (fuel round : nat) (w : World),
  (List.length (w_stdin w) < fuel)%nat ->
  proper (session_loop fuel envs round w) w.
Proof.
  induction fuel as [|fuel IH]; intros round w Hfuel; [lia|].
  cbn [session_loop].
  apply proper_bind_shorter; [apply choose_difficulty_proper|].
  intros cfg w1 Hcfg _. cbv beta.
  apply choose_difficulty_Done in Hcfg. destruct Hcfg as [_ L1].
  apply proper_bind_shorter; [apply play_game_proper|].
  intros r w2 _ L2. cbv beta.
  apply proper_bind_shorter; [apply game_summary_proper|].
  intros u3 w3 _ L3. cbv beta.
  apply proper_bind_shorter; [apply prompt_yesno_proper1|].
  intros view w4 _ L4. cbv beta.
  apply proper_bind_shorter;
    [destruct view; [apply show_leaderboard_proper | apply proper_ret]|].
  intros u5 w5 _ L5. cbv beta.
  apply proper_bind_shorter; [apply prompt_yesno_proper1|].
  intros again w6 _ L6. cbv beta.
  destruct again; [|apply proper_ret].
  apply proper_bind_shorter; [apply proper_cout|].
  intros u7 w7 _ L7. cbv beta.
  apply IH. lia.
Qed.

Lemma main_proper (envs : nat -> GameConfig -> Session) (w : World) :
  proper (main envs w) w.
Proof.
  unfold main.
  apply proper_bind; [apply proper_cout | intros ? ? _; cbv beta].
  apply proper_bind; [apply proper_cout | intros ? ? _; cbv beta].
  apply proper_bind; [| intros ? ? _; cbv beta; proper_walk].
  unfold sessions. apply session_loop_proper. lia.
Qed.

(** X14: the program as a whole, on every input and with every leaderboard
    file.  It comes to an end: [main] returns 0 after the goodbye line, or
    the program exits at the end of the input, or an exception ends it,
    which takes a leaderboard file to read.  Up to there the input was only
    read, the output only written, and the leaderboard file only added to,
    and left as it was when it cannot be opened for writing. *)
Theorem main_runs (envs : nat -> GameConfig -> Session) (w : World) :
  match main envs w with
  | Done code w' =>
      code = 0 /\ follows w w'
      /\ (exists out,
             w_stdout w' = out ++ "Thanks for playing! Goodbye." ++ nl)
      /\ (List.length (w_stdin w') < List.length (w_stdin w))%nat
  | Exit w' => w_stdin w' = [] /\ follows w w'
  | Terminate w' => w_file w' <> None /\ follows w w'
  | OutOfFuel => False
  end.
Proof.
  pose proof (main_proper envs w) as Hp.
  destruct (main envs w) as [code w'|w'|w'|] eqn:Hmain; simpl in Hp;
    try tauto.
  unfold main in Hmain.
  io_walk Hmain by (proper_cout _ w) as u1 w1 H1 F1.
  io_walk Hmain by (proper_cout _ w1) as u2 w2 H2 F2.
  apply bind_Done in Hmain. destruct Hmain as (u3 & w3 & Hs & Hmain).
  rewrite bind_cout in Hmain. inversion Hmain; subst. clear Hmain.
  split; [reflexivity|]. split; [exact Hp|].
  split; [eexists; reflexivity|].
  apply follows_length in F1, F2.
  enough (List.length (w_stdin w3) < List.length (w_stdin w2))%nat
    by (cbn [say w_stdin]; lia).
  unfold sessions in Hs. cbn [session_loop] in Hs.
  apply bind_Done in Hs. destruct Hs as (cfg & v1 & Hcfg & Hs).
  apply choose_difficulty_Done in Hcfg. destruct Hcfg as [_ L1].
  io_walk Hs by (play_game_proper _ _ v1) as r v2 G2 L2.
  io_walk Hs by (game_summary_proper _ v2) as u v3 G3 L3.
  io_walk Hs by (prompt_yesno_proper1 _ v3) as view v4 G4 L4.
  assert (Hview : exists v5,
             follows v4 v5
             /\ (again <- prompt_yesno "Play again?";;
                 (if again : bool
                  then cout nl;;
                       session_loop (List.length (w_stdin w2)) envs 1
                  else ret tt)) v5 = Done u3 w3).
  { destruct view.
    - io_walk Hs by (proj1 (show_leaderboard_proper _ v4)) as u5 v5 G5 L5.
      eauto.
    - io_walk Hs by (proper_ret _ v4) as u5 v5 G5 L5. eauto. }
  destruct Hview as (v5 & L5 & Hs').
  io_walk Hs' by (prompt_yesno_proper1 _ v5) as again v6 G6 L6.
  apply follows_length in L2, L3, L4, L5, L6.
  assert (Hlast : (List.length (w_stdin w3) <= List.length (w_stdin v6))%nat).
  { destruct again.
    - io_walk Hs' by (proper_cout _ v6) as u7 v7 G7 L7.
      apply follows_length in L7.
      assert (Hfuel : (List.length (w_stdin v7)
                       < List.length (w_stdin w2))%nat) by lia.
      pose proof (session_loop_proper envs _ 1%nat v7 Hfuel) as Hrest.
      rewrite Hs' in Hrest. simpl in Hrest.
      apply follows_length in Hrest. lia.
    - inversion Hs'; subst. lia. }
  lia.
Qed.
End Program.

(** ** A Custom difficulty *)

Lemma stdin_say (w : World) (s : string) : w_stdin (say w s) = w_stdin w.
Proof. reflexivity. Qed.

Lemma stdin_after_line (w : World) (s : string) :
  w_stdin (after_line w s) = tl (w_stdin w).
Proof. reflexivity. Qed.

(** What is left of the input, read off the world step by step. *)
Ltac stdin_left Hin :=
  repeat (rewrite stdin_after_line || rewrite stdin_say);
  rewrite Hin; reflexivity.

(** Reads the next line of the input as the integer [v]. *)
Ltac read_int v rest' Hin :=
  match goal with
  | |- context [bind (prompt_int ?p ?a ?b) _ ?w0] =>
      let Hs := fresh "Hs" in
      assert (Hs : w_stdin w0
                   = (EmptyString ++ to_string v ++ EmptyString) :: rest')
        by (cbn [append]; rewrite append_nil_r; stdin_left Hin);
      rewrite (bind_value _ _ _ _ _
                 (prompt_int_reads p a b v w0 EmptyString EmptyString rest'
                    ltac:(unfold is_int, INT_MIN, INT_MAX; lia)
                    ltac:(unfold is_int, INT_MIN, INT_MAX; lia)
                    ltac:(lia) eq_refl eq_refl Hs));
      clear Hs; cbv beta
  end.

(** Reads the next line of the input as the answer [line] to a question. *)
Ltac read_yesno line v rest' Hin :=
  match goal with
  | |- context [bind (prompt_yesno ?p) _ ?w0] =>
      let Hs := fresh "Hs" in
      let Hy := fresh "Hy" in
      assert (Hs : w_stdin w0 = line :: rest') by stdin_left Hin;
      assert (Hy : prompt_yesno p w0
                   = Done v (after_line w0 (p ++ " (y/n): ")))
        by (rewrite (prompt_yesno_line p w0 line rest' Hs); reflexivity);
      rewrite (bind_value _ _ _ _ _ Hy);
      clear Hs Hy; cbv beta
  end.

(** X16: choosing 4 and typing a minimum between -1000000 and 999999, a
    maximum above it up to 1000000 and, after y, a number of attempts
    between 1 and 1000000 gives the Custom configuration of these three
    numbers; after n instead, the one with unlimited attempts.  The lines
    that follow are left in the input. *)
Theorem choose_difficulty_custom (w : World) (lo hi : Z)
    (rest : list string) :
  -1000000 <= lo -> lo < hi -> hi <= 1000000 ->
  (forall n, 1 <= n <= 1000000 ->
     w_stdin w = "4" :: to_string lo :: to_string hi :: "y" :: to_string n
                     :: rest ->
     exists w',
       choose_difficulty w = Done (mkGameConfig "Custom" lo hi n) w'
       /\ w_stdin w' = rest)
  /\ (w_stdin w = "4" :: to_string lo :: to_string hi :: "n" :: rest ->
      exists w',
        choose_difficulty w = Done (mkGameConfig "Custom" lo hi 0) w'
        /\ w_stdin w' = rest).
Proof.
  intros Hlo Hlt Hhi. split.
  - intros n Hn Hin. unfold choose_difficulty. rewrite !bind_cout.
    read_int 4 (to_string lo :: to_string hi :: "y" :: to_string n :: rest)
             Hin.
    cbv iota. unfold bind at 1. rewrite bind_cout.
    read_int lo (to_string hi :: "y" :: to_string n :: rest) Hin.
    rewrite bind_cout.
    read_int hi ("y" :: to_string n :: rest) Hin.
    read_yesno "y" true (to_string n :: rest) Hin.
    cbv iota.
    read_int n rest Hin.
    unfold ret at 1. cbv beta iota.
    rewrite !bind_cout. cbn [difficultyName minValue maxValue maxAttempts].
    destruct (Z.gtb_spec n 0) as [_|]; [|lia].
    rewrite !bind_cout. unfold ret.
    eexists. split; [reflexivity|]. stdin_left Hin.
  - intros Hin. unfold choose_difficulty. rewrite !bind_cout.
    read_int 4 (to_string lo :: to_string hi :: "n" :: rest) Hin.
    cbv iota. unfold bind at 1. rewrite bind_cout.
    read_int lo (to_string hi :: "n" :: rest) Hin.
    rewrite bind_cout.
    read_int hi ("n" :: rest) Hin.
    read_yesno "n" false rest Hin.
    cbv iota.
    unfold ret at 1. cbv beta iota.
    rewrite !bind_cout. cbn [difficultyName minValue maxValue maxAttempts].
    change (0 >? 0) with false. cbv iota.
    unfold bind at 1. unfold ret at 1. cbv beta iota.
    rewrite !bind_cout. unfold ret.
    eexists. split; [reflexivity|]. stdin_left Hin.
Qed.

(** An instance: the range -5 to 5 with three attempts, and without a
    limit. *)
Lemma choose_difficulty_custom_witness :
  (exists w',
      choose_difficulty (console ["4"; "-5"; "5"; "y"; "3"; "7"] None)
      = Done (mkGameConfig "Custom" (-5) 5 3) w'
      /\ w_stdin w' = ["7"])
  /\ (exists w',
        choose_difficulty (console ["4"; "-5"; "5"; "n"; "7"] None)
        = Done (mkGameConfig "Custom" (-5) 5 0) w'
        /\ w_stdin w' = ["7"]).
Proof.
  split.
  - apply (proj1 (choose_difficulty_custom
                    (console ["4"; "-5"; "5"; "y"; "3"; "7"] None)
                    (-5) 5 ["7"] ltac:(lia) ltac:(lia) ltac:(lia)) 3);
      [lia | vm_compute; reflexivity].
  - apply (proj2 (choose_difficulty_custom
                    (console ["4"; "-5"; "5"; "n"; "7"] None)
                    (-5) 5 ["7"] ltac:(lia) ltac:(lia) ltac:(lia)));
      vm_compute; reflexivity.
Defined.

(** ** The winning guess *)

(** X17: typing the secret, when it is not 0, ends the guess loop at once
    as [Correct], whatever the hints and the attempts so far: the attempt
    is counted, the hints stay, and the congratulation with the count is
    the last thing written. *)
Theorem correct_guess_wins (cfg : GameConfig) (secret : Z) (st : Locals)
    (w : World) (rest : list string) :
  is_int secret -> secret <> 0 ->
  w_stdin w = to_string secret :: rest ->
  exists w1,
    ask_guess st w = Done secret w1
    /\ w_stdin w1 = rest
    /\ guesses cfg secret st w
       = Done (Correct, mkLocals (tried st + 1) (lowHint st) (highHint st))
              (say w1 (msg_correct (tried st + 1))).
Proof.
  intros Hint Hnz Hin.
  assert (Hask : ask_guess st w
                 = Done secret
                     (after_line
                        (say w ("Allowed range: [" ++ to_string (lowHint st)
                                  ++ " - " ++ to_string (highHint st) ++ "] "))
                        "Enter guess (or 0 to give up): ")).
  { unfold ask_guess. rewrite bind_cout.
    apply (prompt_int_reads _ INT_MIN INT_MAX secret _ EmptyString
             EmptyString rest);
      try reflexivity;
      try (unfold is_int, INT_MIN, INT_MAX in *; lia).
    cbn [append]. rewrite append_nil_r. stdin_left Hin. }
  eexists. split; [exact Hask|]. split; [stdin_left Hin|].
  apply (guesses_last_turn cfg secret st _ secret Correct w _ _ Hask).
  unfold guess_turn.
  destruct (Z.eqb_spec secret 0) as [|_]; [contradiction|].
  rewrite Z.eqb_refl. reflexivity.
Qed.

(** An instance: the secret 7 typed as the third attempt of an Easy game. *)
Lemma correct_guess_wins_witness :
  exists w1,
    ask_guess (mkLocals 2 5 9) (console ["7"; "ann"] None) = Done 7 w1
    /\ w_stdin w1 = ["ann"]
    /\ guesses cfg_easy 7 (mkLocals 2 5 9) (console ["7"; "ann"] None)
       = Done (Correct, mkLocals (2 + 1) 5 9) (say w1 (msg_correct (2 + 1))).
Proof.
  apply (correct_guess_wins cfg_easy 7 (mkLocals 2 5 9)
           (console ["7"; "ann"] None) ["ann"]).
  - unfold is_int, INT_MIN, INT_MAX. lia.
  - lia.
  - vm_compute. reflexivity.
Defined.

(** ** Games and the leaderboard *)

Lemma difficulty_text_plain (cfg : GameConfig) :
  selectable cfg ->
  plain (difficultyName cfg ++ " (" ++ to_string (minValue cfg) ++ "-"
           ++ to_string (maxValue cfg) ++ ")") = true.
Proof.
  intros (Hname & _).
  apply plain_append.
  - destruct Hname as [-> | [-> | [-> | ->]]]; reflexivity.
  - apply plain_append; [reflexivity|].
    apply plain_append; [apply to_string_plain|].
    apply plain_append; [reflexivity|].
    apply plain_append; [apply to_string_plain | reflexivity].
Qed.

Lemma csv_file_snoc (rs : list Result) (r : Result) :
  csv_file (rs ++ [r]) = csv_file rs ++ csv_line r.
Proof.
  rewrite csv_file_app. cbn [csv_file]. rewrite append_nil_r. reflexivity.
Qed.

Section Recorded.
Context {FA : FloatArith}.

(** X18: a game keeps the leaderboard readable when the name typed has
    neither a comma nor a line feed.  On a file that holds the lines of
    records [rs], a game with a configuration of [choose_difficulty] returns
    a result that reads back from its line, and leaves the file with that
    line added at its end, or as it was when the player is Anonymous or the
    file cannot be written; reading it then returns these records. *)
Theorem play_game_keeps_leaderboard (cfg : GameConfig) (env : Session)
    (w w' : World) (res : Result) (rs : list Result) :
  selectable cfg ->
  plain (now_iso8601 env) = true -> is_int (drawn env) ->
  Z.of_nat (List.length (w_stdin w)) <= INT_MAX ->
  Forall storable rs -> w_file w = Some (csv_file rs) ->
  play_game cfg env w = Done res w' ->
  plain (playerName res) = true ->
  let kept := if negb (String.eqb (playerName res) "Anonymous")
                 && w_writable w
              then (rs ++ [res])%list else rs in
  storable res
  /\ w_file w' = Some (csv_file kept)
  /\ forall limit,
       read_leaderboard limit w'
       = Done (firstn (Z.to_nat (Z.max 1 limit)) (map reread kept)) w'.
Proof.
  intros Hcfg Hts Hsecret Hlines Hall Hfile Hplay Hname kept.
  destruct (guess_phase_proper cfg (drawn env) w) as [_ Hq].
  destruct (guess_phase cfg (drawn env) w) as [[e st'] w1|w1|w1|] eqn:Hphase;
    [| rewrite (play_game_aborted cfg env w w1 Hphase) in Hplay; discriminate
     | unfold play_game, bind in Hplay; rewrite Hphase in Hplay; discriminate
     | unfold play_game, bind in Hplay; rewrite Hphase in Hplay; discriminate ].
  simpl in Hq. destruct Hq as (Qfile & Qwr & _).
  pose proof (guess_phase_counts _ _ _ _ _ _ Hphase) as (C0 & _ & Clines & _).
  rewrite (play_game_after_phase cfg env w w1 _ Hphase) in Hplay.
  cbv zeta in Hplay. cbn [snd] in Hplay.
  set (res0 := make_result cfg env (tried st')
                 (hd EmptyString (w_stdin w1))) in *.
  assert (Hres : res = res0
                 /\ w_file w'
                    = Some (csv_file
                              (if negb (String.eqb (playerName res0)
                                                   "Anonymous")
                                  && w_writable w
                               then (rs ++ [res0])%list else rs))).
  { destruct (String.eqb (playerName res0) "Anonymous").
    - inversion Hplay; subst. split; [reflexivity|].
      cbn [negb andb name_read w_file]. congruence.
    - unfold append_to_leaderboard, cerr in Hplay.
      cbn [name_read w_writable w_file] in Hplay. rewrite Qwr, Qfile in Hplay.
      rewrite Hfile in Hplay. cbn [negb andb].
      destruct (w_writable w); inversion Hplay; subst;
        (split; [reflexivity|]); cbn [w_file];
        [rewrite csv_file_snoc; reflexivity | congruence]. }
  destruct Hres as [-> Hfile'].
  assert (Hst : storable res0).
  { unfold storable. subst res0. unfold make_result in *.
    cbn [timestamp playerName difficulty attempts secretNumber] in *.
    split; [exact Hts|]. split; [exact Hname|].
    split; [apply difficulty_text_plain; exact Hcfg|].
    split; [|exact Hsecret].
    unfold is_int, INT_MIN, INT_MAX in *. lia. }
  fold kept in Hfile'.
  assert (Hkept : Forall storable kept).
  { subst kept. destruct (_ && _); [|exact Hall].
    apply Forall_app. split; [exact Hall|]. constructor; [exact Hst|constructor]. }
  split; [exact Hst|]. split; [exact Hfile'|].
  intro limit. unfold read_leaderboard. rewrite Hfile'.
  apply read_leaderboard_loop_records; [exact Hkept | lia].
Qed.
End Recorded.

(** An instance: ann finds the 7 of an Easy game at once, on a leaderboard
    that holds bob's game. *)
Lemma play_game_keeps_leaderboard_witness :
  let w := console ["7"; "ann"] (Some (csv_file [bob_game])) in
  let env := mkSession 7 3 "2024-01-03 12:00:00" in
  exists res w',
    @play_game exact_arith cfg_easy env w = Done res w'
    /\ playerName res = "ann"
    /\ storable res
    /\ w_file w' = Some (csv_file [bob_game; res]).
Proof.
  intros w env.
  assert (Hphase : forall c, exists out,
             guess_phase cfg_easy 7 (console ["7"; "ann"] (Some c))
             = Done (Correct, mkLocals 1 1 20)
                    (mkWorld ["ann"] out EmptyString (Some c) true))
    by (intro c; eexists; vm_compute; reflexivity).
  destruct (Hphase (csv_file [bob_game])) as (out & Hph). clear Hphase.
  pose proof (@play_game_after_phase exact_arith cfg_easy env w _ _ Hph)
    as Hplay.
  cbv zeta in Hplay. cbn [snd tried hd w_stdin] in Hplay.
  destruct (String.eqb _ _) eqn:E in Hplay; [lazy in E; discriminate|].
  clear E. unfold append_to_leaderboard in Hplay.
  cbn [name_read w_writable w_file w_stdin w_stdout w_stderr] in Hplay.
  eexists. eexists. split; [exact Hplay|].
  split; [reflexivity|].
  assert (Hlines : Z.of_nat (List.length (w_stdin w)) <= INT_MAX)
    by (vm_compute; discriminate).
  assert (Hsel : selectable cfg_easy)
    by (unfold selectable; simpl; repeat split; auto; lia).
  assert (Hint : is_int (drawn env))
    by (unfold is_int, INT_MIN, INT_MAX; simpl; lia).
  pose proof (@play_game_keeps_leaderboard exact_arith cfg_easy env w _ _
                [bob_game] Hsel eq_refl Hint Hlines
                (Forall_cons _ bob_game_storable (Forall_nil _)) eq_refl
                Hplay eq_refl) as (Hst & Hfile' & _).
  split; [exact Hst|]. exact Hfile'.
Defined.
